(** * TFhelper: the dataset-to-training pipeline

    A shallow embedding of [fileToTensor], [folderToTensors] (with its local
    [shuffleCombo]) and [learnTransferModel], and the properties of the
    pipeline that the specification states.

    Conventions of the embedding.
    - A JavaScript array is a list of slots, [None] standing for
      [undefined]; keys outside the element range are kept apart.
    - Tensor values are exact rationals; float32 rounding is not modelled.
    - The numbers of the shuffle are IEEE 754 doubles: a double is the
      rational it denotes, and a product is rounded to the nearest double.
    - Library calls whose result depends on the outside world (the file
      system, the image codecs, the network, the optimiser, [Math.random])
      are fields of an environment record [Env]. *)

From Stdlib Require Import ZArith QArith Qround Qpower Lqa Lia Ascii String.
From stdpp Require Import base list strings pretty.

Open Scope Z_scope.

(** ** JavaScript values used by the pipeline *)

(** An error object, as thrown by the libraries. *)
Record JsError := mkError { err_name : string; err_message : string }.

(** [x | 0] on a number with integral value: ECMAScript ToInt32. *)
Definition ToInt32 (z : Z) : Z := (z + 2 ^ 31) mod 2 ^ 32 - 2 ^ 31.

(** Truncation toward zero, the first step of ToInt32 on a fraction. *)
Definition Qtruncate (q : Q) : Z := Z.quot (Qnum q) (Z.pos (Qden q)).

Definition bitor0 (q : Q) : Z := ToInt32 (Qtruncate q).

(** *** Numbers: IEEE 754 doubles

    A Number is modelled by the rational it denotes.  [to_double q] is the
    double nearest to [q], ties going to the even significand: the
    rounding that JavaScript applies to the exact result of an arithmetic
    operation.  A double has a significand of 53 bits; below 2^-1022 the
    doubles are the multiples of 2^-1074.  Overflow to Infinity (from
    2^1024 on) and the sign of zero are not modelled. *)

Definition Qpow2 (e : Z) : Q := Qpower 2 e.

(** The exponent [e] with 2^e <= q < 2^(e+1), for a positive [q]. *)
Definition Qlog2_floor (q : Q) : Z :=
  let e := Z.log2 (Qnum q) - Z.log2 (Z.pos (Qden q)) in
  if Qle_bool (Qpow2 e) q then e else e - 1.

(** The nearest integer, a tie going to the even one. *)
Definition round_half_even (q : Q) : Z :=
  let f := Qfloor q in
  match Qcompare (q - inject_Z f) (1 # 2) with
  | Lt => f
  | Gt => f + 1
  | Eq => if Z.even f then f else f + 1
  end.

(** The distance between the doubles around a positive [q]. *)
Definition ulp (q : Q) : Q := Qpow2 (Z.max (Qlog2_floor q) (-1022) - 52).

Definition to_double (q : Q) : Q :=
  match Qcompare q 0 with
  | Eq => 0%Q
  | Gt => (inject_Z (round_half_even (q / ulp q)) * ulp q)%Q
  | Lt => (- (inject_Z (round_half_even (- q / ulp (- q))) * ulp (- q)))%Q
  end.

(** The rationals that are doubles. *)
Definition is_double (q : Q) : bool := Qeq_bool (to_double q) q.

(** [a * b] on two Numbers. *)
Definition js_mul (a b : Q) : Q := to_double (a * b).

(** ** Arrays *)

(** [elems] are the indexed slots ([length] is the array's length);
    [props] holds what was stored under negative keys, which are ordinary
    properties and do not touch the length. *)
Record JsArray (A : Type) := mkArray {
  elems : list (option A);
  props : list (Z * option A)
}.
Arguments mkArray {A} _ _.
Arguments elems {A} _.
Arguments props {A} _.

Definition arr_of {A} (l : list A) : JsArray A := mkArray (Some <$> l) [].
Definition arr_length {A} (a : JsArray A) : nat := length (elems a).

Fixpoint prop_get {A} (ps : list (Z * option A)) (k : Z) : option A :=
  match ps with
  | [] => None
  | (k', v) :: ps' => if Z.eqb k' k then v else prop_get ps' k
  end.

(** [a[i]]: [undefined] for a slot that is not there. *)
Definition js_get {A} (a : JsArray A) (i : Z) : option A :=
  if Z.ltb i 0 then prop_get (props a) i
  else match elems a !! Z.to_nat i with
       | Some v => v
       | None => None
       end.

(** [a[i] = v]: writing past the end extends the array with holes. *)
Definition js_set {A} (a : JsArray A) (i : Z) (v : option A) : JsArray A :=
  if Z.ltb i 0 then mkArray (elems a) ((i, v) :: props a)
  else
    let n := Z.to_nat i in
    if Nat.ltb n (length (elems a))
    then mkArray (<[n := v]> (elems a)) (props a)
    else mkArray (elems a ++ replicate (n - length (elems a)) None ++ [v]) (props a).

(** [a.push(x)] *)
Definition js_push {A} (a : JsArray A) (x : A) : JsArray A :=
  mkArray (elems a ++ [Some x]) (props a).

(** ** The world the pipeline runs in *)

Inductive Printable :=
| PStr (s : string)
| PNum (n : Z)
| PShape (s : list nat)
| PRat (q : Q)
| PErr (e : option JsError).

Inductive ConsoleEvent :=
| ConsoleLog (args : list Printable)
| ConsoleError (args : list Printable)
| AssertionFailed.

Inductive SocketEvent :=
| Emit (event : string) (payload : list Printable).

Record World := mkWorld {
  console : list ConsoleEvent;   (* lines written so far *)
  random_calls : nat;            (* calls of Math.random so far *)
  reads : list string;           (* files handed to fs.readFileSync so far *)
  emitted : list SocketEvent     (* socket.emit calls so far *)
}.

Definition initial_world : World := mkWorld [] 0 [] [].

(** ** A monad for statements: state, exceptions, process exit *)

Inductive Completion (A : Type) :=
| Normal (a : A)
| Throw (e : option JsError)     (* [None]: the thrown value is undefined *)
| Exit (code : Z)                (* process.exit *)
| Suspended.                     (* waiting on a promise that is never settled *)
Arguments Normal {A} _.
Arguments Throw {A} _.
Arguments Exit {A} _.
Arguments Suspended {A}.

Definition M (A : Type) : Type := World -> Completion A * World.

Definition ret {A} (a : A) : M A := fun w => (Normal a, w).

Definition bind {A B} (m : M A) (k : A -> M B) : M B :=
  fun w =>
    match m w with
    | (Normal a, w') => k a w'
    | (Throw e, w') => (Throw e, w')
    | (Exit c, w') => (Exit c, w')
    | (Suspended, w') => (Suspended, w')
    end.

Definition throw {A} (e : JsError) : M A := fun w => (Throw (Some e), w).

Notation "'let*' x ':=' m 'in' k" := (bind m (fun x => k))
  (at level 10, x name, m at level 100, k at level 200, only parsing).
Notation "'let*' ' p ':=' m 'in' k" := (bind m (fun x => let 'p := x in k))
  (at level 10, p pattern, m at level 100, k at level 200, only parsing).

Definition lift {A} (r : JsError + A) : M A :=
  match r with
  | inl e => throw e
  | inr a => ret a
  end.

Definition console_log (args : list Printable) : M unit :=
  fun w => (Normal tt,
            mkWorld (console w ++ [ConsoleLog args]) (random_calls w) (reads w) (emitted w)).

Definition console_error (args : list Printable) : M unit :=
  fun w => (Normal tt,
            mkWorld (console w ++ [ConsoleError args]) (random_calls w) (reads w) (emitted w)).

(** Node's [console.assert] prints and goes on; it does not throw. *)
Definition console_assert (cond : bool) : M unit :=
  fun w => (Normal tt,
            if cond then w
            else mkWorld (console w ++ [AssertionFailed]) (random_calls w) (reads w) (emitted w)).

Definition socket_emit (event : string) (payload : list Printable) : M unit :=
  fun w => (Normal tt,
            mkWorld (console w) (random_calls w) (reads w) (emitted w ++ [Emit event payload])).

Definition process_exit {A} (code : Z) : M A := fun w => (Exit code, w).

Fixpoint forEach {A S} (body : S -> A -> M S) (l : list A) (s : S) : M S :=
  match l with
  | [] => ret s
  | x :: l' => let* s' := body s x in forEach body l' s'
  end.

(** ** Tensors *)

Record Tensor := mkTensor { shape : list nat; values : list Q }.

(** [t.div(d)], elementwise. *)
Definition tf_div (t : Tensor) (d : Q) : Tensor :=
  mkTensor (shape t) (map (fun v => (v / d)%Q) (values t)).

(** [tf.cast(t, 'float32')]: the values are kept (rounding is not modelled). *)
Definition tf_cast (t : Tensor) (dtype : string) : Tensor := t.

Fixpoint all_defined {A} (l : list (option A)) : option (list A) :=
  match l with
  | [] => Some []
  | None :: _ => None
  | Some x :: l' => match all_defined l' with
                    | Some xs => Some (x :: xs)
                    | None => None
                    end
  end.

Definition shape_eqb (s1 s2 : list nat) : bool := bool_decide (s1 = s2).

(** [tf.stack(ts)]: needs at least one tensor, and equal shapes. *)
Definition tf_stack (ts : JsArray Tensor) : M Tensor :=
  match all_defined (elems ts) with
  | None => throw (mkError "TypeError" "tf.stack: undefined is not a tensor")
  | Some [] => throw (mkError "Error" "Pass at least one tensor to tf.stack")
  | Some (t0 :: rest) =>
      if forallb (fun t => shape_eqb (shape t) (shape t0)) rest
      then ret (mkTensor (length (t0 :: rest) :: shape t0)
                         (concat (map values (t0 :: rest))))
      else throw (mkError "Error" "tf.stack: shapes must match")
  end.

Definition oneHot_row (depth : nat) (index : Z) : list Q :=
  map (fun c => if Z.eqb (Z.of_nat c) index then 1%Q else 0%Q) (seq 0 depth).

(** [tf.oneHot(indices, depth)]: on value 1, off value 0, a row of zeros for
    an index outside [0, depth); [depth] below 2 is refused. *)
Definition tf_oneHot (indices : JsArray Z) (depth : nat) : M Tensor :=
  if Nat.ltb depth 2
  then throw (mkError "Error" "Error in oneHot: depth must be >=2")
  else match all_defined (elems indices) with
       | None => throw (mkError "TypeError" "tf.oneHot: undefined is not a number")
       | Some ys => ret (mkTensor [length ys; depth]
                                  (concat (map (oneHot_row depth) ys)))
       end.

(** Row [i] of a rank-2 tensor. *)
Definition row (t : Tensor) (i : nat) : list Q :=
  match shape t with
  | [_; width] => take width (drop (i * width) (values t))
  | _ => []
  end.

Definition Qsum (l : list Q) : Q := foldr Qplus 0%Q l.

(** ** Models *)

Record DenseConfig := mkDense {
  inputShape : option (list nat);
  units : nat;
  activation : string
}.

Record CompileConfig := mkCompile {
  optimizer : string;
  loss : string;
  metrics : list string
}.

Record LayersModel := mkModel {
  layers : list DenseConfig;
  weights : list Q;
  compiled : option CompileConfig
}.

Record Logs := mkLogs { logs_loss : Q; logs_acc : Q }.

Record GraphModel := mkGraphModel { predict : Tensor -> JsError + Tensor }.

Record Socket := mkSocket { socket_id : string }.

(** ** The environment: what the libraries answer *)

Record Env := mkEnv {
  (* glob(pattern): the promise's outcome *)
  glob : string -> JsError + list string;
  (* fs.readFileSync(path) *)
  readFileSync : string -> JsError + list Byte.byte;
  (* tf.node.decodeImage(bytes, channels) *)
  decodeImage : list Byte.byte -> nat -> JsError + Tensor;
  (* tf.image.resizeBilinear(image, size) *)
  resizeBilinear : Tensor -> list nat -> JsError + Tensor;
  (* the n-th result of Math.random() *)
  random_source : nat -> Q;
  (* tf.loadGraphModel(url, options) *)
  loadGraphModel : string -> JsError + GraphModel;
  (* initial weights chosen by tf.sequential for the given layers *)
  initial_weights : list DenseConfig -> list Q;
  (* model.evaluate(x, y): loss and accuracy *)
  evaluate : LayersModel -> Tensor -> Tensor -> JsError + (Q * Q);
  (* one epoch of model.fit over the whole set *)
  train_epoch : LayersModel -> Tensor -> Tensor -> JsError + (LayersModel * Logs)
}.

(** ** Node's [path] module (POSIX flavour) *)

Definition is_slash (c : ascii) : bool := Ascii.eqb c "/"%char.

(** The backward scan of [path.dirname]: [rev_tail] holds the characters
    at positions [i], [i-1], ..., 1. *)
Fixpoint dirname_scan (rev_tail : list ascii) (i : nat) (matchedSlash : bool)
  : option nat :=
  match rev_tail with
  | [] => None
  | c :: rest =>
      if is_slash c
      then if matchedSlash then dirname_scan rest (i - 1) true else Some i
      else dirname_scan rest (i - 1) false
  end.

Definition path_dirname (path : string) : string :=
  match list_ascii_of_string path with
  | [] => "."
  | c0 :: tail =>
      let hasRoot := is_slash c0 in
      match dirname_scan (rev tail) (length tail) true with
      | None => if hasRoot then "/" else "."
      | Some e =>
          if hasRoot && Nat.eqb e 1 then "//"
          else string_of_list_ascii (take e (c0 :: tail))
      end
  end.

(** The backward scan of [path.basename]: [rev_path] holds the characters
    at positions [i], [i-1], ..., 0; the result is [(start, end)]. *)
Fixpoint basename_scan (rev_path : list ascii) (i : nat) (matchedSlash : bool)
  (e : option nat) : nat * option nat :=
  match rev_path with
  | [] => (0%nat, e)
  | c :: rest =>
      if is_slash c
      then if matchedSlash then basename_scan rest (i - 1) matchedSlash e
           else (S i, e)
      else match e with
           | None => basename_scan rest (i - 1) false (Some (S i))
           | Some _ => basename_scan rest (i - 1) matchedSlash e
           end
  end.

Definition path_basename (path : string) : string :=
  let cs := list_ascii_of_string path in
  match basename_scan (rev cs) (length cs - 1) true None with
  | (_, None) => ""
  | (start, Some e) => string_of_list_ascii (drop start (take e cs))
  end.

(** ** Array helpers of the loader *)

(** [dirs.includes(dir)] *)
Definition includes (dirs : list string) (dir : string) : bool :=
  existsb (String.eqb dir) dirs.

Fixpoint indexOf_from (dirs : list string) (dir : string) (i : Z) : Z :=
  match dirs with
  | [] => -1
  | d :: dirs' => if String.eqb d dir then i else indexOf_from dirs' dir (i + 1)
  end.

(** [dirs.indexOf(dir)]: -1 when absent. *)
Definition indexOf (dirs : list string) (dir : string) : Z := indexOf_from dirs dir 0.

(** How a promise stands when the run is over. *)
Inductive PromiseState (A : Type) :=
| Pending
| Fulfilled (v : A)
| Rejected (reason : option JsError).
Arguments Pending {A}.
Arguments Fulfilled {A} _.
Arguments Rejected {A} _.

Record Settlement (A : Type) := mkSettlement {
  promise : PromiseState A;
  exit_code : option Z       (* [Some c]: the process was ended with code c *)
}.
Arguments mkSettlement {A} _ _.
Arguments promise {A} _.
Arguments exit_code {A} _.

Definition Dataset : Type := Tensor * Tensor * list string.

(** What a finished run has computed (the function itself returns nothing). *)
Record Trained := mkTrained {
  run_dataset : Dataset;
  run_features : Tensor;
  run_model : LayersModel;
  run_history : list Logs
}.

(** ** The pipeline *)

Section Pipeline.

Variable E : Env.

Definition fs_readFileSync (filePath : string) : M (list Byte.byte) :=
  fun w =>
    let w' := mkWorld (console w) (random_calls w) (reads w ++ [filePath]) (emitted w) in
    match readFileSync E filePath with
    | inl e => (Throw (Some e), w')
    | inr bytes => (Normal bytes, w')
    end.

Definition Math_random : M Q :=
  fun w => (Normal (random_source E (random_calls w)),
            mkWorld (console w) (S (random_calls w)) (reads w) (emitted w)).

(** fileToTensor (lines 12-18) *)
Definition fileToTensor (filePath : string) (size : list nat) : M Tensor :=
  let* rawimage := fs_readFileSync filePath in
  let* imageTensor := lift (decodeImage E rawimage 3) in
  let* resizedTensor := lift (resizeBilinear E imageTensor size) in
  let normalizedTensor := tf_cast (tf_div resizedTensor 255) "float32" in
  ret normalizedTensor.

(** The body of [files.forEach] (lines 38-47); the state is [(XS, YS, dirs)]. *)
Definition load_file (size : list nat)
  (st : JsArray Tensor * JsArray Z * list string) (file : string)
  : M (JsArray Tensor * JsArray Z * list string) :=
  let '(XS, YS, dirs) := st in
  let dir := path_basename (path_dirname file) in
  let dirs := if negb (includes dirs dir) then dirs ++ [dir] else dirs in
  let answer := indexOf dirs dir in
  let* imageTensor := fileToTensor file size in
  let YS := js_push YS answer in
  let XS := js_push XS imageTensor in
  ret (XS, YS, dirs).

(** The [while (counter > 0)] loop of shuffleCombo (lines 59-69). *)
Fixpoint shuffle_loop {A B} (counter : nat) (array : JsArray A) (array2 : JsArray B)
  : M (JsArray A * JsArray B) :=
  match counter with
  | O => ret (array, array2)
  | S counter' =>
      let* r := Math_random in
      let index := bitor0 (js_mul r (inject_Z (Z.of_nat counter))) in
      (* counter-- *)
      let temp := js_get array (Z.of_nat counter') in
      let temp2 := js_get array2 (Z.of_nat counter') in
      let array := js_set array (Z.of_nat counter') (js_get array index) in
      let array2 := js_set array2 (Z.of_nat counter') (js_get array2 index) in
      let array := js_set array index temp in
      let array2 := js_set array2 index temp2 in
      shuffle_loop counter' array array2
  end.

(** shuffleCombo (lines 54-70); the arrays are shuffled in place, the model
    returns their new contents. *)
Definition shuffleCombo {A B} (array : JsArray A) (array2 : JsArray B)
  : M (JsArray A * JsArray B) :=
  let counter := arr_length array in
  let* _ := console_assert (Nat.eqb (arr_length array) (arr_length array2)) in
  shuffle_loop counter array array2.

(** The [.then] handler of folderToTensors (lines 34-87); its result is the
    value handed to [resolve]. *)
Definition on_files (size : list nat) (files : list string) : M Dataset :=
  let* _ := console_log [PStr (String.append (pretty (length files)) " Files Found")] in
  let* _ := console_log [PStr "Now converting to tensors"] in
  let* '(XS, YS, dirs) := forEach (load_file size) files (arr_of [], arr_of [], []) in
  let* '(XS, YS) := shuffleCombo XS YS in
  let* _ := console_log [PStr "Stacking"] in
  let* X := tf_stack XS in
  let* Y := tf_oneHot YS (length dirs) in
  let* _ := console_log [PStr "Images all converted to tensors:"] in
  let* _ := console_log [PStr "X"; PShape (shape X)] in
  let* _ := console_log [PStr "Y"; PShape (shape Y)] in
  let XNORM := tf_div X 255 in
  (* tf.dispose([XS, X]) frees memory only *)
  ret (XNORM, Y, dirs).

(** folderToTensors (lines 26-94).  The [.catch] handler receives a rejection
    of [glob] and anything thrown by the [.then] handler. *)
Definition folderToTensors (dirPath : string) (size : list nat)
  : World -> Settlement Dataset * World :=
  fun w0 =>
    let chain :=
      let* _ := console_log [PStr "Identifying Image List"] in
      let* files := lift (glob E (String.append dirPath "/*/*.@(png|jpeg|jpg|bmp)")) in
      on_files size files in
    match chain w0 with
    | (Normal result, w) => (mkSettlement (Fulfilled result) None, w)
    | (Throw error, w) =>
        let '(_, w) := console_error [PStr "Failed to access files"; PErr error] w in
        (* reject(); process.exit(1); *)
        (mkSettlement (Rejected None) (Some 1), w)
    | (Exit code, w) => (mkSettlement Pending (Some code), w)
    | (Suspended, w) => (mkSettlement Pending None, w)
    end.

(** [await p]: the value, or the rejection rethrown; nothing runs once the
    process has ended, and the function does not resume on a promise that
    stays pending. *)
Definition await {A} (p : World -> Settlement A * World) : M A :=
  fun w =>
    match p w with
    | (mkSettlement _ (Some code), w') => (Exit code, w')
    | (mkSettlement (Fulfilled v) None, w') => (Normal v, w')
    | (mkSettlement (Rejected reason) None, w') => (Throw reason, w')
    | (mkSettlement Pending None, w') => (Suspended, w')
    end.

(** [tf.sequential({layers})] *)
Definition tf_sequential (ls : list DenseConfig) : LayersModel :=
  mkModel ls (initial_weights E ls) None.

(** [model.compile(config)] *)
Definition model_compile (m : LayersModel) (c : CompileConfig) : LayersModel :=
  mkModel (layers m) (weights m) (Some c).

(** The epoch loop of [model.fit]: epochs are numbered from 0, and
    [onEpochEnd] is awaited after each. *)
Fixpoint fit_loop (remaining epoch : nat) (m : LayersModel) (x y : Tensor)
  (onEpochEnd : nat -> Logs -> M unit) (history : list Logs)
  : M (LayersModel * list Logs) :=
  match remaining with
  | O => ret (m, history)
  | S remaining' =>
      let* '(m', logs) := lift (train_epoch E m x y) in
      let* _ := onEpochEnd epoch logs in
      fit_loop remaining' (S epoch) m' x y onEpochEnd (history ++ [logs])
  end.

Definition model_fit (m : LayersModel) (x y : Tensor) (epochs : nat)
  (onEpochEnd : nat -> Logs -> M unit) : M (LayersModel * list Logs) :=
  fit_loop epochs 0 m x y onEpochEnd [].

(** [if (socket) { socket.emit(event, ...payload); }] *)
Definition emit_if (socket : option Socket) (event : string) (payload : list Printable)
  : M unit :=
  match socket with
  | Some _ => socket_emit event payload
  | None => ret tt
  end.

(** A shape inside a template literal: the numbers joined by commas. *)
Definition shape_string (s : list nat) : string :=
  String.concat "," (map pretty s).

(** The [onEpochEnd] callback handed to [fit] (lines 146-152). *)
Definition onEpochEnd (socket : option Socket) (epoch : nat) (logs : Logs) : M unit :=
  let* _ := console_log
              [PStr (String.append "epoch:" (pretty epoch)); PStr " acc:"; PRat (logs_acc logs)] in
  emit_if socket "updateProgress" [PNum (Z.of_nat epoch)].

(** learnTransferModel (lines 102-162) *)
Definition learnTransferModel (folderPath : string) (socket : option Socket)
  : M Trained :=
  let* _ := console_log [PStr "Loading images - this may take a while..."] in
  let* _ := emit_if socket "log" [PStr "loading images"] in
  let* '(X, Y, dirs) := await (folderToTensors folderPath [224; 224]%nat) in
  let* _ := console_log [PStr "Loading model"] in
  let* _ := emit_if socket "log" [PStr "loading model"] in
  let* featureModel :=
    lift (loadGraphModel E
      "https://www.kaggle.com/models/google/mobilenet-v2/TfJs/140-224-feature-vector/3") in
  let transferModel :=
    tf_sequential
      [ mkDense (Some [1792%nat]) 64 "relu";
        mkDense None (length dirs) "softmax" ] in
  let* _ := console_log [PStr "Creating features from images - this may take a while..."] in
  let* _ := emit_if socket "log" [PStr "creating features"] in
  let* featureX := lift (predict featureModel X) in
  let* _ := console_log [PStr (String.append "Features stack " (shape_string (shape featureX)))] in
  let* _ := emit_if socket "log"
              [PStr (String.append "Features stack " (shape_string (shape featureX)))] in
  let transferModel :=
    model_compile transferModel
      (mkCompile "adam" "categoricalCrossentropy" ["accuracy"]) in
  let* '(_, acc0) := lift (evaluate E transferModel featureX Y) in
  let* _ := console_log [PRat acc0] in
  let* '(trained, history) :=
    model_fit transferModel featureX Y 100 (onEpochEnd socket) in
  let* _ := console_log [PStr "learned!"] in
  let* _ :=
    match socket with
    | Some _ =>
        let* _ := socket_emit "log" [PStr "learned"] in
        socket_emit "learnCompleted" []
    | None => ret tt
    end in
  ret (mkTrained (X, Y, dirs) featureX trained history).

End Pipeline.

(** ** Reference definitions used to state the properties *)

(** [Math.random] answers with a double in [0, 1). *)
Definition random_in_unit (E : Env) : Prop :=
  forall n,
    is_double (random_source E n) = true
    /\ (0 <= random_source E n)%Q /\ (random_source E n < 1)%Q.

(** The index drawn by [(Math.random() * counter) | 0] when the draw is [r]. *)
Definition draw_index (r : Q) (counter : nat) : nat :=
  Z.to_nat (Qfloor (js_mul r (inject_Z (Z.of_nat counter)))).

(** Exchange of the slots [i] and [j] of a list. *)
Definition list_swap {X} (l : list X) (i j : nat) : list X :=
  match l !! i, l !! j with
  | Some x, Some y => <[j := x]> (<[i := y]> l)
  | _, _ => l
  end.

(** The slots of one array after the loop, when draw number [k] is the
    first one used. *)
Fixpoint shuffled {X} (E : Env) (counter k : nat) (l : list X) : list X :=
  match counter with
  | O => l
  | S counter' =>
      shuffled E counter' (S k)
        (list_swap l counter' (draw_index (random_source E k) counter))
  end.

Definition advance (w : World) (n : nat) : World :=
  mkWorld (console w) (random_calls w + n) (reads w) (emitted w).


(** The tensor [fileToTensor] makes of a file, or the error it throws. *)
Definition file_tensor (E : Env) (file : string) (size : list nat) : JsError + Tensor :=
  match readFileSync E file with
  | inl e => inl e
  | inr rawimage =>
      match decodeImage E rawimage 3 with
      | inl e => inl e
      | inr imageTensor =>
          match resizeBilinear E imageTensor size with
          | inl e => inl e
          | inr resizedTensor => inr (tf_cast (tf_div resizedTensor 255) "float32")
          end
      end
  end.

(** The file loads, and [t] is its tensor. *)
Definition loads (E : Env) (size : list nat) (file : string) (t : Tensor) : Prop :=
  file_tensor E file size = inr t.

(** The label name of a file: the name of its parent directory. *)
Definition label_of (file : string) : string := path_basename (path_dirname file).

Definition add_label (dirs : list string) (dir : string) : list string :=
  if negb (includes dirs dir) then dirs ++ [dir] else dirs.

(** The label list after the files have been visited, starting from [dirs]. *)
Fixpoint labels_after (dirs : list string) (files : list string) : list string :=
  match files with
  | [] => dirs
  | f :: files' => labels_after (add_label dirs (label_of f)) files'
  end.

(** The label index given to each file, in visiting order. *)
Fixpoint answers (dirs : list string) (files : list string) : list Z :=
  match files with
  | [] => []
  | f :: files' =>
      let dirs' := add_label dirs (label_of f) in
      indexOf dirs' (label_of f) :: answers dirs' files'
  end.

Definition add_reads (w : World) (files : list string) : World :=
  mkWorld (console w) (random_calls w) (reads w ++ files) (emitted w).

Definition add_console (w : World) (evs : list ConsoleEvent) : World :=
  mkWorld (console w ++ evs) (random_calls w) (reads w) (emitted w).

Definition set_emitted (e : list SocketEvent) (w : World) : World :=
  mkWorld (console w) (random_calls w) (reads w) e.

(** The statements of the [.then] handler that follow the shuffle. *)
Definition stack_and_encode (XS : JsArray Tensor) (YS : JsArray Z) (dirs : list string)
  : M Dataset :=
  let* _ := console_log [PStr "Stacking"] in
  let* X := tf_stack XS in
  let* Y := tf_oneHot YS (length dirs) in
  let* _ := console_log [PStr "Images all converted to tensors:"] in
  let* _ := console_log [PStr "X"; PShape (shape X)] in
  let* _ := console_log [PStr "Y"; PShape (shape Y)] in
  ret (tf_div X 255, Y, dirs).

(** The statement returned or threw: the process goes on. *)
Definition goes_on {A} (c : Completion A) : Prop :=
  match c with
  | Normal _ | Throw _ => True
  | Exit _ | Suspended => False
  end.

Definition is_log (ev : ConsoleEvent) : Prop := exists args, ev = ConsoleLog args.

Definition found_logs (files : list string) : list ConsoleEvent :=
  [ConsoleLog [PStr (String.append (pretty (length files)) " Files Found")];
   ConsoleLog [PStr "Now converting to tensors"]].

(** The pattern handed to [glob] for a folder. *)
Definition image_pattern (dirPath : string) : string :=
  String.append dirPath "/*/*.@(png|jpeg|jpg|bmp)".

Definition failure_logged (error : option JsError) : ConsoleEvent :=
  ConsoleError [PStr "Failed to access files"; PErr error].

Definition identifying : ConsoleEvent := ConsoleLog [PStr "Identifying Image List"].

(** What an attached observer has received when the load begins. *)
Definition loading_images_event (socket : option Socket) : list SocketEvent :=
  match socket with
  | Some _ => [Emit "log" [PStr "loading images"]]
  | None => []
  end.

(** The resized image of a file, before any division. *)
Definition resized (E : Env) (file : string) (size : list nat) (r : Tensor) : Prop :=
  exists rawimage imageTensor,
    readFileSync E file = inr rawimage
    /\ decodeImage E rawimage 3 = inr imageTensor
    /\ resizeBilinear E imageTensor size = inr r.

(** Decoded and resized pixels are 8-bit intensities. *)
Definition pixels_in_byte_range (E : Env) (files : list string) (size : list nat) : Prop :=
  forall file r, file ∈ files -> resized E file size r ->
    Forall (fun v => (0 <= v)%Q /\ (v <= 255)%Q) (values r).

(** A computation that neither reads nor writes the socket trace. *)
Definition emit_frame {A} (m : M A) : Prop :=
  forall w e, m (set_emitted e w) = (fst (m w), set_emitted e (snd (m w))).

(** Two worlds that differ at most in the socket trace. *)
Definition same_but_emitted (w1 w2 : World) : Prop :=
  set_emitted [] w1 = set_emitted [] w2.

(** Two computations that agree on everything but the socket trace. *)
Definition sim {A} (m1 m2 : M A) : Prop :=
  forall w1 w2, same_but_emitted w1 w2 ->
    fst (m1 w1) = fst (m2 w2) /\ same_but_emitted (snd (m1 w1)) (snd (m2 w2)).

Definition progress_events (first count : nat) : list SocketEvent :=
  (fun epoch => Emit "updateProgress" [PNum (Z.of_nat epoch)]) <$> seq first count.

(** What an attached observer receives during a run that completes with
    features of the given shape. *)
Definition expected_events (feature_shape : list nat) : list SocketEvent :=
  [ Emit "log" [PStr "loading images"];
    Emit "log" [PStr "loading model"];
    Emit "log" [PStr "creating features"];
    Emit "log" [PStr (String.append "Features stack " (shape_string feature_shape))] ]
  ++ progress_events 0 100
  ++ [ Emit "log" [PStr "learned"]; Emit "learnCompleted" [] ].

(** ** The paired Fisher-Yates shuffle, as the specification words it

    The counter runs from N-1 down to 1; at each step an index in
    [0, counter] is drawn and both sequences exchange their elements at
    [counter] and at the drawn index.  [draws] lists the drawn indices in
    the order of the steps. *)
Fixpoint fisher_yates_from {A B} (counter : nat) (draws : list nat)
  (images : list A) (labels : list B) : list A * list B :=
  match counter, draws with
  | S below, index :: draws' =>
      fisher_yates_from below draws'
        (list_swap images counter index) (list_swap labels counter index)
  | _, _ => (images, labels)
  end.

Definition paired_fisher_yates {A B} (draws : list nat)
  (images : list A) (labels : list B) : list A * list B :=
  fisher_yates_from (length images - 1) draws images labels.

(** The same steps on one sequence. *)
Fixpoint permute_by {X} (counter : nat) (draws : list nat) (l : list X) : list X :=
  match counter, draws with
  | S below, index :: draws' => permute_by below draws' (list_swap l counter index)
  | _, _ => l
  end.

(** The indices that the random source yields for the counters [counter],
    ..., 1, when draw number [k] is the first one used. *)
Fixpoint indices_drawn (E : Env) (counter k : nat) : list nat :=
  match counter with
  | O => []
  | S below =>
      draw_index (random_source E k) (S counter) :: indices_drawn E below (S k)
  end.

(** Every way of drawing an index in [0, c] for each counter c from
    [counter] down to 1. *)
Fixpoint all_draws (counter : nat) : list (list nat) :=
  match counter with
  | O => [[]]
  | S below =>
      flat_map (fun index => map (cons index) (all_draws below)) (seq 0 (S counter))
  end.

(** ** A uniform random source

    A source that delivers [bits] random bits per draw: [Math.random]
    answers with one of the 2^bits numbers k / 2^bits, each as likely as
    the others (for [bits] up to 53 all of them are doubles). *)
Definition source_grid (bits : nat) : list Q :=
  (fun k => inject_Z k / inject_Z (2 ^ Z.of_nat bits))%Q
    <$> seqZ 0 (2 ^ Z.of_nat bits).

(** The number of draws of the source for which the loop, at a counter
    that was [counter] before the decrement, computes [index]. *)
Definition index_count (bits counter index : nat) : nat :=
  length (filter (fun r => draw_index r counter = index) (source_grid bits)).

(** The drawn index is uniformly distributed: each of the [counter]
    indices is computed for the same number of draws. *)
Definition uniform_index (bits counter : nat) : Prop :=
  forall i j, (i < counter)%nat -> (j < counter)%nat ->
    index_count bits counter i = index_count bits counter j.

(** ** A sample environment

    The folder of the end-to-end scenario: two labels, [cat] with two
    images and [dog] with one, every image white. *)

Definition white_image : Tensor :=
  mkTensor [1; 1; 3]%nat [255#1; 255#1; 255#1]%Q.

Definition sample_files : list string :=
  ["root/cat/1.png"; "root/dog/2.png"; "root/cat/3.png"]%string.

(** The draws 0.3, 0.0, 0.7, 0.4, ...: the doubles that these decimals
    denote. *)
Definition sample_random (n : nat) : Q :=
  to_double (Qmake (Z.of_nat ((7 * n + 3) mod 10)) 10).

Definition sample_env : Env :=
  mkEnv
    (fun _ => inr sample_files)
    (fun _ => inr [])
    (fun _ _ => inr white_image)
    (fun t _ => inr t)
    sample_random
    (fun _ => inr (mkGraphModel (fun x =>
       inr (mkTensor (take 1 (shape x) ++ [1792%nat]) []))))
    (fun _ => [])
    (fun _ _ _ => inr (0%Q, 0%Q))
    (fun m _ _ => inr (m, mkLogs 0 0)).


(** A folder that cannot be listed. *)
Definition unreadable_env : Env :=
  mkEnv
    (fun _ => inl (mkError "Error" "EACCES: permission denied, scandir"))
    (readFileSync sample_env) (decodeImage sample_env) (resizeBilinear sample_env)
    (random_source sample_env) (loadGraphModel sample_env)
    (initial_weights sample_env) (evaluate sample_env) (train_epoch sample_env).

(** The sample folder with a second file that is not an image. *)
Definition corrupt_env : Env :=
  mkEnv
    (glob sample_env)
    (fun file => if String.eqb file "root/dog/2.png"
                 then inr [Byte.x00] else inr [])
    (fun bytes _ => match bytes with
                    | [] => inr white_image
                    | _ => inl (mkError "Error" "Expected image (BMP, JPEG, PNG, or GIF)")
                    end)
    (resizeBilinear sample_env)
    (random_source sample_env) (loadGraphModel sample_env)
    (initial_weights sample_env) (evaluate sample_env) (train_epoch sample_env).

(** What the specification asks of a failed load: the promise is rejected
    with an error value, and the process lives on. *)
Definition propagates_error {A} (r : Settlement A) : Prop :=
  (exists e, promise r = Rejected (Some e)) /\ exit_code r = None.

(** ** Further reference definitions *)

(** A folder whose two images carry the same label. *)
Definition one_class_env : Env :=
  mkEnv
    (fun _ => inr ["root/cat/1.png"; "root/cat/2.png"]%string)
    (readFileSync sample_env) (decodeImage sample_env) (resizeBilinear sample_env)
    (random_source sample_env) (loadGraphModel sample_env)
    (initial_weights sample_env) (evaluate sample_env) (train_epoch sample_env).

(** A folder without any image. *)
Definition empty_env : Env :=
  mkEnv
    (fun _ => inr [])
    (readFileSync sample_env) (decodeImage sample_env) (resizeBilinear sample_env)
    (random_source sample_env) (loadGraphModel sample_env)
    (initial_weights sample_env) (evaluate sample_env) (train_epoch sample_env).

(** The console lines of the [.then] handler after the shuffle, for a
    dataset that is handed to [resolve]. *)
Definition stacked_logs (X Y : Tensor) : list ConsoleEvent :=
  [ConsoleLog [PStr "Stacking"];
   ConsoleLog [PStr "Images all converted to tensors:"];
   ConsoleLog [PStr "X"; PShape (shape X)];
   ConsoleLog [PStr "Y"; PShape (shape Y)]].

(** The address of the feature extractor loaded by learnTransferModel. *)
Definition feature_model_url : string :=
  "https://www.kaggle.com/models/google/mobilenet-v2/TfJs/140-224-feature-vector/3".

(** What the observer has received when the model is about to be loaded,
    when the features are about to be computed, and when the training is
    about to start. *)
Definition before_model : list SocketEvent :=
  [Emit "log" [PStr "loading images"]; Emit "log" [PStr "loading model"]].

Definition before_features : list SocketEvent :=
  before_model ++ [Emit "log" [PStr "creating features"]].

Definition before_training (feature_shape : list nat) : list SocketEvent :=
  before_features
  ++ [Emit "log" [PStr (String.append "Features stack " (shape_string feature_shape))]].

(** How a run of learnTransferModel with an observer can end, with the
    events [tr] it has sent. *)
Inductive RunEnd (E : Env) : Completion Trained -> list SocketEvent -> Prop :=
| EndInLoader :
    RunEnd E (Exit 1) [Emit "log" [PStr "loading images"]]
| EndAtModel e :
    loadGraphModel E feature_model_url = inl e ->
    RunEnd E (Throw (Some e)) before_model
| EndAtFeatures e featureModel X :
    loadGraphModel E feature_model_url = inr featureModel ->
    predict featureModel X = inl e ->
    RunEnd E (Throw (Some e)) before_features
| EndAtEvaluation e featureModel shp :
    loadGraphModel E feature_model_url = inr featureModel ->
    RunEnd E (Throw (Some e)) (before_training shp)
| EndInTraining e featureModel shp k :
    loadGraphModel E feature_model_url = inr featureModel ->
    (k < 100)%nat ->
    RunEnd E (Throw (Some e)) (before_training shp ++ progress_events 0 k)
| EndCompleted t featureModel :
    loadGraphModel E feature_model_url = inr featureModel ->
    RunEnd E (Normal t) (expected_events (shape (run_features t))).

(** The world in which learnTransferModel calls the loader: the first
    line is logged and the first event sent. *)
Definition loading_world (w : World) : World :=
  set_emitted (emitted w ++ [Emit "log" [PStr "loading images"]])
    (add_console w [ConsoleLog [PStr "Loading images - this may take a while..."]]).

(** [e] is the error with which one of the library calls of
    learnTransferModel fails: the model load, the feature extraction, the
    evaluation or a training epoch. *)
Definition library_failure (E : Env) (e : JsError) : Prop :=
  loadGraphModel E feature_model_url = inl e
  \/ (exists featureModel X,
        loadGraphModel E feature_model_url = inr featureModel
        /\ predict featureModel X = inl e)
  \/ (exists m x y, evaluate E m x y = inl e)
  \/ (exists m x y, train_epoch E m x y = inl e).

(** The sample folder on a machine that cannot reach the model. *)
Definition offline_env : Env :=
  mkEnv
    (glob sample_env) (readFileSync sample_env) (decodeImage sample_env)
    (resizeBilinear sample_env) (random_source sample_env)
    (fun _ => inl (mkError "TypeError" "fetch failed"))
    (initial_weights sample_env) (evaluate sample_env) (train_epoch sample_env).

(** A name without a path separator. *)
Definition no_slash (name : string) : Prop :=
  Forall (fun c => is_slash c = false) (list_ascii_of_string name).

(** ** The server: choosing the folder of an upload

    The answers of the file system and of [path.join] to the server. *)
Record FsEnv := mkFsEnv {
  (* path.join(...segments) *)
  path_join : list string -> string;
  (* fs.existsSync(path) *)
  fs_existsSync : string -> bool;
  (* the names in a directory: fs.readdir(path), fs.readdirSync(path) *)
  fs_readdir : string -> JsError + list string;
  (* the entries of fs.readdir(path, { withFileTypes: true }):
     name and isDirectory() *)
  fs_readdir_types : string -> JsError + list (string * bool);
  (* fs.lstatSync(path).isDirectory() *)
  fs_lstat_isDirectory : string -> JsError + bool
}.

(** The [while] loop of the uploadFolder handler (lines 211-221): as long
    as the upload path exists, the folder name becomes the original name
    followed by a dash and the counter.  [fuel] bounds the number of
    passes; [None] means that it did not suffice. *)
Fixpoint upload_folder_loop (F : FsEnv) (uploadDir projectName originalFolderName : string)
  (fuel : nat) (folderName : string) (counter : nat) (uploadPath : string)
  : option (string * string) :=
  match fuel with
  | O => None
  | S fuel' =>
      if fs_existsSync F uploadPath
      then
        let folderName :=
          String.append originalFolderName (String.append "-" (pretty counter)) in
        let uploadPath := path_join F [uploadDir; "verification"; projectName; folderName] in
        upload_folder_loop F uploadDir projectName originalFolderName
          fuel' folderName (S counter) uploadPath
      else Some (folderName, uploadPath)
  end.

(** The folder name and the upload path with which the handler goes on. *)
Definition upload_folder_name (F : FsEnv) (uploadDir projectName originalFolderName : string)
  (fuel : nat) : option (string * string) :=
  let folderName := originalFolderName in
  let counter := 1%nat in
  let uploadPath := path_join F [uploadDir; "verification"; projectName; folderName] in
  upload_folder_loop F uploadDir projectName originalFolderName
    fuel folderName counter uploadPath.

(** The names the loop goes through: the original one, then the original
    one with -1, -2, ... *)
Definition folder_candidate (originalFolderName : string) (k : nat) : string :=
  match k with
  | O => originalFolderName
  | S _ => String.append originalFolderName (String.append "-" (pretty k))
  end.

Definition upload_candidate_path (F : FsEnv) (uploadDir projectName original : string)
  (k : nat) : string :=
  path_join F [uploadDir; "verification"; projectName; folder_candidate original k].

(** A file system in which the folders data and data-1 of the project pets
    exist already. *)
Definition busy_fs : FsEnv :=
  mkFsEnv
    (String.concat "/")
    (fun p => String.eqb p "images/verification/pets/data"
              || String.eqb p "images/verification/pets/data-1")
    (fun _ => inr [])
    (fun _ => inr [])
    (fun _ => inr false).

(** ** The project page of the server

    [getLabelsForProject], [getImagesForProject] and the route
    /project/:projectName that calls them.  The file system is read
    through [FsEnv]; one request sees one state of it. *)

Record LabelInfo := mkLabelInfo {
  label_name : string;
  label_id : string;
  label_count : nat
}.

Record ImageInfo := mkImageInfo {
  image_name : string;
  image_label : string
}.

(** [try { body } catch (err) { handler }] *)
Definition try_catch {A} (body : M A) (handler : option JsError -> M A) : M A :=
  fun w =>
    match body w with
    | (Throw e, w') => handler e w'
    | r => r
    end.

(** [throw err] for a caught value. *)
Definition rethrow {A} (err : option JsError) : M A := fun w => (Throw err, w).

(** [Array.prototype.filter] and [map] with a callback that may throw:
    the elements are visited in order and the first failure ends the
    call. *)
Fixpoint filter_js {A} (p : A -> JsError + bool) (l : list A) : JsError + list A :=
  match l with
  | [] => inr []
  | x :: l' =>
      match p x with
      | inl e => inl e
      | inr b =>
          match filter_js p l' with
          | inl e => inl e
          | inr r => inr (if b then x :: r else r)
          end
      end
  end.

Fixpoint map_js {A B} (f : A -> JsError + B) (l : list A) : JsError + list B :=
  match l with
  | [] => inr []
  | x :: l' =>
      match f x with
      | inl e => inl e
      | inr y =>
          match map_js f l' with
          | inl e => inl e
          | inr r => inr (y :: r)
          end
      end
  end.

(** [flatMap]: the arrays the callback returns, one after the other. *)
Definition flatMap_js {A B} (f : A -> JsError + list B) (l : list A) : JsError + list B :=
  match map_js f l with
  | inl e => inl e
  | inr rs => inr (concat rs)
  end.

Section ProjectPage.

Variable F : FsEnv.
Variable uploadDir : string.

(** The object built for one directory entry of the project (lines
    372-378): the count is the number of entries of the label folder
    that are not directories. *)
Definition label_entry (projectDir name : string) : JsError + LabelInfo :=
  match fs_readdir F (path_join F [projectDir; name]) with
  | inl e => inl e
  | inr fs =>
      match filter_js
              (fun f => match fs_lstat_isDirectory F (path_join F [projectDir; name; f]) with
                        | inl e => inl e
                        | inr d => inr (negb d)
                        end) fs with
      | inl e => inl e
      | inr kept => inr (mkLabelInfo name name (length kept))
      end
  end.

(** getLabelsForProject (lines 367-384) *)
Definition getLabelsForProject (projectName : string) : M (list LabelInfo) :=
  let projectDir := path_join F [uploadDir; "projects"; projectName] in
  try_catch
    (let* files := lift (fs_readdir_types F projectDir) in
     let* labels :=
       lift (map_js (label_entry projectDir) (fst <$> filter (fun file => snd file = true) files)) in
     ret labels)
    (fun err =>
       let* _ := console_error [PStr "ラベル情報取得エラー:"; PErr err] in
       rethrow err).

(** The images of one label folder (lines 399-402). *)
Definition label_images (projectDir label : string) : JsError + list ImageInfo :=
  let labelDir := path_join F [projectDir; label] in
  match fs_readdir F labelDir with
  | inl e => inl e
  | inr fs => inr ((fun file => mkImageInfo file label) <$> fs)
  end.

(** getImagesForProject (lines 387-409) *)
Definition getImagesForProject (projectName : string) : M (list ImageInfo) :=
  let projectDir := path_join F [uploadDir; "projects"; projectName] in
  if negb (fs_existsSync F projectDir) then ret []
  else
    try_catch
      (let* labels := lift (fs_readdir F projectDir) in
       let* labels :=
         lift (filter_js
                 (fun label => fs_lstat_isDirectory F (path_join F [projectDir; label]))
                 labels) in
       let* images := lift (flatMap_js (label_images projectDir) labels) in
       ret images)
      (fun err =>
         let* _ := console_error [PStr "画像情報取得エラー:"; PErr err] in
         rethrow err).

(** What the route hands to the response object. *)
Inductive Response :=
| StatusJson (status : nat) (error : string) (details : option string)
| Render (view : string) (projectName : string)
         (labels : list LabelInfo) (images : list ImageInfo).

(** [err.message] of a caught value; reading it off [undefined] throws. *)
Definition message_of (err : option JsError) : M string :=
  match err with
  | Some e => ret (err_message e)
  | None => throw (mkError "TypeError" "Cannot read properties of undefined (reading 'message')")
  end.

(** The route /project/:projectName (lines 343-364). *)
Definition project_route (projectName : string) : M Response :=
  let projectDir := path_join F [uploadDir; "projects"; projectName] in
  if negb (fs_existsSync F projectDir)
  then ret (StatusJson 404 "プロジェクトが見つかりません" None)
  else
    try_catch
      (let* labelList := getLabelsForProject projectName in
       let* imageList := getImagesForProject projectName in
       ret (Render "project" projectName labelList imageList))
      (fun err =>
         let* _ := console_error [PStr "プロジェクト情報取得エラー:"; PErr err] in
         let* details := message_of err in
         ret (StatusJson 500 "プロジェクト情報取得失敗" (Some details))).

End ProjectPage.

(** The directory entries and [lstat] describe the same state of the
    folder: the names are those of the entries, and [lstat] reports a
    directory where the entry does. *)
Definition dirents_consistent (F : FsEnv) (dir : string) : Prop :=
  forall ents, fs_readdir_types F dir = inr ents ->
    fs_readdir F dir = inr (fst <$> ents)
    /\ Forall (fun ent => fs_lstat_isDirectory F (path_join F [dir; fst ent]) = inr (snd ent))
         ents.

(** The number of images listed under a label. *)
Definition images_of (images : list ImageInfo) (label : string) : nat :=
  length (filter (fun im => image_label im = label) images).

Definition ENOENT : JsError := mkError "Error" "ENOENT: no such file or directory".

(** A project pets with the label folders cat (two images and a
    sub-folder) and dog (one image), and a file beside them. *)
Definition pets_fs : FsEnv :=
  mkFsEnv
    (String.concat "/")
    (fun p => bool_decide (p ∈ ["images"; "images/projects"; "images/projects/pets";
                                 "images/projects/pets/cat"; "images/projects/pets/dog";
                                 "images/projects/pets/notes.txt";
                                 "images/projects/pets/cat/a.png";
                                 "images/projects/pets/cat/b.png";
                                 "images/projects/pets/cat/old";
                                 "images/projects/pets/dog/c.png"]))
    (fun p =>
       if String.eqb p "images/projects/pets" then inr ["cat"; "dog"; "notes.txt"]
       else if String.eqb p "images/projects/pets/cat" then inr ["a.png"; "b.png"; "old"]
       else if String.eqb p "images/projects/pets/dog" then inr ["c.png"]
       else inl ENOENT)
    (fun p =>
       if String.eqb p "images/projects/pets"
       then inr [("cat", true); ("dog", true); ("notes.txt", false)]
       else if String.eqb p "images/projects/pets/cat"
       then inr [("a.png", false); ("b.png", false); ("old", true)]
       else if String.eqb p "images/projects/pets/dog" then inr [("c.png", false)]
       else inl ENOENT)
    (fun p =>
       if bool_decide (p ∈ ["images/projects/pets"; "images/projects/pets/cat";
                            "images/projects/pets/dog"; "images/projects/pets/cat/old"])
       then inr true
       else if bool_decide (p ∈ ["images/projects/pets/notes.txt";
                                 "images/projects/pets/cat/a.png";
                                 "images/projects/pets/cat/b.png";
                                 "images/projects/pets/dog/c.png"])
       then inr false
       else inl ENOENT).
(** * Properties *)

(** ** Arithmetic of doubles *)

Lemma Qpow2_pos e : (0 < Qpow2 e)%Q.
Proof. apply Qpower_0_lt. reflexivity. Qed.

Lemma Qpow2_plus a b : (Qpow2 (a + b) == Qpow2 a * Qpow2 b)%Q.
Proof. apply Qpower_plus. discriminate. Qed.

Lemma Qpow2_le a b : a <= b -> (Qpow2 a <= Qpow2 b)%Q.
Proof. intros H. apply Qpower_le_compat_l; [done|]. unfold Qle; simpl; lia. Qed.

Lemma Qpow2_lt_inv a b : (Qpow2 a < Qpow2 b)%Q -> a < b.
Proof.
  intros H. destruct (Z_lt_le_dec a b) as [|Hle]; [done|].
  apply Qpow2_le in Hle. lra.
Qed.

Lemma Qpow2_Z a : 0 <= a -> (Qpow2 a == inject_Z (2 ^ a))%Q.
Proof. intros H. unfold Qpow2. by rewrite Zpower_Qpower. Qed.

Lemma Qpow2_succ a : (Qpow2 (a + 1) == 2 * Qpow2 a)%Q.
Proof. rewrite Qpow2_plus. change (Qpow2 1) with 2%Q. ring. Qed.

Lemma Qdiv_le_cross (x y z w : Q) :
  (0 < y)%Q -> (0 < w)%Q -> (x * w <= z * y)%Q -> (x / y <= z / w)%Q.
Proof.
  intros Hy Hw H.
  apply Qle_shift_div_l; [done|].
  assert ((x / y * w)%Q == (x * w / y)%Q)%Q as -> by (field; lra).
  apply Qle_shift_div_r; [done|]. lra.
Qed.

Lemma Qdiv_lt_cross (x y z w : Q) :
  (0 < y)%Q -> (0 < w)%Q -> (x * w < z * y)%Q -> (x / y < z / w)%Q.
Proof.
  intros Hy Hw H.
  apply Qlt_shift_div_l; [done|].
  assert ((x / y * w)%Q == (x * w / y)%Q)%Q as -> by (field; lra).
  apply Qlt_shift_div_r; [done|]. lra.
Qed.

(** [Qlog2_floor q] is the exponent of the binade of [q]. *)
Lemma Qlog2_floor_spec (q : Q) :
  (0 < q)%Q ->
  (Qpow2 (Qlog2_floor q) <= q)%Q /\ (q < Qpow2 (Qlog2_floor q + 1))%Q.
Proof.
  intros Hq. unfold Qlog2_floor.
  destruct q as [n d]. cbn [Qnum Qden].
  assert (0 < n) as Hn by (unfold Qlt in Hq; simpl in Hq; lia).
  set (a := Z.log2 n). set (b := Z.log2 (Z.pos d)).
  destruct (Z.log2_spec n Hn) as [Ha1 Ha2]. fold a in Ha1, Ha2.
  destruct (Z.log2_spec (Z.pos d) ltac:(lia)) as [Hb1 Hb2]. fold b in Hb1, Hb2.
  assert (0 <= a) as Ha0 by apply Z.log2_nonneg.
  assert (0 <= b) as Hb0 by apply Z.log2_nonneg.
  assert (Qpow2 (a - b) == Qpow2 a / Qpow2 b)%Q as Heq.
  { unfold Qpow2. apply Qpower_minus. discriminate. }
  pose proof (Qpow2_pos a) as HA. pose proof (Qpow2_pos b) as HB.
  assert (Qpow2 a <= inject_Z n)%Q as HA1.
  { rewrite Qpow2_Z by done. by rewrite <- Zle_Qle. }
  assert (inject_Z n < 2 * Qpow2 a)%Q as HA2.
  { rewrite <- Qpow2_succ, Qpow2_Z by lia. rewrite <- Zlt_Qlt. by rewrite Z.add_1_r. }
  assert (Qpow2 b <= inject_Z (Z.pos d))%Q as HB1.
  { rewrite Qpow2_Z by done. by rewrite <- Zle_Qle. }
  assert (inject_Z (Z.pos d) < 2 * Qpow2 b)%Q as HB2.
  { rewrite <- Qpow2_succ, Qpow2_Z by lia. rewrite <- Zlt_Qlt. by rewrite Z.add_1_r. }
  assert (n # d == inject_Z n / inject_Z (Z.pos d))%Q as Hnd by apply Qmake_Qdiv.
  assert (0 < inject_Z (Z.pos d))%Q as HD by lra.
  destruct (Qle_bool (Qpow2 (a - b)) (n # d)) eqn:Hcmp.
  - apply Qle_bool_iff in Hcmp. split; [done|].
    rewrite Qpow2_succ, Heq, Hnd.
    assert ((2 * (Qpow2 a / Qpow2 b))%Q == ((2 * Qpow2 a) / Qpow2 b)%Q)%Q as -> by (field; lra).
    apply Qdiv_lt_cross; [done|done|]. nra.
  - assert (~ (Qpow2 (a - b) <= n # d)%Q) as Hlt.
    { intros H. apply Qle_bool_iff in H. congruence. }
    apply Qnot_le_lt in Hlt.
    replace (a - b - 1 + 1) with (a - b) by lia. split; [|done].
    assert (Qpow2 (a - b - 1) == Qpow2 a / (2 * Qpow2 b))%Q as ->.
    { replace (a - b - 1) with (a - (b + 1)) by lia.
      unfold Qpow2 at 1. rewrite Qpower_minus by discriminate.
      fold (Qpow2 a). fold (Qpow2 (b + 1)). by rewrite Qpow2_succ. }
    rewrite Hnd. apply Qdiv_le_cross; [lra|done|]. nra.
Qed.

Lemma round_half_even_near (q : Q) :
  (q - (1 # 2) <= inject_Z (round_half_even q))%Q
  /\ (inject_Z (round_half_even q) <= q + (1 # 2))%Q.
Proof.
  unfold round_half_even.
  pose proof (Qfloor_le q) as Hlo. pose proof (Qlt_floor q) as Hhi.
  rewrite inject_Z_plus in Hhi. change (inject_Z 1) with 1%Q in Hhi.
  destruct (Qcompare_spec (q - inject_Z (Qfloor q)) (1 # 2)) as [Heq|Hlt|Hgt].
  - destruct (Z.even (Qfloor q)); rewrite ?inject_Z_plus; change (inject_Z 1) with 1%Q; lra.
  - lra.
  - rewrite inject_Z_plus. change (inject_Z 1) with 1%Q. lra.
Qed.

(** Rounding does not cross an integer. *)
Lemma round_half_even_ge (q : Q) (n : Z) :
  (inject_Z n <= q)%Q -> n <= round_half_even q.
Proof.
  intros Hn. assert (n <= Qfloor q) as Hf.
  { rewrite <- (Qfloor_Z n). by apply Qfloor_resp_le. }
  unfold round_half_even.
  destruct (Qcompare _ _); [destruct (Z.even _)|..]; lia.
Qed.

Lemma round_half_even_nonneg (q : Q) : (0 <= q)%Q -> 0 <= round_half_even q.
Proof. intros H. by apply (round_half_even_ge q 0). Qed.

Lemma ulp_pos q : (0 < ulp q)%Q.
Proof. apply Qpow2_pos. Qed.

(** The unit in the last place of a positive number is at most its
    2^-52-th part, or the least positive double. *)
Lemma ulp_small (q : Q) :
  (0 < q)%Q -> (ulp q <= q * Qpow2 (-52))%Q \/ (ulp q == Qpow2 (-1074))%Q.
Proof.
  intros Hq. unfold ulp.
  destruct (Z.max_spec (Qlog2_floor q) (-1022)) as [[_ ->]|[_ ->]].
  - by right.
  - left. destruct (Qlog2_floor_spec q Hq) as [Hlo _].
    replace (Qlog2_floor q - 52) with (Qlog2_floor q + -52) by lia.
    rewrite Qpow2_plus. pose proof (Qpow2_pos (-52)). nra.
Qed.

Lemma to_double_pos (q : Q) :
  (0 < q)%Q -> (to_double q == inject_Z (round_half_even (q / ulp q)) * ulp q)%Q.
Proof.
  intros Hq. unfold to_double.
  destruct (Qcompare_spec q 0) as [H|H|H]; [lra|lra|reflexivity].
Qed.

Lemma to_double_0 (q : Q) : (q == 0)%Q -> (to_double q == 0)%Q.
Proof.
  intros Hq. unfold to_double.
  destruct (Qcompare_spec q 0) as [H|H|H]; [reflexivity|lra|lra].
Qed.

Lemma to_double_nonneg (q : Q) : (0 <= q)%Q -> (0 <= to_double q)%Q.
Proof.
  intros Hq. destruct (Qlt_le_dec 0 q) as [Hpos|Hle].
  - rewrite to_double_pos by done.
    apply Qmult_le_0_compat; [|pose proof (ulp_pos q); lra].
    change 0%Q with (inject_Z 0). rewrite <- Zle_Qle.
    apply round_half_even_nonneg. apply Qle_shift_div_l; [apply ulp_pos|].
    pose proof (ulp_pos q). lra.
  - rewrite to_double_0 by lra. lra.
Qed.

(** A result is rounded by at most half a unit in the last place. *)
Lemma to_double_near (q : Q) :
  (0 < q)%Q ->
  (q - ulp q * (1 # 2) <= to_double q)%Q
  /\ (to_double q <= q + ulp q * (1 # 2))%Q.
Proof.
  intros Hq. rewrite to_double_pos by done.
  pose proof (ulp_pos q) as Hu.
  destruct (round_half_even_near (q / ulp q)) as [Hlo Hhi].
  assert (q / ulp q * ulp q == q)%Q as Hq' by (field; lra).
  set (m := inject_Z (round_half_even (q / ulp q))) in *.
  set (t := (q / ulp q)%Q) in *. clearbody m t.
  set (u := ulp q) in *. clearbody u.
  assert ((t - (1 # 2)) * u <= m * u)%Q as H1
    by (apply Qmult_le_compat_r; lra).
  assert (m * u <= (t + (1 # 2)) * u)%Q as H2
    by (apply Qmult_le_compat_r; lra).
  assert ((t - (1 # 2)) * u == q - u * (1 # 2))%Q as E1 by (rewrite <- Hq'; ring).
  assert ((t + (1 # 2)) * u == q + u * (1 # 2))%Q as E2 by (rewrite <- Hq'; ring).
  rewrite E1 in H1. rewrite E2 in H2. by split.
Qed.

(** Rounding does not cross an integer: a number that is at least the
    integer [j] is rounded to a double that is at least [j]. *)
Lemma to_double_ge_int (q : Q) (j : Z) :
  0 <= j -> (inject_Z j <= q)%Q -> (q < Qpow2 53)%Q ->
  (inject_Z j <= to_double q)%Q.
Proof.
  intros Hj Hjq Hmax.
  destruct (Z.eq_dec j 0) as [->|Hj0].
  { apply to_double_nonneg. by change 0%Q with (inject_Z 0). }
  assert (0 < q)%Q as Hq.
  { assert (inject_Z 1 <= inject_Z j)%Q by (rewrite <- Zle_Qle; lia).
    change (inject_Z 1) with 1%Q in *. lra. }
  rewrite to_double_pos by done.
  destruct (Qlog2_floor_spec q Hq) as [Hlo _].
  assert (Qlog2_floor q < 53) as He.
  { apply Qpow2_lt_inv. lra. }
  unfold ulp. set (k := Z.max (Qlog2_floor q) (-1022) - 52).
  assert (k <= 0) as Hk by lia.
  pose proof (Qpow2_pos k) as Hu.
  assert (Qpow2 (- k) * Qpow2 k == 1)%Q as Hinv.
  { rewrite <- Qpow2_plus. by replace (- k + k) with 0 by lia. }
  assert (inject_Z j == inject_Z (j * 2 ^ (- k)) * Qpow2 k)%Q as Hjk.
  { rewrite inject_Z_mult, <- Qpow2_Z by lia.
    rewrite <- Qmult_assoc, Hinv. ring. }
  rewrite Hjk at 1.
  apply Qmult_le_compat_r; [|lra].
  rewrite <- Zle_Qle. apply round_half_even_ge.
  apply Qle_shift_div_l; [done|]. by rewrite <- Hjk.
Qed.

Lemma Qpow2_lt_1 e : (Qpow2 e < 1)%Q -> e < 0.
Proof. intros H. apply Qpow2_lt_inv. by change (Qpow2 0) with 1%Q. Qed.

(** The doubles below 1 end at 1 - 2^-53. *)
Lemma double_below_one (r : Q) :
  is_double r = true -> (0 <= r)%Q -> (r < 1)%Q -> (r <= 1 - Qpow2 (-53))%Q.
Proof.
  intros Hd H0 H1. unfold is_double in Hd. apply Qeq_bool_iff in Hd.
  destruct (Qlt_le_dec 0 r) as [Hpos|Hle].
  2:{ pose proof (Qpow2_le (-53) 0 ltac:(lia)) as Hp.
      change (Qpow2 0) with 1%Q in Hp.
      assert (Qpow2 (-53) <= 1 # 2)%Q by (unfold Qle; simpl; lia). lra. }
  destruct (Qlog2_floor_spec r Hpos) as [Hlo Hhi].
  assert (Qlog2_floor r < 0) as He by (apply Qpow2_lt_1; lra).
  destruct (Z.eq_dec (Qlog2_floor r) (-1)) as [Heq|Hne].
  - rewrite to_double_pos in Hd by done. unfold ulp in Hd. rewrite Heq in Hd.
    change (Z.max (-1) (-1022) - 52) with (-53) in Hd.
    set (m := round_half_even (r / Qpow2 (-53))) in *.
    assert (m < 2 ^ 53) as Hm.
    { rewrite Zlt_Qlt. rewrite <- Qpow2_Z by lia.
      apply Qmult_lt_r with (z := Qpow2 (-53)); [apply Qpow2_pos|].
      rewrite Hd, <- Qpow2_plus. change (Qpow2 (53 + -53)) with 1%Q. done. }
    assert (inject_Z m <= inject_Z (2 ^ 53) - 1)%Q as Hm'.
    { assert (m <= 2 ^ 53 + - (1)) as Hm2 by lia.
      rewrite Zle_Qle, inject_Z_plus, inject_Z_opp in Hm2. exact Hm2. }
    rewrite <- Qpow2_Z in Hm' by lia.
    rewrite <- Hd.
    assert (Qpow2 53 * Qpow2 (-53) == 1)%Q as Hinv by reflexivity.
    pose proof (Qpow2_pos (-53)). nra.
  - assert (Qpow2 (Qlog2_floor r + 1) <= Qpow2 (-1))%Q as Hp by (apply Qpow2_le; lia).
    assert (Qpow2 (-1) == 1 # 2)%Q as Hhalf by reflexivity.
    assert (Qpow2 (-53) <= 1 # 2)%Q by (unfold Qle; simpl; lia). lra.
Qed.

(** The product of a draw below 1 and a positive count, rounded, stays
    below the count. *)
Lemma js_mul_below (r c : Q) :
  (0 <= r)%Q -> (r <= 1 - Qpow2 (-53))%Q -> (1 <= c)%Q ->
  (0 <= js_mul r c)%Q /\ (js_mul r c < c)%Q.
Proof.
  intros H0 H1 Hc. unfold js_mul.
  assert (0 <= r * c)%Q as Hq0 by (apply Qmult_le_0_compat; lra).
  split; [by apply to_double_nonneg|].
  destruct (Qlt_le_dec 0 (r * c)) as [Hpos|Hle].
  2:{ rewrite to_double_0 by lra. lra. }
  destruct (to_double_near (r * c) Hpos) as [_ Hhi].
  pose proof (Qpow2_pos (-53)) as Hp.
  assert (Qpow2 (-53) < 1)%Q as Hp1 by reflexivity.
  assert (r * c <= c - c * Qpow2 (-53))%Q as Hq.
  { assert (r * c <= (1 - Qpow2 (-53)) * c)%Q as Hrc
      by (apply Qmult_le_compat_r; lra).
    assert ((1 - Qpow2 (-53)) * c == c - c * Qpow2 (-53))%Q as E by ring.
    by rewrite E in Hrc. }
  set (q := (r * c)%Q) in *. clearbody q.
  set (y := to_double q) in *. clearbody y.
  destruct (ulp_small q Hpos) as [Hu|Hu].
  - assert (Qpow2 (-52) == 2 * Qpow2 (-53))%Q as H52 by reflexivity.
    rewrite H52 in Hu.
    set (u := ulp q) in *. clearbody u.
    set (p := Qpow2 (-53)) in *. clearbody p.
    assert (q * p <= (c - c * p) * p)%Q as H by (apply Qmult_le_compat_r; lra).
    assert (0 < c * p * p)%Q by (repeat apply Qmult_lt_0_compat; lra).
    assert (q * (2 * p) == 2 * (q * p))%Q as A by ring. rewrite A in Hu.
    assert ((c - c * p) * p == c * p - c * p * p)%Q as E by ring. rewrite E in H.
    set (qp := (q * p)%Q) in *. set (cpp := (c * p * p)%Q) in *.
    set (cp := (c * p)%Q) in *. clearbody qp cpp cp. lra.
  - assert (Qpow2 (-1074) <= Qpow2 (-53))%Q as Hs by (apply Qpow2_le; lia).
    rewrite Hu in Hhi.
    set (p := Qpow2 (-53)) in *. set (s := Qpow2 (-1074)) in *. clearbody p s.
    assert (1 * p <= c * p)%Q as Hcp by (apply Qmult_le_compat_r; lra).
    set (cp := (c * p)%Q) in *. clearbody cp. clear Hu. lra.
Qed.

(** ** Arithmetic of the drawn index *)

Lemma ToInt32_small z : - 2 ^ 31 <= z < 2 ^ 31 -> ToInt32 z = z.
Proof.
  intros Hz. unfold ToInt32.
  rewrite Z.mod_small by lia. lia.
Qed.

Lemma Qtruncate_nonneg q : (0 <= q)%Q -> Qtruncate q = Qfloor q.
Proof.
  destruct q as [n d]. unfold Qle; simpl. intros Hn.
  unfold Qtruncate; simpl. apply Z.quot_div_nonneg; lia.
Qed.

Lemma Qfloor_range (q : Q) (c : Z) :
  (0 <= q)%Q -> (q < inject_Z c)%Q -> 0 <= Qfloor q < c.
Proof.
  intros H0 Hc. split.
  - change 0 with (Qfloor 0). by apply Qfloor_resp_le.
  - rewrite Zlt_Qlt. eapply Qle_lt_trans; [apply Qfloor_le | exact Hc].
Qed.

Lemma draw_in_range_below (r : Q) (counter : nat) :
  (0 <= r)%Q -> (r <= 1 - Qpow2 (-53))%Q -> (0 < counter)%nat ->
  0 <= Qfloor (js_mul r (inject_Z (Z.of_nat counter))) < Z.of_nat counter.
Proof.
  intros H0 H1 Hc.
  assert (1 <= inject_Z (Z.of_nat counter))%Q as Hc1.
  { change 1%Q with (inject_Z 1). rewrite <- Zle_Qle. lia. }
  destruct (js_mul_below r (inject_Z (Z.of_nat counter)) H0 H1 Hc1) as [Hlo Hhi].
  by apply Qfloor_range.
Qed.

Lemma draw_in_range (r : Q) (counter : nat) :
  is_double r = true -> (0 <= r)%Q -> (r < 1)%Q -> (0 < counter)%nat ->
  0 <= Qfloor (js_mul r (inject_Z (Z.of_nat counter))) < Z.of_nat counter.
Proof.
  intros Hd H0 H1 Hc. apply draw_in_range_below; [done| |done].
  by apply double_below_one.
Qed.

Lemma draw_index_lt (r : Q) (counter : nat) :
  is_double r = true -> (0 <= r)%Q -> (r < 1)%Q -> (0 < counter)%nat ->
  (draw_index r counter < counter)%nat.
Proof.
  intros Hd H0 H1 Hc. unfold draw_index.
  pose proof (draw_in_range r counter Hd H0 H1 Hc). lia.
Qed.

Lemma bitor0_draw (r : Q) (counter : nat) :
  is_double r = true -> (0 <= r)%Q -> (r < 1)%Q -> (0 < counter)%nat ->
  Z.of_nat counter <= 2 ^ 31 ->
  bitor0 (js_mul r (inject_Z (Z.of_nat counter))) = Z.of_nat (draw_index r counter).
Proof.
  intros Hd H0 H1 Hc Hmax.
  pose proof (draw_in_range r counter Hd H0 H1 Hc) as Hr.
  unfold bitor0, draw_index.
  rewrite Qtruncate_nonneg.
  - rewrite ToInt32_small by lia. lia.
  - apply to_double_nonneg. apply Qmult_le_0_compat; [done|].
    change 0%Q with (inject_Z 0). rewrite <- Zle_Qle. lia.
Qed.

(** The double 0.6666666666666666 is below 2/3, but its product with 3 is
    rounded to 2: the loop draws the index 2 at a counter of 3, where the
    exact product would give 1. *)
Example draw_rounds_up :
  is_double (6004799503160661 # 9007199254740992) = true
  /\ (js_mul (6004799503160661 # 9007199254740992) 3 == 2)%Q
  /\ draw_index (6004799503160661 # 9007199254740992) 3 = 2%nat
  /\ Qfloor ((6004799503160661 # 9007199254740992) * 3) = 1.
Proof. by vm_compute. Qed.

(** ** Exchanging two slots *)

Section Swap.
Context {X : Type}.
Implicit Types l : list X.

Lemma list_swap_length l i j : length (list_swap l i j) = length l.
Proof.
  unfold list_swap. destruct (l !! i), (l !! j); try done.
  by rewrite !length_insert.
Qed.

Lemma list_swap_same l i : list_swap l i i = l.
Proof.
  unfold list_swap. destruct (l !! i) as [x|] eqn:Hi; [|done].
  by rewrite list_insert_insert_eq, list_insert_id.
Qed.

Lemma insert_as_cons l i x y :
  l !! i = Some x -> <[i := y]> l ≡ₚ y :: delete i l.
Proof.
  intros Hi.
  assert (i < length l)%nat as Hlt by (by eapply lookup_lt_Some).
  rewrite insert_take_drop, delete_take_drop by done.
  by rewrite <- Permutation_middle.
Qed.

Lemma list_swap_perm l i j : list_swap l i j ≡ₚ l.
Proof.
  unfold list_swap.
  destruct (l !! i) as [x|] eqn:Hi; [|done].
  destruct (l !! j) as [y|] eqn:Hj; [|done].
  destruct (decide (i = j)) as [->|Hne].
  - rewrite list_insert_insert_eq. by rewrite list_insert_id.
  - assert (<[i := y]> l !! j = Some y) as Hj'
      by (by rewrite list_lookup_insert_ne).
    rewrite (insert_as_cons _ j y x Hj').
    assert (delete j (<[i := y]> l) ≡ₚ delete i l) as ->.
    { apply (Permutation_cons_inv (a := y)).
      rewrite <- (delete_Permutation _ _ _ Hj').
      by apply insert_as_cons with (x := x). }
    symmetry. by apply delete_Permutation.
Qed.

Lemma list_swap_lookup l i j k :
  (i < length l)%nat -> (j < length l)%nat ->
  list_swap l i j !! k =
    if decide (k = j) then l !! i
    else if decide (k = i) then l !! j
    else l !! k.
Proof.
  intros Hi Hj. unfold list_swap.
  destruct (lookup_lt_is_Some_2 l i Hi) as [x Hx].
  destruct (lookup_lt_is_Some_2 l j Hj) as [y Hy].
  rewrite Hx, Hy.
  destruct (decide (k = j)) as [->|Hkj].
  - rewrite list_lookup_insert_eq; [done | by rewrite length_insert].
  - rewrite list_lookup_insert_ne by done.
    destruct (decide (k = i)) as [->|Hki].
    + by rewrite list_lookup_insert_eq.
    + by rewrite list_lookup_insert_ne.
Qed.

End Swap.

Lemma list_swap_fmap {X Y} (f : X -> Y) (l : list X) i j :
  list_swap (f <$> l) i j = f <$> list_swap l i j.
Proof.
  unfold list_swap. rewrite !list_lookup_fmap.
  destruct (l !! i), (l !! j); simpl; try done.
  by rewrite !list_fmap_insert.
Qed.

Lemma list_swap_zip {X Y} (l1 : list X) (l2 : list Y) i j :
  length l1 = length l2 ->
  list_swap (zip l1 l2) i j = zip (list_swap l1 i j) (list_swap l2 i j).
Proof.
  intros Hlen. unfold list_swap. rewrite !lookup_zip_with.
  destruct (l1 !! i) as [x1|] eqn:H1i; simpl.
  - destruct (lookup_lt_is_Some_2 l2 i) as [x2 H2i].
    { rewrite <- Hlen. by eapply lookup_lt_Some. }
    rewrite H2i; simpl.
    destruct (l1 !! j) as [y1|] eqn:H1j; simpl.
    + destruct (lookup_lt_is_Some_2 l2 j) as [y2 H2j].
      { rewrite <- Hlen. by eapply lookup_lt_Some. }
      rewrite H2j; simpl. by rewrite !insert_zip_with.
    + assert (l2 !! j = None) as ->; [|done].
      apply lookup_ge_None. rewrite <- Hlen. by apply lookup_ge_None.
  - assert (l2 !! i = None) as ->; [|done].
    apply lookup_ge_None. rewrite <- Hlen. by apply lookup_ge_None.
Qed.

(** ** The shuffled slots *)

Lemma shuffled_length {X} E counter k (l : list X) :
  length (shuffled E counter k l) = length l.
Proof.
  revert k l. induction counter as [|c IH]; intros k l; simpl; [done|].
  by rewrite IH, list_swap_length.
Qed.

Lemma shuffled_perm {X} E counter k (l : list X) :
  shuffled E counter k l ≡ₚ l.
Proof.
  revert k l. induction counter as [|c IH]; intros k l; simpl; [done|].
  by rewrite IH, list_swap_perm.
Qed.

Lemma shuffled_fmap {X Y} (f : X -> Y) E counter k (l : list X) :
  shuffled E counter k (f <$> l) = f <$> shuffled E counter k l.
Proof.
  revert k l. induction counter as [|c IH]; intros k l; simpl; [done|].
  by rewrite list_swap_fmap, IH.
Qed.

Lemma shuffled_zip {X Y} E counter k (l1 : list X) (l2 : list Y) :
  length l1 = length l2 ->
  shuffled E counter k (zip l1 l2)
  = zip (shuffled E counter k l1) (shuffled E counter k l2).
Proof.
  revert k l1 l2. induction counter as [|c IH]; intros k l1 l2 Hlen; simpl; [done|].
  rewrite list_swap_zip by done.
  apply IH. by rewrite !list_swap_length.
Qed.

(** ** One pass of the loop on in-range indices *)

Lemma js_exchange {A} (es : list (option A)) ps (c j : nat) :
  (c < length es)%nat -> (j < length es)%nat ->
  let a := mkArray es ps in
  js_set (js_set a (Z.of_nat c) (js_get a (Z.of_nat j)))
         (Z.of_nat j) (js_get a (Z.of_nat c))
  = mkArray (list_swap es c j) ps.
Proof.
  intros Hc Hj a. subst a. unfold js_set, js_get; simpl.
  assert ((Z.of_nat c <? 0) = false) as -> by lia.
  assert ((Z.of_nat j <? 0) = false) as -> by lia.
  rewrite !Nat2Z.id.
  destruct (lookup_lt_is_Some_2 es c Hc) as [x Hx].
  destruct (lookup_lt_is_Some_2 es j Hj) as [y Hy].
  rewrite Hx, Hy.
  assert ((c <? length es)%nat = true) as -> by (apply Nat.ltb_lt; lia).
  simpl. rewrite length_insert.
  assert ((j <? length es)%nat = true) as -> by (apply Nat.ltb_lt; lia).
  unfold list_swap. by rewrite Hx, Hy.
Qed.

Lemma advance_0 w : advance w 0 = w.
Proof. destruct w. unfold advance; simpl. by rewrite Nat.add_0_r. Qed.

Lemma shuffle_loop_pure {A B} E (counter : nat)
  (es1 : list (option A)) ps1 (es2 : list (option B)) ps2 (w : World) :
  random_in_unit E ->
  (counter <= length es1)%nat -> (counter <= length es2)%nat ->
  Z.of_nat counter <= 2 ^ 31 ->
  shuffle_loop E counter (mkArray es1 ps1) (mkArray es2 ps2) w
  = (Normal (mkArray (shuffled E counter (random_calls w) es1) ps1,
             mkArray (shuffled E counter (random_calls w) es2) ps2),
     advance w counter).
Proof.
  intros Hrand. revert es1 es2 w.
  induction counter as [|c IH]; intros es1 es2 w H1 H2 Hmax.
  - simpl. unfold ret. by rewrite advance_0.
  - destruct (Hrand (random_calls w)) as (Hrd & Hr0 & Hr1).
    pose proof (draw_index_lt _ (S c) Hrd Hr0 Hr1 ltac:(lia)) as Hj.
    cbn [shuffle_loop shuffled]. unfold bind at 1. unfold Math_random at 1.
    rewrite bitor0_draw by (done || lia).
    rewrite (js_exchange es1 ps1) by lia.
    rewrite (js_exchange es2 ps2) by lia.
    rewrite IH by (rewrite ?list_swap_length; lia).
    simpl. f_equal. unfold advance; simpl. f_equal. lia.
Qed.

(** shuffleCombo on two arrays without holes, the first no longer than the
    second. *)
Lemma shuffleCombo_pure {A B} E (images : list A) (labels : list B) (w : World) :
  random_in_unit E ->
  length images = length labels ->
  Z.of_nat (length images) <= 2 ^ 31 ->
  shuffleCombo E (arr_of images) (arr_of labels) w
  = (Normal (arr_of (shuffled E (length images) (random_calls w) images),
             arr_of (shuffled E (length images) (random_calls w) labels)),
     advance w (length images)).
Proof.
  intros Hrand Hlen Hmax. unfold shuffleCombo, arr_length, arr_of; simpl.
  rewrite !length_fmap, Hlen, Nat.eqb_refl.
  unfold bind, console_assert; simpl.
  rewrite shuffle_loop_pure; rewrite ?length_fmap; try (done || lia).
  by rewrite !shuffled_fmap.
Qed.

Lemma sample_random_in_unit : random_in_unit sample_env.
Proof.
  intros n. cbn [random_source sample_env]. unfold sample_random.
  pose proof (Nat.mod_upper_bound (7 * n + 3) 10 ltac:(lia)) as Hk.
  revert Hk. generalize ((7 * n + 3) mod 10)%nat. intros k Hk.
  do 10 (destruct k as [|k]; [by vm_compute|]). lia.
Qed.

(** ** C3: the pairing survives the shuffle *)

(** C3.  For two arrays of equal length N (any N, within the range of the
    32-bit index computation), shuffleCombo returns normally, and the
    zipped output is a permutation of the zipped input: the image at output
    position i carries the label it had in the input. *)
Theorem shuffleCombo_pairing {A B} (E : Env) (images : list A) (labels : list B)
  (w : World) :
  random_in_unit E ->
  length images = length labels ->
  Z.of_nat (length images) <= 2 ^ 31 ->
  exists images' labels' w',
    shuffleCombo E (arr_of images) (arr_of labels) w
      = (Normal (arr_of images', arr_of labels'), w') /\
    length images' = length images /\
    length labels' = length labels /\
    zip images' labels' ≡ₚ zip images labels /\
    (forall i x y, images' !! i = Some x -> labels' !! i = Some y ->
       exists j, images !! j = Some x /\ labels !! j = Some y).
Proof.
  intros Hrand Hlen Hmax.
  eexists _, _, _. split; [by apply shuffleCombo_pure|].
  rewrite !shuffled_length.
  assert (zip (shuffled E (length images) (random_calls w) images)
              (shuffled E (length images) (random_calls w) labels)
          ≡ₚ zip images labels) as Hperm.
  { rewrite <- shuffled_zip by done. apply shuffled_perm. }
  repeat split; try done.
  intros i x y Hx Hy.
  assert ((x, y) ∈ zip images labels) as Hin.
  { rewrite <- Hperm. apply list_elem_of_lookup. exists i.
    rewrite lookup_zip_with, Hx; simpl. by rewrite Hy. }
  apply list_elem_of_lookup in Hin as [j Hj].
  apply lookup_zip_with_Some in Hj as (x' & y' & [= -> ->] & Hx' & Hy').
  by exists j.
Qed.

(** Four images and their labels, shuffled with the sample source. *)
Lemma shuffleCombo_pairing_witness :
  exists images' labels' w',
    shuffleCombo sample_env (arr_of [10; 20; 30; 40]) (arr_of ["a"; "b"; "c"; "d"]%string)
      initial_world
      = (Normal (arr_of images', arr_of labels'), w') /\
    length images' = 4%nat /\
    length labels' = 4%nat /\
    zip images' labels' ≡ₚ zip [10; 20; 30; 40] ["a"; "b"; "c"; "d"]%string /\
    (forall i x y, images' !! i = Some x -> labels' !! i = Some y ->
       exists j, [10; 20; 30; 40] !! j = Some x
                 /\ (["a"; "b"; "c"; "d"]%string : list string) !! j = Some y).
Proof.
  apply (shuffleCombo_pairing sample_env [10; 20; 30; 40]
           ["a"; "b"; "c"; "d"]%string initial_world).
  - exact sample_random_in_unit.
  - reflexivity.
  - simpl. lia.
Defined.

(** ** The statement monad *)

Lemma bind_Normal_inv {A B} (m : M A) (k : A -> M B) w b w' :
  bind m k w = (Normal b, w') ->
  exists a w1, m w = (Normal a, w1) /\ k a w1 = (Normal b, w').
Proof.
  unfold bind. destruct (m w) as [[a|e|c|] w1]; intros H; try discriminate.
  by exists a, w1.
Qed.

(** ** Loading the files *)

Section Loader.
Variable E : Env.
Variable size : list nat.

Lemma fileToTensor_spec file w :
  fileToTensor E file size w
  = (match file_tensor E file size with
     | inl e => Throw (Some e)
     | inr t => Normal t
     end, add_reads w [file]).
Proof.
  unfold fileToTensor, file_tensor, bind, fs_readFileSync, add_reads.
  destruct (readFileSync E file) as [e|raw]; [done|].
  destruct (decodeImage E raw 3) as [e|img]; [done|]; simpl.
  by destruct (resizeBilinear E img size) as [e|r].
Qed.

Lemma add_reads_app w l1 l2 : add_reads (add_reads w l1) l2 = add_reads w (l1 ++ l2).
Proof. unfold add_reads; simpl. by rewrite <- app_assoc. Qed.

Lemma add_reads_nil w : add_reads w [] = w.
Proof. destruct w. unfold add_reads; simpl. by rewrite app_nil_r. Qed.

Lemma forEach_load_ok files tensors xs px ys py dirs w :
  Forall2 (loads E size) files tensors ->
  forEach (load_file E size) files (mkArray xs px, mkArray ys py, dirs) w
  = (Normal (mkArray (xs ++ (Some <$> tensors)) px,
             mkArray (ys ++ (Some <$> answers dirs files)) py,
             labels_after dirs files),
     add_reads w files).
Proof.
  intros Hall. revert xs ys dirs w.
  induction Hall as [|f t files tensors Hf _ IH]; intros xs ys dirs w.
  - simpl. unfold ret. by rewrite !app_nil_r, add_reads_nil.
  - cbn [forEach]. unfold bind at 1. unfold load_file at 1.
    unfold bind at 1. rewrite fileToTensor_spec, Hf.
    unfold ret, js_push; cbn [elems props].
    fold (label_of f). fold (add_label dirs (label_of f)).
    rewrite IH, add_reads_app. cbn [answers labels_after fmap list_fmap].
    by rewrite <- !app_assoc.
Qed.

Lemma forEach_load_fail pre bad post tensors e st w :
  Forall2 (loads E size) pre tensors ->
  file_tensor E bad size = inl e ->
  forEach (load_file E size) (pre ++ bad :: post) st w
  = (Throw (Some e), add_reads w (pre ++ [bad])).
Proof.
  intros Hall Hbad. revert st w.
  induction Hall as [|f t files tensors Hf _ IH]; intros [[XS YS] dirs] w.
  - cbn [app forEach]. unfold bind at 1. unfold load_file at 1.
    unfold bind at 1. by rewrite fileToTensor_spec, Hbad.
  - cbn [app forEach]. unfold bind at 1. unfold load_file at 1.
    unfold bind at 1. rewrite fileToTensor_spec, Hf.
    unfold ret. rewrite IH, add_reads_app. done.
Qed.

(** Either every file loads, or there is a first one that does not. *)
Lemma first_failure files :
  (exists tensors, Forall2 (loads E size) files tensors)
  \/ (exists pre bad post e tensors,
        files = pre ++ bad :: post /\ Forall2 (loads E size) pre tensors
        /\ file_tensor E bad size = inl e).
Proof.
  induction files as [|f files IH].
  - left. exists []. constructor.
  - destruct (file_tensor E f size) as [e|t] eqn:Hf.
    + right. exists [], f, files, e, []. repeat split; [constructor | done].
    + destruct IH as [[ts Hts] | (pre & bad & post & e & ts & -> & Hts & Hbad)].
      * left. exists (t :: ts). by constructor.
      * right. exists (f :: pre), bad, post, e, (t :: ts).
        repeat split; [by constructor | done].
Qed.

Lemma answers_length dirs files : length (answers dirs files) = length files.
Proof.
  revert dirs. induction files as [|f files IH]; intros dirs; simpl; [done|].
  by rewrite IH.
Qed.

End Loader.

(** ** shuffleCombo always returns *)

Section Folder.
Variable E : Env.

Lemma shuffle_loop_total {A B} counter (a : JsArray A) (b : JsArray B) w :
  exists a' b', shuffle_loop E counter a b w = (Normal (a', b'), advance w counter).
Proof.
  revert a b w. induction counter as [|c IH]; intros a b w.
  - exists a, b. simpl. unfold ret. by rewrite advance_0.
  - cbn [shuffle_loop]. unfold bind at 1. unfold Math_random at 1.
    match goal with
    | |- context [shuffle_loop E c ?a1 ?b1 ?w1] =>
        destruct (IH a1 b1 w1) as (a' & b' & ->)
    end.
    exists a', b'. f_equal. unfold advance; simpl. f_equal. lia.
Qed.

Lemma shuffleCombo_total {A B} (a : JsArray A) (b : JsArray B) w :
  exists a' b',
    shuffleCombo E a b w
    = (Normal (a', b'),
       advance (if Nat.eqb (arr_length a) (arr_length b) then w
                else add_console w [AssertionFailed]) (arr_length a)).
Proof.
  unfold shuffleCombo, bind, console_assert.
  match goal with
  | |- context [shuffle_loop E ?c a b ?w1] =>
      destruct (shuffle_loop_total c a b w1) as (a' & b' & ->)
  end.
  exists a', b'. by destruct (Nat.eqb _ _).
Qed.

(** ** After the shuffle: stacking and encoding *)

Lemma tf_stack_pure ts w : tf_stack ts w = (fst (tf_stack ts w), w).
Proof.
  unfold tf_stack. destruct (all_defined (elems ts)) as [[|t0 rest]|]; try done.
  by destruct (forallb _ rest).
Qed.

Lemma tf_oneHot_pure ys depth w : tf_oneHot ys depth w = (fst (tf_oneHot ys depth w), w).
Proof.
  unfold tf_oneHot. destruct (Nat.ltb depth 2); [done|].
  by destruct (all_defined (elems ys)).
Qed.

Lemma stack_and_encode_world XS YS dirs w :
  exists c evs,
    stack_and_encode XS YS dirs w = (c, add_console w evs)
    /\ Forall is_log evs /\ goes_on c.
Proof.
  unfold stack_and_encode, bind, console_log; simpl.
  fold (add_console w [ConsoleLog [PStr "Stacking"]]).
  rewrite tf_stack_pure.
  destruct (fst (tf_stack XS _)) as [X|e|code|] eqn:HX.
  - rewrite tf_oneHot_pure.
    destruct (fst (tf_oneHot YS _ _)) as [Y|e|code|] eqn:HY.
    + eexists _, _. split.
      * unfold ret. f_equal. unfold add_console; simpl.
        rewrite <- !app_assoc. reflexivity.
      * split; [|done]. repeat constructor; eexists; reflexivity.
    + eexists _, [_]. split; [reflexivity|].
      split; [|done]. repeat constructor; eexists; reflexivity.
    + exfalso. unfold tf_oneHot in HY. destruct (Nat.ltb _ 2); [done|].
      by destruct (all_defined (elems YS)).
    + exfalso. unfold tf_oneHot in HY. destruct (Nat.ltb _ 2); [done|].
      by destruct (all_defined (elems YS)).
  - eexists _, [_]. split; [reflexivity|].
    split; [|done]. repeat constructor; eexists; reflexivity.
  - exfalso. unfold tf_stack in HX.
    destruct (all_defined (elems XS)) as [[|t0 rest]|]; try done.
    by destruct (forallb _ rest).
  - exfalso. unfold tf_stack in HX.
    destruct (all_defined (elems XS)) as [[|t0 rest]|]; try done.
    by destruct (forallb _ rest).
Qed.

(** ** The [.then] handler, case by case *)

Variable size : list nat.

Lemma on_files_fail files pre bad post tensors e w :
  files = pre ++ bad :: post ->
  Forall2 (loads E size) pre tensors ->
  file_tensor E bad size = inl e ->
  on_files E size files w
  = (Throw (Some e), add_reads (add_console w (found_logs files)) (pre ++ [bad])).
Proof.
  intros -> Hpre Hbad. unfold on_files, bind at 1 2 3, console_log at 1 2.
  cbn [fst snd].
  unfold arr_of. cbn [fmap list_fmap].
  erewrite forEach_load_fail by done.
  f_equal. unfold add_reads, add_console, found_logs; simpl.
  by rewrite <- !app_assoc.
Qed.

Lemma on_files_loaded files tensors w :
  Forall2 (loads E size) files tensors ->
  on_files E size files w
  = (let* '(XS, YS) := shuffleCombo E (arr_of tensors) (arr_of (answers [] files)) in
     stack_and_encode XS YS (labels_after [] files))
      (add_reads (add_console w (found_logs files)) files).
Proof.
  intros Hall. unfold on_files, bind at 1 2 3, console_log at 1 2.
  cbn [fst snd]. unfold arr_of at 1 2. cbn [fmap list_fmap].
  erewrite forEach_load_ok by done. cbn [app].
  unfold add_reads, add_console, found_logs; simpl.
  rewrite <- !app_assoc. reflexivity.
Qed.

End Folder.

(** ** folderToTensors, case by case *)

Section Settle.
Variable E : Env.
Variable size : list nat.

Lemma folderToTensors_unfold dirPath w :
  folderToTensors E dirPath size w
  = match glob E (image_pattern dirPath) with
    | inl e =>
        (mkSettlement (Rejected None) (Some 1),
         add_console w [identifying; failure_logged (Some e)])
    | inr files =>
        match on_files E size files (add_console w [identifying]) with
        | (Normal result, w') => (mkSettlement (Fulfilled result) None, w')
        | (Throw error, w') =>
            (mkSettlement (Rejected None) (Some 1),
             add_console w' [failure_logged error])
        | (Exit code, w') => (mkSettlement Pending (Some code), w')
        | (Suspended, w') => (mkSettlement Pending None, w')
        end
    end.
Proof.
  unfold folderToTensors, bind at 1 2, console_log at 1. cbn [fst snd].
  fold (image_pattern dirPath). fold identifying. fold (add_console w [identifying]).
  destruct (glob E (image_pattern dirPath)) as [e|files]; simpl.
  - unfold add_console; simpl. rewrite <- app_assoc. reflexivity.
  - destruct (on_files E size files _) as [[r|error|code|] w']; reflexivity.
Qed.

(** What running the [.then] handler does to the world. *)
Lemma on_files_world files w :
  exists c evs rd k,
    on_files E size files w
    = (c, mkWorld (console w ++ evs) (random_calls w + k) (reads w ++ rd) (emitted w))
    /\ Forall is_log evs
    /\ rd `prefix_of` files
    /\ goes_on c.
Proof.
  destruct (first_failure E size files)
    as [[tensors Hall] | (pre & bad & post & e & tensors & Hfiles & Hpre & Hbad)].
  - rewrite (on_files_loaded E size files tensors) by done.
    unfold bind at 1.
    destruct (shuffleCombo_total E (arr_of tensors) (arr_of (answers [] files))
                (add_reads (add_console w (found_logs files)) files))
      as (XS & YS & ->).
    assert (arr_length (arr_of tensors) = arr_length (arr_of (answers [] files))) as Hlen.
    { unfold arr_length, arr_of; simpl. rewrite !length_fmap, answers_length.
      symmetry. by eapply Forall2_length. }
    rewrite Hlen, Nat.eqb_refl.
    match goal with
    | |- context [stack_and_encode XS YS ?d ?w1] =>
        destruct (stack_and_encode_world XS YS d w1) as (c & evs & -> & Hlogs & Hc)
    end.
    exists c, (found_logs files ++ evs), files, (arr_length (arr_of (answers [] files))).
    repeat split; try done.
    + unfold add_console, advance, add_reads; simpl. by rewrite <- app_assoc.
    + apply Forall_app. split; [|done].
      repeat constructor; eexists; reflexivity.
  - rewrite (on_files_fail E size files pre bad post tensors e) by done.
    exists (Throw (Some e)), (found_logs files), (pre ++ [bad]), 0%nat.
    repeat split; try done.
    + unfold add_console, add_reads; simpl. by rewrite Nat.add_0_r.
    + repeat constructor; eexists; reflexivity.
    + rewrite Hfiles. exists post. by rewrite <- app_assoc.
Qed.

Lemma folderToTensors_world dirPath w :
  exists evs rd k,
    snd (folderToTensors E dirPath size w)
    = mkWorld (console w ++ evs) (random_calls w + k) (reads w ++ rd) (emitted w)
    /\ AssertionFailed ∉ evs.
Proof.
  rewrite folderToTensors_unfold.
  destruct (glob E (image_pattern dirPath)) as [e|files].
  - exists [identifying; failure_logged (Some e)], [], 0%nat. split.
    + unfold add_console; simpl. by rewrite Nat.add_0_r, app_nil_r.
    + intros Hin. repeat (apply elem_of_cons in Hin as [Hin|Hin]; [done|]).
      by apply elem_of_nil in Hin.
  - destruct (on_files_world files (add_console w [identifying]))
      as (c & evs & rd & k & -> & Hlogs & _ & Hc).
    assert (AssertionFailed ∉ evs) as Hno.
    { intros Hin. rewrite Forall_forall in Hlogs.
      destruct (Hlogs _ Hin) as [args Hargs]. done. }
    destruct c as [r|error|code|]; simpl; [| |done|done].
    + exists (identifying :: evs), rd, k. split; [by rewrite <- app_assoc|].
      intros Hin. apply elem_of_cons in Hin as [Hin|Hin]; done.
    + exists (identifying :: evs ++ [failure_logged error]), rd, k. split.
      * unfold add_console; simpl. by rewrite <- !app_assoc.
      * intros Hin. apply elem_of_cons in Hin as [Hin|Hin]; [done|].
        apply elem_of_app in Hin as [Hin|Hin]; [done|].
        apply elem_of_cons in Hin as [Hin|Hin]; [done|].
        by apply elem_of_nil in Hin.
Qed.

(** The promise is either fulfilled, or rejected without a value while the
    process is ended with code 1. *)
Lemma folderToTensors_settles dirPath w :
  (exists result, fst (folderToTensors E dirPath size w)
                  = mkSettlement (Fulfilled result) None)
  \/ fst (folderToTensors E dirPath size w) = mkSettlement (Rejected None) (Some 1).
Proof.
  rewrite folderToTensors_unfold.
  destruct (glob E (image_pattern dirPath)) as [e|files]; [by right|].
  destruct (on_files_world files (add_console w [identifying]))
    as (c & evs & rd & k & -> & _ & _ & Hc).
  destruct c as [r|error|code|]; simpl; [left; by eexists | by right | done | done].
Qed.

End Settle.

(** ** Failures inside folderToTensors *)

Section Failure.
Variable E : Env.
Variable size : list nat.

Lemma folderToTensors_enum_fail dirPath w e :
  glob E (image_pattern dirPath) = inl e ->
  folderToTensors E dirPath size w
  = (mkSettlement (Rejected None) (Some 1),
     add_console w [identifying; failure_logged (Some e)]).
Proof. intros Hglob. by rewrite folderToTensors_unfold, Hglob. Qed.

Lemma folderToTensors_load_fail dirPath w pre bad post tensors e :
  glob E (image_pattern dirPath) = inr (pre ++ bad :: post) ->
  Forall2 (loads E size) pre tensors ->
  file_tensor E bad size = inl e ->
  folderToTensors E dirPath size w
  = (mkSettlement (Rejected None) (Some 1),
     mkWorld (console w ++ identifying :: found_logs (pre ++ bad :: post)
                ++ [failure_logged (Some e)])
             (random_calls w) (reads w ++ pre ++ [bad]) (emitted w)).
Proof.
  intros Hglob Hpre Hbad. rewrite folderToTensors_unfold, Hglob.
  erewrite on_files_fail by done.
  unfold add_console, add_reads; simpl. by rewrite <- !app_assoc.
Qed.

End Failure.

(** ** C8: the length assertion cannot fail *)

(** The assertion is a real check: on arrays of different length it prints. *)
Lemma console_assert_fires :
  console (snd (shuffleCombo sample_env (arr_of [1]) (arr_of ([] : list Z)) initial_world))
  = [AssertionFailed].
Proof. reflexivity. Qed.

(** C8.  Whatever the folder holds, the loop over the files leaves the image
    array and the label array with one slot per file each, so that the
    assertion of shuffleCombo holds when folderToTensors calls it: no run of
    folderToTensors prints an assertion failure. *)
Theorem shuffle_assertion_unreachable (E : Env) (dirPath : string) (size : list nat)
  (files : list string) (w : World) :
  match forEach (load_file E size) files (arr_of [], arr_of [], []) w with
  | (Normal (XS, YS, _), _) =>
      arr_length XS = length files /\ arr_length YS = length files
  | _ => True
  end
  /\ exists evs,
       console (snd (folderToTensors E dirPath size w)) = console w ++ evs
       /\ AssertionFailed ∉ evs.
Proof.
  split.
  - destruct (first_failure E size files)
      as [[tensors Hall] | (pre & bad & post & e & tensors & -> & Hpre & Hbad)].
    + unfold arr_of; simpl. erewrite forEach_load_ok by done.
      unfold arr_length; simpl. rewrite !length_fmap, answers_length.
      split; [|done]. symmetry. by eapply Forall2_length.
    + by erewrite forEach_load_fail.
  - destruct (folderToTensors_world E size dirPath w) as (evs & rd & k & -> & Hno).
    by exists evs.
Qed.

(** ** C2: how a failure reaches the caller *)

(** C2 does not hold as it is stated: neither for a folder that cannot be
    listed nor for a folder with a corrupt file is the promise rejected
    with an error value while the process lives on. *)
Lemma failure_not_propagated :
  ~ propagates_error
      (fst (folderToTensors unreadable_env "root" [224; 224]%nat initial_world))
  /\ ~ propagates_error
      (fst (folderToTensors corrupt_env "root" [224; 224]%nat initial_world)).
Proof.
  split; intros [[e He] Hexit]; vm_compute in Hexit; discriminate.
Qed.

(** C2, as the code has it.  When the enumeration fails, or a file fails to
    load after the files before it have loaded, folderToTensors prints the
    error on the console, rejects its promise without a value, and ends the
    process with code 1; the caller awaiting the promise does not resume. *)
Theorem failure_ends_process (E : Env) (dirPath : string) (size : list nat)
  (w : World) (e : JsError) :
  (glob E (image_pattern dirPath) = inl e
   \/ exists pre bad post tensors,
        glob E (image_pattern dirPath) = inr (pre ++ bad :: post)
        /\ Forall2 (loads E size) pre tensors
        /\ file_tensor E bad size = inl e) ->
  promise (fst (folderToTensors E dirPath size w)) = Rejected None
  /\ exit_code (fst (folderToTensors E dirPath size w)) = Some 1
  /\ last (console (snd (folderToTensors E dirPath size w)))
     = Some (failure_logged (Some e))
  /\ fst (await (folderToTensors E dirPath size) w) = Exit 1.
Proof.
  intros [Hglob | (pre & bad & post & tensors & Hglob & Hpre & Hbad)].
  - unfold await. rewrite (folderToTensors_enum_fail E size dirPath w e Hglob).
    cbn [fst snd promise exit_code console add_console].
    repeat split; try done.
    by rewrite last_app.
  - unfold await.
    rewrite (folderToTensors_load_fail E size dirPath w pre bad post tensors e) by done.
    cbn [fst snd promise exit_code console].
    repeat split; try done.
    rewrite last_app, last_cons, last_app. done.
Qed.

(** The sample folder with its corrupt second file. *)
Lemma failure_ends_process_witness :
  promise (fst (folderToTensors corrupt_env "root" [224; 224]%nat initial_world))
    = Rejected None
  /\ exit_code (fst (folderToTensors corrupt_env "root" [224; 224]%nat initial_world))
    = Some 1
  /\ last (console (snd (folderToTensors corrupt_env "root" [224; 224]%nat initial_world)))
     = Some (failure_logged
               (Some (mkError "Error" "Expected image (BMP, JPEG, PNG, or GIF)")))
  /\ fst (await (folderToTensors corrupt_env "root" [224; 224]%nat) initial_world)
     = Exit 1.
Proof.
  apply (failure_ends_process corrupt_env "root" [224; 224]%nat initial_world).
  right. exists ["root/cat/1.png"%string], "root/dog/2.png"%string,
    ["root/cat/3.png"%string], [tf_div white_image 255].
  split; [reflexivity|]. split; [|reflexivity].
  repeat constructor.
Defined.

(** ** C9: one bad file stops the whole run *)

Lemma failing_file_first (E : Env) (size : list nat) (files : list string) f e0 :
  f ∈ files -> file_tensor E f size = inl e0 ->
  exists pre bad post e tensors,
    files = pre ++ bad :: post /\ Forall2 (loads E size) pre tensors
    /\ file_tensor E bad size = inl e.
Proof.
  intros Hin Hf.
  destruct (first_failure E size files) as [[tensors Hall] | H]; [|done].
  exfalso. apply list_elem_of_lookup in Hin as [i Hi].
  destruct (Forall2_lookup_l _ _ _ _ _ Hall Hi) as (t & _ & Ht).
  unfold loads in Ht. congruence.
Qed.

(** C9.  If some enumerated file fails to load, then there is a first such
    file; nothing after it is read, the promise of folderToTensors is not
    fulfilled (no dataset, not even a partial one), and learnTransferModel
    ends there: the process exits with code 1 before any model is loaded or
    trained. *)
Theorem decode_failure_aborts (E : Env) (folderPath : string) (socket : option Socket)
  (files : list string) (f : string) (e0 : JsError) (w : World) :
  glob E (image_pattern folderPath) = inr files ->
  f ∈ files ->
  file_tensor E f [224; 224]%nat = inl e0 ->
  exists pre bad post e w',
    files = pre ++ bad :: post
    /\ (forall g, g ∈ pre -> exists t, file_tensor E g [224; 224]%nat = inr t)
    /\ file_tensor E bad [224; 224]%nat = inl e
    /\ fst (folderToTensors E folderPath [224; 224]%nat w)
       = mkSettlement (Rejected None) (Some 1)
    /\ reads (snd (folderToTensors E folderPath [224; 224]%nat w))
       = reads w ++ pre ++ [bad]
    /\ learnTransferModel E folderPath socket w = (Exit 1, w')
    /\ reads w' = reads w ++ pre ++ [bad]
    /\ emitted w' = emitted w ++ loading_images_event socket.
Proof.
  intros Hglob Hin Hf.
  destruct (failing_file_first E _ files f e0 Hin Hf)
    as (pre & bad & post & e & tensors & -> & Hpre & Hbad).
  exists pre, bad, post, e.
  pose proof (fun w0 => folderToTensors_load_fail E [224; 224]%nat folderPath w0
                          pre bad post tensors e Hglob Hpre Hbad) as Hfail.
  assert (forall g, g ∈ pre -> exists t, file_tensor E g [224; 224]%nat = inr t) as Hok.
  { intros g Hg. apply list_elem_of_lookup in Hg as [i Hi].
    destruct (Forall2_lookup_l _ _ _ _ _ Hpre Hi) as (t & _ & Ht). by exists t. }
  unfold learnTransferModel, bind at 1 2 3, console_log at 1. cbn [fst snd].
  rewrite Hfail. cbn [fst snd reads].
  destruct socket as [s|]; cbn [emit_if]; unfold socket_emit, ret, await;
    rewrite Hfail; cbn [fst snd reads emitted console random_calls loading_images_event];
    eexists; repeat (split; [done|]); try done.
  by rewrite app_nil_r.
Qed.

(** The sample folder with its corrupt second file: the third file is
    never read. *)
Lemma decode_failure_aborts_witness :
  exists pre bad post e w',
    sample_files = pre ++ bad :: post
    /\ (forall g, g ∈ pre -> exists t, file_tensor corrupt_env g [224; 224]%nat = inr t)
    /\ file_tensor corrupt_env bad [224; 224]%nat = inl e
    /\ fst (folderToTensors corrupt_env "root" [224; 224]%nat initial_world)
       = mkSettlement (Rejected None) (Some 1)
    /\ reads (snd (folderToTensors corrupt_env "root" [224; 224]%nat initial_world))
       = reads initial_world ++ pre ++ [bad]
    /\ learnTransferModel corrupt_env "root" (Some (mkSocket "observer")) initial_world
       = (Exit 1, w')
    /\ reads w' = reads initial_world ++ pre ++ [bad]
    /\ emitted w' = emitted initial_world
                    ++ loading_images_event (Some (mkSocket "observer")).
Proof.
  apply (decode_failure_aborts corrupt_env "root" (Some (mkSocket "observer"))
           sample_files "root/dog/2.png"
           (mkError "Error" "Expected image (BMP, JPEG, PNG, or GIF)")
           initial_world).
  - reflexivity.
  - unfold sample_files. apply elem_of_cons. right. apply elem_of_cons. by left.
  - reflexivity.
Defined.

(** ** Label names and label indices *)

Lemma includes_elem_of dirs dir : includes dirs dir = true <-> dir ∈ dirs.
Proof.
  unfold includes. rewrite existsb_exists. split.
  - intros (d & Hin & Heq). apply String.eqb_eq in Heq. subst d.
    by apply list_elem_of_In.
  - intros Hin. exists dir. split; [by apply list_elem_of_In | apply String.eqb_refl].
Qed.

Lemma add_label_spec dirs dir :
  add_label dirs dir = if decide (dir ∈ dirs) then dirs else dirs ++ [dir].
Proof.
  unfold add_label. destruct (includes dirs dir) eqn:Hinc; simpl.
  - apply includes_elem_of in Hinc. by rewrite decide_True.
  - rewrite decide_False; [done|]. intros Hin.
    apply includes_elem_of in Hin. congruence.
Qed.

Lemma add_label_elem_of dirs dir : dir ∈ add_label dirs dir.
Proof.
  rewrite add_label_spec. destruct (decide (dir ∈ dirs)); [done|].
  apply elem_of_app. right. by apply list_elem_of_singleton.
Qed.

Lemma add_label_NoDup dirs dir : NoDup dirs -> NoDup (add_label dirs dir).
Proof.
  intros Hnd. rewrite add_label_spec. destruct (decide (dir ∈ dirs)); [done|].
  apply NoDup_app. repeat split; [done | | apply NoDup_singleton].
  intros x Hx Hx'. apply list_elem_of_singleton in Hx'. by subst.
Qed.

Lemma indexOf_from_shift dirs dir i :
  dir ∈ dirs -> indexOf_from dirs dir i = i + indexOf_from dirs dir 0.
Proof.
  revert i. induction dirs as [|d dirs IH]; intros i Hin.
  - by apply elem_of_nil in Hin.
  - simpl. destruct (String.eqb_spec d dir) as [->|Hne]; [lia|].
    apply elem_of_cons in Hin as [->|Hin]; [done|].
    rewrite (IH (i + 1)), (IH (0 + 1)) by done. lia.
Qed.

Lemma indexOf_from_app dirs ext dir i :
  dir ∈ dirs -> indexOf_from (dirs ++ ext) dir i = indexOf_from dirs dir i.
Proof.
  revert i. induction dirs as [|d dirs IH]; intros i Hin.
  - by apply elem_of_nil in Hin.
  - simpl. destruct (String.eqb_spec d dir) as [->|Hne]; [done|].
    apply elem_of_cons in Hin as [->|Hin]; [done|]. by apply IH.
Qed.

Lemma indexOf_lookup dirs dir k :
  NoDup dirs -> dirs !! k = Some dir -> indexOf dirs dir = Z.of_nat k.
Proof.
  unfold indexOf. revert k. induction dirs as [|d dirs IH]; intros k Hnd Hk; [done|].
  apply NoDup_cons in Hnd as [Hnotin Hnd]. simpl.
  destruct k as [|k]; simpl in Hk.
  - injection Hk as ->. by rewrite String.eqb_refl.
  - destruct (String.eqb_spec d dir) as [->|Hne].
    + exfalso. apply Hnotin. by eapply list_elem_of_lookup_2.
    + rewrite indexOf_from_shift by (by eapply list_elem_of_lookup_2).
      rewrite (IH k) by done. lia.
Qed.

Lemma indexOf_range dirs dir :
  dir ∈ dirs -> 0 <= indexOf dirs dir < Z.of_nat (length dirs).
Proof.
  unfold indexOf. induction dirs as [|d dirs IH]; intros Hin.
  - by apply elem_of_nil in Hin.
  - simpl. destruct (String.eqb_spec d dir) as [->|Hne]; [lia|].
    apply elem_of_cons in Hin as [->|Hin]; [done|].
    rewrite indexOf_from_shift by done. specialize (IH Hin). lia.
Qed.

Lemma labels_after_snoc dirs files f :
  labels_after dirs (files ++ [f]) = add_label (labels_after dirs files) (label_of f).
Proof.
  revert dirs. induction files as [|g files IH]; intros dirs; simpl; [done|].
  by rewrite IH.
Qed.

Lemma labels_after_app dirs files1 files2 :
  labels_after dirs (files1 ++ files2) = labels_after (labels_after dirs files1) files2.
Proof.
  revert dirs. induction files1 as [|g files1 IH]; intros dirs; simpl; [done|].
  by rewrite IH.
Qed.

Lemma labels_after_extends dirs files :
  exists ext, labels_after dirs files = dirs ++ ext.
Proof.
  revert dirs. induction files as [|f files IH]; intros dirs; simpl.
  - exists []. by rewrite app_nil_r.
  - destruct (IH (add_label dirs (label_of f))) as [ext ->].
    rewrite add_label_spec. destruct (decide (label_of f ∈ dirs)).
    + by exists ext.
    + exists ([label_of f] ++ ext). by rewrite app_assoc.
Qed.

Lemma labels_after_NoDup dirs files : NoDup dirs -> NoDup (labels_after dirs files).
Proof.
  revert dirs. induction files as [|f files IH]; intros dirs Hnd; simpl; [done|].
  apply IH. by apply add_label_NoDup.
Qed.

Lemma labels_after_elem_of dirs files name :
  name ∈ labels_after dirs files <-> name ∈ dirs \/ name ∈ (label_of <$> files).
Proof.
  revert dirs. induction files as [|f files IH]; intros dirs; simpl.
  - split; [by left | intros [H|H]; [done | by apply elem_of_nil in H]].
  - rewrite IH, add_label_spec, elem_of_cons.
    destruct (decide (label_of f ∈ dirs)) as [Hin|Hnotin].
    + split; [intros [H|H]; auto | intros [H|[->|H]]; auto].
    + rewrite elem_of_app, list_elem_of_singleton.
      split; [intros [[H|H]|H]; auto | intros [H|[H|H]]; auto].
Qed.

Lemma answers_lookup dirs files i file :
  files !! i = Some file ->
  answers dirs files !! i = Some (indexOf (labels_after dirs files) (label_of file)).
Proof.
  revert dirs i. induction files as [|f files IH]; intros dirs i Hi; [done|].
  destruct i as [|i]; simpl in *.
  - injection Hi as ->. f_equal.
    destruct (labels_after_extends (add_label dirs (label_of file)) files) as [ext ->].
    unfold indexOf. symmetry. apply indexOf_from_app, add_label_elem_of.
  - by apply IH.
Qed.

(** The number of distinct names in a list is the length of the label list
    built from it. *)
Lemma labels_after_count files :
  length (labels_after [] files) = length (remove_dups (label_of <$> files)).
Proof.
  apply Permutation_length, NoDup_Permutation.
  - apply labels_after_NoDup, NoDup_nil_2.
  - apply NoDup_remove_dups.
  - intros name. rewrite labels_after_elem_of, elem_of_remove_dups.
    split; [intros [H|H]; [by apply elem_of_nil in H | done] | by right].
Qed.

(** A label sits at index [k] exactly when [k] distinct names were seen
    before its first appearance. *)
Lemma labels_after_first_seen files name k :
  labels_after [] files !! k = Some name
  <-> exists p, (label_of <$> files) !! p = Some name
             /\ (name ∉ take p (label_of <$> files))
             /\ k = length (remove_dups (take p (label_of <$> files))).
Proof.
  split.
  - revert k. induction files as [|f files IH] using rev_ind; intros k Hk; [done|].
    rewrite labels_after_snoc, add_label_spec in Hk.
    rewrite fmap_app. cbn [fmap list_fmap].
    assert (forall p, (label_of <$> files) !! p = Some name ->
              ((label_of <$> files) ++ [label_of f]) !! p = Some name
              /\ take p ((label_of <$> files) ++ [label_of f])
                 = take p (label_of <$> files)) as Hkeep.
    { intros p Hp. pose proof (lookup_lt_Some _ _ _ Hp).
      split; [by apply lookup_app_l_Some | by rewrite take_app_le by lia]. }
    destruct (decide (label_of f ∈ labels_after [] files)) as [Hin|Hnotin].
    + destruct (IH k Hk) as (p & Hp & Hfresh & ->).
      exists p. destruct (Hkeep p Hp) as [-> ->]. done.
    + destruct (decide (k < length (labels_after [] files))%nat) as [Hlt|Hge].
      * rewrite lookup_app_l in Hk by done.
        destruct (IH k Hk) as (p & Hp & Hfresh & ->).
        exists p. destruct (Hkeep p Hp) as [-> ->]. done.
      * rewrite lookup_app_r in Hk by lia.
        destruct (k - length (labels_after [] files))%nat as [|?] eqn:Hdiff;
          [|done]. injection Hk as <-.
        exists (length (label_of <$> files)).
        rewrite list_lookup_middle by done.
        rewrite take_app_length. repeat split.
        -- intros Hin. apply Hnotin, labels_after_elem_of. by right.
        -- rewrite <- labels_after_count. lia.
  - intros (p & Hp & Hfresh & ->).
    rewrite list_lookup_fmap in Hp.
    destruct (files !! p) as [f|] eqn:Hf; [|done]. injection Hp as <-.
    assert (labels_after [] files
            = labels_after [] (take p files ++ f :: drop (S p) files)) as ->
      by (by rewrite take_drop_middle).
    rewrite labels_after_app. cbn [labels_after].
    destruct (labels_after_extends
                (add_label (labels_after [] (take p files)) (label_of f))
                (drop (S p) files)) as [ext ->].
    rewrite <- fmap_take, <- labels_after_count.
    rewrite add_label_spec, decide_False.
    + rewrite <- app_assoc. cbn [app]. by rewrite list_lookup_middle.
    + intros Hin. apply labels_after_elem_of in Hin as [Hin|Hin].
      * by apply elem_of_nil in Hin.
      * apply Hfresh. by rewrite <- fmap_take.
Qed.

Lemma forEach_load_inv (E : Env) (size : list nat) (files : list string)
  (XS : JsArray Tensor) (YS : JsArray Z) (dirs : list string) (w w' : World) :
  forEach (load_file E size) files (arr_of [], arr_of [], []) w
    = (Normal (XS, YS, dirs), w') ->
  exists tensors,
    Forall2 (loads E size) files tensors
    /\ XS = arr_of tensors
    /\ YS = arr_of (answers [] files)
    /\ dirs = labels_after [] files
    /\ w' = add_reads w files.
Proof.
  intros Hrun.
  destruct (first_failure E size files)
    as [[tensors Hall] | (pre & bad & post & e & tensors & -> & Hpre & Hbad)].
  - exists tensors. unfold arr_of in Hrun; simpl in Hrun.
    rewrite (forEach_load_ok E size files tensors) in Hrun by done.
    by injection Hrun as <- <- <- <-.
  - by rewrite (forEach_load_fail E size pre bad post tensors e) in Hrun.
Qed.

(** ** C6: label indices follow the order of first appearance *)

(** C6.  After the loop over the enumerated files, the label list holds
    each label name once, in the order in which the names first appear in
    the enumeration: a name sits at index k exactly when k distinct names
    were seen before its first appearance.  Every file is given the index
    of its label name in that list.  For the files catA/1.png, catB/2.png,
    catA/3.png, in this order, catA gets index 0 and catB index 1. *)
Theorem label_indices_first_seen (E : Env) (size : list nat) (files : list string)
  (XS : JsArray Tensor) (YS : JsArray Z) (dirs : list string) (w w' : World) :
  forEach (load_file E size) files (arr_of [], arr_of [], []) w
    = (Normal (XS, YS, dirs), w') ->
  NoDup dirs
  /\ (forall name, name ∈ dirs <-> name ∈ (label_of <$> files))
  /\ (forall name k,
        dirs !! k = Some name
        <-> exists p, (label_of <$> files) !! p = Some name
                   /\ (name ∉ take p (label_of <$> files))
                   /\ k = length (remove_dups (take p (label_of <$> files))))
  /\ (forall name k, dirs !! k = Some name -> indexOf dirs name = Z.of_nat k)
  /\ (forall i file, files !! i = Some file ->
        elems YS !! i = Some (Some (indexOf dirs (label_of file))))
  /\ (files = ["catA/1.png"; "catB/2.png"; "catA/3.png"]%string ->
        dirs = ["catA"; "catB"]%string
        /\ indexOf dirs "catA" = 0 /\ indexOf dirs "catB" = 1
        /\ elems YS = [Some 0; Some 1; Some 0]).
Proof.
  intros Hrun.
  destruct (forEach_load_inv E size files XS YS dirs w w' Hrun)
    as (tensors & Hall & -> & -> & -> & ->).
  assert (NoDup (labels_after [] files)) as Hnd
    by apply labels_after_NoDup, NoDup_nil_2.
  split; [done|]. split.
  { intros name. rewrite labels_after_elem_of.
    split; [intros [H|H]; [by apply elem_of_nil in H | done] | by right]. }
  split; [apply labels_after_first_seen|].
  split; [intros name k; by apply indexOf_lookup|].
  split.
  - intros i file Hi. unfold arr_of; simpl.
    by rewrite list_lookup_fmap, (answers_lookup [] files i file Hi).
  - intros ->. by vm_compute.
Qed.

(** The three files of the example, loaded in the sample environment. *)
Lemma label_indices_first_seen_witness :
  exists XS YS dirs w',
    forEach (load_file sample_env [224; 224]%nat)
      ["catA/1.png"; "catB/2.png"; "catA/3.png"]%string
      (arr_of [], arr_of [], []) initial_world
    = (Normal (XS, YS, dirs), w')
    /\ dirs = ["catA"; "catB"]%string
    /\ indexOf dirs "catA" = 0 /\ indexOf dirs "catB" = 1
    /\ elems YS = [Some 0; Some 1; Some 0].
Proof.
  eexists _, _, _, _. split; [reflexivity|].
  destruct (label_indices_first_seen sample_env [224; 224]%nat
              ["catA/1.png"; "catB/2.png"; "catA/3.png"]%string
              _ _ _ initial_world _ eq_refl) as (_ & _ & _ & _ & _ & Hex).
  exact (Hex eq_refl).
Defined.

(** ** The dataset of a fulfilled load *)

Lemma all_defined_Some {A} (l : list A) : all_defined (Some <$> l) = Some l.
Proof. induction l as [|x l IH]; csimpl; [done|]. by rewrite IH. Qed.

Lemma list_swap_Forall2 {X Y} (R : X -> Y -> Prop) l1 l2 i j :
  Forall2 R l1 l2 -> Forall2 R (list_swap l1 i j) (list_swap l2 i j).
Proof.
  intros Hall. unfold list_swap.
  destruct (l1 !! i) as [x1|] eqn:H1i.
  - destruct (Forall2_lookup_l _ _ _ _ _ Hall H1i) as (x2 & -> & Hx).
    destruct (l1 !! j) as [y1|] eqn:H1j.
    + destruct (Forall2_lookup_l _ _ _ _ _ Hall H1j) as (y2 & -> & Hy).
      by repeat apply Forall2_insert.
    + assert (l2 !! j = None) as ->; [|done].
      apply lookup_ge_None. rewrite <- (Forall2_length _ _ _ Hall).
      by apply lookup_ge_None.
  - assert (l2 !! i = None) as ->; [|done].
    apply lookup_ge_None. rewrite <- (Forall2_length _ _ _ Hall).
    by apply lookup_ge_None.
Qed.

Lemma shuffled_Forall2 {X Y} (R : X -> Y -> Prop) E counter k l1 l2 :
  Forall2 R l1 l2 -> Forall2 R (shuffled E counter k l1) (shuffled E counter k l2).
Proof.
  revert k l1 l2. induction counter as [|c IH]; intros k l1 l2 Hall; simpl; [done|].
  by apply IH, list_swap_Forall2.
Qed.

Lemma answers_fmap files :
  answers [] files
  = (fun f => indexOf (labels_after [] files) (label_of f)) <$> files.
Proof.
  apply list_eq. intros i. rewrite list_lookup_fmap.
  destruct (files !! i) as [f|] eqn:Hf; simpl.
  - by apply answers_lookup.
  - apply lookup_ge_None. rewrite answers_length. by apply lookup_ge_None.
Qed.

Section Fulfilled.
Variable E : Env.
Variable size : list nat.

Lemma stack_and_encode_inv (ts : list Tensor) (ys : list Z) dirs w XNORM Y dirs' w' :
  stack_and_encode (arr_of ts) (arr_of ys) dirs w = (Normal (XNORM, Y, dirs'), w') ->
  exists t0 rest,
    ts = t0 :: rest
    /\ XNORM = tf_div (mkTensor (length ts :: shape t0) (concat (values <$> ts))) 255
    /\ Y = mkTensor [length ys; length dirs] (concat (oneHot_row (length dirs) <$> ys))
    /\ (2 <= length dirs)%nat
    /\ dirs' = dirs.
Proof.
  unfold stack_and_encode, bind, console_log, tf_stack, tf_oneHot, arr_of; simpl.
  rewrite !all_defined_Some.
  destruct ts as [|t0 rest]; [done|].
  destruct (forallb _ rest); [|done]. unfold ret.
  destruct (Nat.ltb (length dirs) 2) eqn:Hdepth; [done|].
  intros [= <- <- <- _]. exists t0, rest.
  apply Nat.ltb_ge in Hdepth. done.
Qed.

Lemma folderToTensors_fulfilled_inv dirPath files w XNORM Y dirs w' :
  random_in_unit E ->
  glob E (image_pattern dirPath) = inr files ->
  Z.of_nat (length files) <= 2 ^ 31 ->
  folderToTensors E dirPath size w
    = (mkSettlement (Fulfilled (XNORM, Y, dirs)) None, w') ->
  exists order tensors t0 rest,
    order = shuffled E (length files) (random_calls w) files
    /\ Forall2 (loads E size) order tensors
    /\ tensors = t0 :: rest
    /\ dirs = labels_after [] files
    /\ XNORM = tf_div (mkTensor (length files :: shape t0)
                                (concat (values <$> tensors))) 255
    /\ Y = mkTensor [length files; length dirs]
             (concat (oneHot_row (length dirs)
                        <$> ((fun f => indexOf dirs (label_of f)) <$> order)))
    /\ (2 <= length dirs)%nat.
Proof.
  intros Hrand Hglob Hmax. rewrite folderToTensors_unfold, Hglob.
  destruct (first_failure E size files)
    as [[tensors Hall] | (pre & bad & post & e & tensors & Hfiles & Hpre & Hbad)].
  - rewrite (on_files_loaded E size files tensors) by done.
    pose proof (Forall2_length _ _ _ Hall) as Hlen.
    unfold bind at 1.
    rewrite shuffleCombo_pure;
      [| done | by rewrite answers_length | by rewrite <- Hlen].
    cbn [random_calls add_reads add_console].
    rewrite <- Hlen.
    destruct (stack_and_encode _ _ _ _) as [[[[X1 Y1] d1]|err|code|] w1] eqn:Hrun;
      [|done|done|done].
    intros [= -> -> -> ->].
    apply stack_and_encode_inv in Hrun as (t0 & rest & Hts & -> & -> & Hdepth & ->).
    exists (shuffled E (length files) (random_calls w) files),
           (shuffled E (length files) (random_calls w) tensors), t0, rest.
    rewrite !shuffled_length in *. rewrite answers_length, <- Hlen.
    repeat split; try done.
    + by apply shuffled_Forall2.
    + by rewrite answers_fmap, shuffled_fmap.
  - rewrite (on_files_fail E size files pre bad post tensors e) by done. done.
Qed.

End Fulfilled.

(** ** One-hot rows *)

Lemma oneHot_row_length depth y : length (oneHot_row depth y) = depth.
Proof. unfold oneHot_row. by rewrite length_map, length_seq. Qed.

Lemma oneHot_row_lookup depth y c :
  (c < depth)%nat ->
  oneHot_row depth y !! c = Some (if Z.eqb (Z.of_nat c) y then 1%Q else 0%Q).
Proof.
  intros Hc. unfold oneHot_row.
  change (map ?f ?l) with (f <$> l).
  rewrite list_lookup_fmap, lookup_seq_lt by done. done.
Qed.

Lemma Qsum_indicator (y : Z) (start len : nat) :
  (Qsum (map (fun c => if Z.eqb (Z.of_nat c) y then 1%Q else 0%Q) (seq start len))
   == if decide (Z.of_nat start <= y < Z.of_nat (start + len))%Z then 1 else 0)%Q.
Proof.
  revert start. induction len as [|len IH]; intros start.
  - simpl. rewrite decide_False by lia. reflexivity.
  - cbn [seq map Qsum foldr]. fold (Qsum (map (fun c => if Z.eqb (Z.of_nat c) y
                                                         then 1%Q else 0%Q)
                                              (seq (S start) len))).
    rewrite IH.
    destruct (Z.eqb_spec (Z.of_nat start) y) as [Heq|Hne].
    + rewrite decide_False by lia. rewrite decide_True by lia. reflexivity.
    + destruct (decide (Z.of_nat (S start) <= y < Z.of_nat (S start + len))).
      * rewrite decide_True by lia. reflexivity.
      * rewrite decide_False by lia. reflexivity.
Qed.

Lemma oneHot_row_sum depth y :
  0 <= y < Z.of_nat depth -> (Qsum (oneHot_row depth y) == 1)%Q.
Proof.
  intros Hy. unfold oneHot_row. rewrite Qsum_indicator.
  rewrite decide_True by lia. reflexivity.
Qed.

Lemma concat_row {X} (rows : list (list X)) (width i : nat) (r : list X) :
  Forall (fun r => length r = width) rows ->
  rows !! i = Some r ->
  take width (drop (i * width) (concat rows)) = r.
Proof.
  intros Hall. revert i. induction Hall as [|r0 rows Hr0 _ IH]; intros i Hi; [done|].
  destruct i as [|i]; cbn [concat]; simpl in Hi.
  - injection Hi as ->. rewrite Nat.mul_0_l, drop_0.
    rewrite take_app_le by lia. by rewrite take_ge by lia.
  - rewrite drop_app_ge by lia.
    replace (S i * width - length r0)%nat with (i * width)%nat by lia.
    by apply IH.
Qed.

(** ** C7: the one-hot label array *)

Lemma values_div_concat (tensors : list Tensor) (d : Q) :
  map (fun v => (v / d)%Q) (concat (values <$> tensors))
  = concat ((fun t => values (tf_div t d)) <$> tensors).
Proof.
  induction tensors as [|t tensors IH]; csimpl; [done|].
  by rewrite map_app, IH.
Qed.

(** C7.  When folderToTensors fulfils its promise for N files with
    numClasses distinct label names, the label array has shape
    [N, numClasses].  The rows follow the shuffled order of the files; the
    row of a file sums to 1 and holds its 1 in the column that is the label
    index of that file, and the image data at the same position is the
    tensor of that file. *)
Theorem one_hot_rows (E : Env) (dirPath : string) (size : list nat)
  (files : list string) (w w' : World) (XNORM Y : Tensor) (dirs : list string) :
  random_in_unit E ->
  glob E (image_pattern dirPath) = inr files ->
  Z.of_nat (length files) <= 2 ^ 31 ->
  folderToTensors E dirPath size w
    = (mkSettlement (Fulfilled (XNORM, Y, dirs)) None, w') ->
  shape Y = [length files; length dirs]
  /\ length dirs = length (remove_dups (label_of <$> files))
  /\ exists order tensors,
       order ≡ₚ files
       /\ Forall2 (loads E size) order tensors
       /\ values XNORM = concat ((fun t => values (tf_div t 255)) <$> tensors)
       /\ forall i file, order !! i = Some file ->
            0 <= indexOf dirs (label_of file) < Z.of_nat (length dirs)
            /\ (Qsum (row Y i) == 1)%Q
            /\ forall c, (c < length dirs)%nat ->
                 row Y i !! c
                 = Some (if Z.eqb (Z.of_nat c) (indexOf dirs (label_of file))
                         then 1%Q else 0%Q).
Proof.
  intros Hrand Hglob Hmax Hrun.
  destruct (folderToTensors_fulfilled_inv E size dirPath files w XNORM Y dirs w'
              Hrand Hglob Hmax Hrun)
    as (order & tensors & t0 & rest & Horder & Hall & Hts & Hdirs & -> & -> & Hdepth).
  split; [done|].
  split; [rewrite Hdirs; apply labels_after_count|].
  exists order, tensors.
  assert (order ≡ₚ files) as Hperm by (subst order; apply shuffled_perm).
  split; [done|]. split; [done|]. split.
  { apply values_div_concat. }
  intros i file Hi.
  assert (0 <= indexOf dirs (label_of file) < Z.of_nat (length dirs)) as Hrange.
  { apply indexOf_range. rewrite Hdirs. apply labels_after_elem_of. right.
    apply list_elem_of_fmap. exists file. split; [done|].
    rewrite <- Hperm. by eapply list_elem_of_lookup_2. }
  assert (row (mkTensor [length files; length dirs]
                 (concat (oneHot_row (length dirs)
                            <$> ((fun f => indexOf dirs (label_of f)) <$> order)))) i
          = oneHot_row (length dirs) (indexOf dirs (label_of file))) as ->.
  { unfold row; simpl. apply concat_row.
    - apply Forall_fmap, Forall_forall. intros y _. apply oneHot_row_length.
    - by rewrite !list_lookup_fmap, Hi. }
  split; [done|]. split; [by apply oneHot_row_sum|].
  intros c Hc. by apply oneHot_row_lookup.
Qed.

(** The sample folder: three files, two label names. *)
Lemma one_hot_rows_witness :
  exists XNORM Y dirs w',
    folderToTensors sample_env "root" [224; 224]%nat initial_world
      = (mkSettlement (Fulfilled (XNORM, Y, dirs)) None, w')
    /\ shape Y = [length sample_files; length dirs]
    /\ length dirs = length (remove_dups (label_of <$> sample_files))
    /\ exists order tensors,
         order ≡ₚ sample_files
         /\ Forall2 (loads sample_env [224; 224]%nat) order tensors
         /\ values XNORM = concat ((fun t => values (tf_div t 255)) <$> tensors)
         /\ forall i file, order !! i = Some file ->
              0 <= indexOf dirs (label_of file) < Z.of_nat (length dirs)
              /\ (Qsum (row Y i) == 1)%Q
              /\ forall c, (c < length dirs)%nat ->
                   row Y i !! c
                   = Some (if Z.eqb (Z.of_nat c) (indexOf dirs (label_of file))
                           then 1%Q else 0%Q).
Proof.
  eexists _, _, _, _. split; [vm_compute; reflexivity|].
  eapply (one_hot_rows sample_env "root" [224; 224]%nat sample_files initial_world).
  - exact sample_random_in_unit.
  - reflexivity.
  - simpl. lia.
  - vm_compute. reflexivity.
Defined.

(** ** C1: the range of the pixel values *)

Lemma file_tensor_resized E file size t :
  file_tensor E file size = inr t ->
  exists r, resized E file size r /\ t = tf_div r 255.
Proof.
  unfold file_tensor, resized.
  destruct (readFileSync E file) as [e|raw] eqn:Hraw; [discriminate|].
  destruct (decodeImage E raw 3) as [e|img] eqn:Himg; [discriminate|].
  destruct (resizeBilinear E img size) as [e|r] eqn:Hr; [discriminate|].
  intros [= <-]. exists r. split; [|done]. by exists raw, img.
Qed.

(** C1, as the code has it.  The images are divided by 255 in fileToTensor
    and the stacked tensor is divided by 255 again in folderToTensors: for
    8-bit pixels every value of the final tensor lies in [0, 1/255], and a
    maximally bright pixel (255) ends at 1/255, not at 1. *)
Theorem pixels_normalised_twice (E : Env) (dirPath : string) (size : list nat)
  (files : list string) (w w' : World) (XNORM Y : Tensor) (dirs : list string) :
  random_in_unit E ->
  glob E (image_pattern dirPath) = inr files ->
  Z.of_nat (length files) <= 2 ^ 31 ->
  pixels_in_byte_range E files size ->
  folderToTensors E dirPath size w
    = (mkSettlement (Fulfilled (XNORM, Y, dirs)) None, w') ->
  Forall (fun v => (0 <= v)%Q /\ (v <= 1 # 255)%Q) (values XNORM)
  /\ ((forall file r, file ∈ files -> resized E file size r ->
         Forall (fun v => (v == 255)%Q) (values r)) ->
      Forall (fun v => (v == 1 # 255)%Q) (values XNORM)).
Proof.
  intros Hrand Hglob Hmax Hpix Hrun.
  destruct (folderToTensors_fulfilled_inv E size dirPath files w XNORM Y dirs w'
              Hrand Hglob Hmax Hrun)
    as (order & tensors & t0 & rest & Horder & Hall & Hts & Hdirs & -> & -> & Hdepth).
  assert (order ≡ₚ files) as Hperm by (subst order; apply shuffled_perm).
  assert (forall (P : Q -> Prop) (P' : Q -> Prop),
            (forall v, P v -> P' ((v / 255) / 255)%Q) ->
            (forall file r, file ∈ files -> resized E file size r -> Forall P (values r)) ->
            Forall P' (values (tf_div (mkTensor (length files :: shape t0)
                                         (concat (values <$> tensors))) 255)))
    as Hlift.
  { intros P P' HP Hfiles. unfold tf_div; simpl.
    change (map ?f ?l) with (f <$> l).
    apply Forall_fmap, Forall_concat, Forall_fmap, Forall_forall.
    intros t Ht. apply list_elem_of_lookup in Ht as [i Hi].
    destruct (Forall2_lookup_r _ _ _ _ _ Hall Hi) as (file & Hfile & Hload).
    destruct (file_tensor_resized E file size t Hload) as (r & Hr & ->).
    assert (file ∈ files) as Hin
      by (rewrite <- Hperm; by eapply list_elem_of_lookup_2).
    pose proof (Hfiles file r Hin Hr) as Hvals.
    unfold tf_div; simpl. change (map ?f ?l) with (f <$> l).
    apply Forall_fmap. eapply Forall_impl; [exact Hvals|].
    intros v Hv. simpl. by apply HP. }
  split.
  - apply (Hlift (fun v => (0 <= v)%Q /\ (v <= 255)%Q)); [|exact Hpix].
    intros v [H0 H255]. split.
    + apply Qle_shift_div_l; [done|]. apply Qle_shift_div_l; [done|]. lra.
    + apply Qle_shift_div_r; [done|]. apply Qle_shift_div_r; [done|]. lra.
  - intros Hbright.
    apply (Hlift (fun v => (v == 255)%Q)); [|exact Hbright].
    intros v ->. reflexivity.
Qed.

(** The sample folder, whose images are white: every value of the final
    tensor is 1/255. *)
Lemma pixels_normalised_twice_witness :
  exists XNORM Y dirs w',
    folderToTensors sample_env "root" [224; 224]%nat initial_world
      = (mkSettlement (Fulfilled (XNORM, Y, dirs)) None, w')
    /\ length (values XNORM) = 9%nat
    /\ Forall (fun v => (0 <= v)%Q /\ (v <= 1 # 255)%Q) (values XNORM)
    /\ Forall (fun v => (v == 1 # 255)%Q) (values XNORM).
Proof.
  eexists _, _, _, _. split; [vm_compute; reflexivity|].
  split; [reflexivity|].
  assert (forall file r, file ∈ sample_files ->
            resized sample_env file [224; 224]%nat r -> r = white_image) as Hwhite.
  { intros file r _ (raw & img & _ & Himg & Hr). simpl in Himg, Hr. congruence. }
  assert (pixels_in_byte_range sample_env sample_files [224; 224]%nat) as Hpix.
  { intros file r Hin Hr. rewrite (Hwhite file r Hin Hr).
    repeat constructor; unfold Qle; simpl; lia. }
  edestruct (pixels_normalised_twice sample_env "root" [224; 224]%nat sample_files
               initial_world) as [Hrange Hbright];
    [exact sample_random_in_unit | reflexivity | simpl; lia | exact Hpix
    | vm_compute; reflexivity |].
  split; [exact Hrange|].
  apply Hbright. intros file r Hin Hr. rewrite (Hwhite file r Hin Hr).
  repeat constructor.
Defined.

(** ** Computations that leave the socket alone *)

Create HintDb frame.

Lemma set_emitted_same w : set_emitted (emitted w) w = w.
Proof. by destruct w. Qed.

Lemma emit_frame_emitted {A} (m : M A) w :
  emit_frame m -> emitted (snd (m w)) = emitted w.
Proof.
  intros Hm. specialize (Hm w (emitted w)). rewrite set_emitted_same in Hm.
  destruct (m w) as [c w']. simpl in *. by injection Hm as ->.
Qed.

Lemma emit_frame_ret {A} (a : A) : emit_frame (ret a).
Proof. done. Qed.

Lemma emit_frame_throw {A} e : emit_frame (@throw A e).
Proof. done. Qed.

Lemma emit_frame_lift {A} (r : JsError + A) : emit_frame (lift r).
Proof. by destruct r. Qed.

Lemma emit_frame_bind {A B} (m : M A) (k : A -> M B) :
  emit_frame m -> (forall a, emit_frame (k a)) -> emit_frame (bind m k).
Proof.
  intros Hm Hk w e. unfold bind. rewrite Hm.
  destruct (m w) as [[a|err|code|] w1]; simpl; [apply Hk | done | done | done].
Qed.

Lemma emit_frame_console_log args : emit_frame (console_log args).
Proof. done. Qed.

Lemma emit_frame_console_assert cond : emit_frame (console_assert cond).
Proof. by destruct cond. Qed.

Lemma emit_frame_readFileSync E file : emit_frame (fs_readFileSync E file).
Proof.
  intros w e. unfold fs_readFileSync. by destruct (readFileSync E file).
Qed.

Lemma emit_frame_random E : emit_frame (Math_random E).
Proof. done. Qed.

Lemma emit_frame_tf_stack ts : emit_frame (tf_stack ts).
Proof.
  intros w e. unfold tf_stack.
  destruct (all_defined (elems ts)) as [[|t0 rest]|]; try done.
  by destruct (forallb _ rest).
Qed.

Lemma emit_frame_tf_oneHot ys depth : emit_frame (tf_oneHot ys depth).
Proof.
  intros w e. unfold tf_oneHot. destruct (Nat.ltb depth 2); [done|].
  by destruct (all_defined (elems ys)).
Qed.

#[local] Hint Resolve emit_frame_ret emit_frame_throw emit_frame_lift
  emit_frame_console_log emit_frame_console_assert emit_frame_readFileSync
  emit_frame_random emit_frame_tf_stack emit_frame_tf_oneHot : frame.

Ltac frame :=
  repeat match goal with
    | |- emit_frame (bind _ _) => apply emit_frame_bind
    | |- forall _, _ => intros ?
    | |- emit_frame (let '(_, _) := ?x in _) => destruct x
    | |- emit_frame _ => solve [eauto with frame]
    end.

Lemma emit_frame_forEach {A S} (body : S -> A -> M S) l s :
  (forall s x, emit_frame (body s x)) -> emit_frame (forEach body l s).
Proof.
  intros Hbody. revert s. induction l as [|x l IH]; intros s; simpl; frame.
Qed.

Lemma emit_frame_fileToTensor E file size : emit_frame (fileToTensor E file size).
Proof. unfold fileToTensor. frame. Qed.

Lemma emit_frame_load_file E size st file : emit_frame (load_file E size st file).
Proof.
  destruct st as [[XS YS] dirs]. unfold load_file.
  apply emit_frame_bind; [apply emit_frame_fileToTensor | frame].
Qed.

Lemma emit_frame_shuffle_loop {A B} E counter (a : JsArray A) (b : JsArray B) :
  emit_frame (shuffle_loop E counter a b).
Proof.
  revert a b. induction counter as [|c IH]; intros a b; cbn [shuffle_loop]; frame.
Qed.

Lemma emit_frame_shuffleCombo {A B} E (a : JsArray A) (b : JsArray B) :
  emit_frame (shuffleCombo E a b).
Proof.
  unfold shuffleCombo. apply emit_frame_bind; [frame|].
  intros _. apply emit_frame_shuffle_loop.
Qed.

Lemma emit_frame_on_files E size files : emit_frame (on_files E size files).
Proof.
  unfold on_files.
  do 2 (apply emit_frame_bind; [frame | intros _]).
  apply emit_frame_bind.
  { apply emit_frame_forEach. intros. apply emit_frame_load_file. }
  intros [[XS YS] dirs].
  apply emit_frame_bind; [apply emit_frame_shuffleCombo|].
  intros [XS' YS']. frame.
Qed.

Lemma folderToTensors_frame E dirPath size w e :
  folderToTensors E dirPath size (set_emitted e w)
  = (fst (folderToTensors E dirPath size w),
     set_emitted e (snd (folderToTensors E dirPath size w))).
Proof.
  rewrite !folderToTensors_unfold.
  destruct (glob E (image_pattern dirPath)) as [err|files]; [done|].
  change (add_console (set_emitted e w) [identifying])
    with (set_emitted e (add_console w [identifying])).
  rewrite emit_frame_on_files.
  by destruct (on_files E size files _) as [[r|err|code|] w1].
Qed.

Lemma emit_frame_await_folder E dirPath size :
  emit_frame (await (folderToTensors E dirPath size)).
Proof.
  intros w e. unfold await. rewrite folderToTensors_frame.
  destruct (folderToTensors E dirPath size w) as [[[|v|reason] [code|]] w1]; done.
Qed.

Lemma emit_frame_emit_none event payload : emit_frame (emit_if None event payload).
Proof. done. Qed.

Lemma emit_frame_fit_loop E remaining epoch m x y cb history :
  (forall ep logs, emit_frame (cb ep logs)) ->
  emit_frame (fit_loop E remaining epoch m x y cb history).
Proof.
  intros Hcb. revert epoch m history.
  induction remaining as [|n IH]; intros epoch m history; cbn [fit_loop]; [frame|].
  apply emit_frame_bind; [frame|]. intros [m' logs].
  apply emit_frame_bind; [apply Hcb|]. intros _. apply IH.
Qed.

(** ** C5: the order of the observer's events *)

Lemma step_frame {A} (m : M A) w c w1 :
  emit_frame m -> m w = (c, w1) -> emitted w1 = emitted w.
Proof.
  intros Hm Hrun. pose proof (emit_frame_emitted m w Hm) as H.
  by rewrite Hrun in H.
Qed.

Lemma step_emit (s : Socket) event payload w (c : Completion unit) w1 :
  emit_if (Some s) event payload w = (c, w1) ->
  emitted w1 = emitted w ++ [Emit event payload].
Proof. by intros [= <- <-]. Qed.

Lemma fit_loop_emitted E (s : Socket) remaining epoch m x y history w m' history' w' :
  fit_loop E remaining epoch m x y (onEpochEnd (Some s)) history w
    = (Normal (m', history'), w') ->
  emitted w' = emitted w ++ progress_events epoch remaining
  /\ length history' = (length history + remaining)%nat.
Proof.
  revert epoch m history w.
  induction remaining as [|n IH]; intros epoch m history w Hrun.
  - injection Hrun as <- <- <-. unfold progress_events; simpl.
    by rewrite app_nil_r, Nat.add_0_r.
  - cbn [fit_loop] in Hrun.
    apply bind_Normal_inv in Hrun as ([m1 logs] & w1 & H1 & Hrun).
    apply step_frame in H1; [|apply emit_frame_lift].
    apply bind_Normal_inv in Hrun as ([] & w2 & H2 & Hrun).
    unfold onEpochEnd in H2.
    apply bind_Normal_inv in H2 as ([] & w2' & H2a & H2b).
    apply step_frame in H2a; [|apply emit_frame_console_log].
    apply step_emit in H2b.
    apply IH in Hrun as [-> ->].
    rewrite H2b, H2a, H1, length_app. unfold progress_events; simpl.
    rewrite <- app_assoc. split; [done | lia].
Qed.

(** *** A run that completes *)

Lemma completed_run_events (E : Env) (folderPath : string) (s : Socket)
  (w w' : World) (t : Trained) :
  learnTransferModel E folderPath (Some s) w = (Normal t, w') ->
  emitted w' = emitted w ++ expected_events (shape (run_features t))
  /\ length (run_history t) = 100%nat.
Proof.
  intros Hrun. unfold learnTransferModel in Hrun.
  apply bind_Normal_inv in Hrun as ([] & w1 & H1 & Hrun).
  apply step_frame in H1; [|apply emit_frame_console_log].
  apply bind_Normal_inv in Hrun as ([] & w2 & H2 & Hrun).
  apply step_emit in H2.
  apply bind_Normal_inv in Hrun as ([[X Y] dirs] & w3 & H3 & Hrun).
  apply step_frame in H3; [|apply emit_frame_await_folder].
  apply bind_Normal_inv in Hrun as ([] & w4 & H4 & Hrun).
  apply step_frame in H4; [|apply emit_frame_console_log].
  apply bind_Normal_inv in Hrun as ([] & w5 & H5 & Hrun).
  apply step_emit in H5.
  apply bind_Normal_inv in Hrun as (featureModel & w6 & H6 & Hrun).
  apply step_frame in H6; [|apply emit_frame_lift].
  apply bind_Normal_inv in Hrun as ([] & w7 & H7 & Hrun).
  apply step_frame in H7; [|apply emit_frame_console_log].
  apply bind_Normal_inv in Hrun as ([] & w8 & H8 & Hrun).
  apply step_emit in H8.
  apply bind_Normal_inv in Hrun as (featureX & w9 & H9 & Hrun).
  apply step_frame in H9; [|apply emit_frame_lift].
  apply bind_Normal_inv in Hrun as ([] & w10 & H10 & Hrun).
  apply step_frame in H10; [|apply emit_frame_console_log].
  apply bind_Normal_inv in Hrun as ([] & w11 & H11 & Hrun).
  apply step_emit in H11.
  apply bind_Normal_inv in Hrun as ([loss0 acc0] & w12 & H12 & Hrun).
  apply step_frame in H12; [|apply emit_frame_lift].
  apply bind_Normal_inv in Hrun as ([] & w13 & H13 & Hrun).
  apply step_frame in H13; [|apply emit_frame_console_log].
  apply bind_Normal_inv in Hrun as ([trained history] & w14 & H14 & Hrun).
  apply fit_loop_emitted in H14 as [H14 Hhist].
  apply bind_Normal_inv in Hrun as ([] & w15 & H15 & Hrun).
  apply step_frame in H15; [|apply emit_frame_console_log].
  apply bind_Normal_inv in Hrun as ([] & w16 & H16 & Hrun).
  apply bind_Normal_inv in H16 as ([] & w16' & H16a & H16b).
  injection H16a as <-. injection H16b as <-.
  injection Hrun as <- <-. cbn [run_features run_history emitted].
  rewrite H15, H14, H13, H12, H11, H10, H9, H8, H7, H6, H5, H4, H3, H2, H1.
  unfold expected_events. rewrite <- !app_assoc. cbn [app].
  by split.
Qed.


(** *** Any run *)

Lemma bind_console_log {B} args (k : unit -> M B) w :
  bind (console_log args) k w = k tt (add_console w [ConsoleLog args]).
Proof. reflexivity. Qed.

Lemma bind_emit {B} (s : Socket) event payload (k : unit -> M B) w :
  bind (emit_if (Some s) event payload) k w
  = k tt (set_emitted (emitted w ++ [Emit event payload]) w).
Proof. reflexivity. Qed.

Lemma bind_lift {A B} (r : JsError + A) (k : A -> M B) w :
  bind (lift r) k w
  = match r with
    | inl e => (Throw (Some e), w)
    | inr a => k a w
    end.
Proof. by destruct r. Qed.

Lemma progress_events_split (first k n : nat) :
  (k <= n)%nat ->
  progress_events first n
  = progress_events first k ++ progress_events (first + k) (n - k).
Proof.
  intros Hk. unfold progress_events.
  replace n with (k + (n - k))%nat at 1 by lia.
  by rewrite seq_app, fmap_app.
Qed.

(** However the epoch loop ends, it has sent the progress events of the
    epochs it went through, in order. *)
Lemma fit_loop_progress E (s : Socket) remaining epoch m x y history w :
  exists k, (k <= remaining)%nat
    /\ emitted (snd (fit_loop E remaining epoch m x y (onEpochEnd (Some s)) history w))
       = emitted w ++ progress_events epoch k.
Proof.
  revert epoch m history w.
  induction remaining as [|n IH]; intros epoch m history w.
  - exists 0%nat. split; [done|]. simpl. by rewrite app_nil_r.
  - cbn [fit_loop]. rewrite bind_lift.
    destruct (train_epoch E m x y) as [e|[m1 logs]].
    + exists 0%nat. split; [lia|]. simpl. by rewrite app_nil_r.
    + unfold onEpochEnd at 1. unfold bind at 1 2. cbn [console_log emit_if socket_emit fst snd].
      match goal with
      | |- context [fit_loop E n (S epoch) m1 x y _ ?h ?w1] =>
          destruct (IH (S epoch) m1 h w1) as (k & Hk & ->)
      end.
      exists (S k). split; [lia|]. cbn [emitted].
      unfold progress_events. cbn [seq fmap list_fmap].
      by rewrite <- app_assoc.
Qed.

(** Whatever happens, the observer has received an initial segment of the
    expected events. *)
Lemma any_run_events (E : Env) (folderPath : string) (s : Socket) (w : World) :
  exists shp tr,
    emitted (snd (learnTransferModel E folderPath (Some s) w)) = emitted w ++ tr
    /\ tr `prefix_of` expected_events shp.
Proof.
  unfold learnTransferModel.
  rewrite bind_console_log, bind_emit.
  unfold bind at 1.
  destruct (await _ _) as [[[[X Y] dirs]|e|c|] w3] eqn:H3;
    apply step_frame in H3; try apply emit_frame_await_folder;
    cbn [emitted set_emitted add_console] in H3;
    try (exists [], [Emit "log" [PStr "loading images"]]; split;
         [exact H3 | eexists; reflexivity]).
  rewrite bind_console_log, bind_emit, bind_lift.
  destruct (loadGraphModel E _) as [e|featureModel].
  { exists [], [Emit "log" [PStr "loading images"]; Emit "log" [PStr "loading model"]].
    split; [|eexists; reflexivity].
    cbn [snd emitted set_emitted add_console]. by rewrite H3, <- app_assoc. }
  rewrite bind_console_log, bind_emit, bind_lift.
  destruct (predict featureModel X) as [e|featureX].
  { exists [], [Emit "log" [PStr "loading images"]; Emit "log" [PStr "loading model"];
                Emit "log" [PStr "creating features"]].
    split; [|eexists; reflexivity].
    cbn [snd emitted set_emitted add_console]. by rewrite H3, <- !app_assoc. }
  exists (shape featureX).
  rewrite bind_console_log, bind_emit, bind_lift.
  destruct (evaluate E _ featureX Y) as [e|[loss0 acc0]].
  { eexists. split.
    - cbn [snd emitted set_emitted add_console]. rewrite H3, <- !app_assoc.
      cbn [app]. reflexivity.
    - eexists; reflexivity. }
  rewrite bind_console_log. unfold model_fit, bind at 1.
  match goal with
  | |- context [fit_loop E 100 0 ?m featureX Y _ [] ?w1] =>
      destruct (fit_loop_progress E s 100 0 m featureX Y [] w1) as (k & Hk & Hfit);
      destruct (fit_loop E 100 0 m featureX Y (onEpochEnd (Some s)) [] w1)
        as [[[trained history]|e|c|] w14] eqn:Hrun
  end;
    cbn [snd emitted set_emitted add_console] in Hfit;
    rewrite H3, <- !app_assoc in Hfit; cbn [app] in Hfit.
  2-4: (eexists; split; [cbn [snd]; exact Hfit|];
        exists (progress_events k (100 - k)
                  ++ [Emit "log" [PStr "learned"]; Emit "learnCompleted" []]);
        unfold expected_events; cbn [app];
        rewrite (progress_events_split 0 k 100 Hk), <- !app_assoc; reflexivity).
  apply fit_loop_emitted in Hrun as [Hall _].
  rewrite bind_console_log. unfold bind at 1 2. cbn [socket_emit fst snd ret emitted add_console].
  eexists. split.
  - rewrite Hall. cbn [emitted set_emitted add_console].
    rewrite H3, <- !app_assoc. cbn [app]. reflexivity.
  - exists []. by rewrite app_nil_r.
Qed.

(** C5.  In a run of learnTransferModel with an attached observer, the
    events sent are an initial segment of: log "loading images", log
    "loading model", log "creating features", a log of the feature shape,
    the progress events of the epochs 0, 1, ..., 99, log "learned",
    learnCompleted.  A run that completes has sent all of them, in this
    order, and its training history has 100 entries: 100 epochs, 100
    progress events, one completion event. *)
Theorem observer_event_order (E : Env) (folderPath : string) (s : Socket)
  (w : World) :
  (exists shp tr,
     emitted (snd (learnTransferModel E folderPath (Some s) w)) = emitted w ++ tr
     /\ tr `prefix_of` expected_events shp)
  /\ (forall t w',
        learnTransferModel E folderPath (Some s) w = (Normal t, w') ->
        emitted w' = emitted w ++ expected_events (shape (run_features t))
        /\ length (run_history t) = 100%nat)
  /\ length (progress_events 0 100) = 100%nat
  /\ (forall epoch, (epoch < 100)%nat ->
        progress_events 0 100 !! epoch
        = Some (Emit "updateProgress" [PNum (Z.of_nat epoch)])).
Proof.
  split; [apply any_run_events|].
  split; [intros t w'; apply completed_run_events|].
  split; [done|].
  intros epoch Hepoch. unfold progress_events.
  by rewrite list_lookup_fmap, lookup_seq_lt.
Qed.

(** A complete run on the sample folder. *)
Lemma observer_event_order_witness :
  exists t w',
    learnTransferModel sample_env "root" (Some (mkSocket "observer")) initial_world
      = (Normal t, w')
    /\ emitted w' = emitted initial_world ++ expected_events (shape (run_features t))
    /\ shape (run_features t) = [3; 1792]%nat
    /\ length (run_history t) = 100%nat.
Proof.
  eexists _, _. split; [vm_compute; reflexivity|].
  destruct (observer_event_order sample_env "root" (mkSocket "observer")
              initial_world) as (_ & Hcomplete & _).
  edestruct Hcomplete as (Hev & Hhist); [vm_compute; reflexivity|].
  split; [exact Hev|]. split; [reflexivity | exact Hhist].
Defined.

(** ** C10: the observer does not influence the computation *)

Lemma same_but_emitted_fields w1 w2 :
  same_but_emitted w1 w2 <->
  console w1 = console w2 /\ random_calls w1 = random_calls w2 /\ reads w1 = reads w2.
Proof.
  unfold same_but_emitted, set_emitted. split.
  - by intros [= -> -> ->].
  - by intros (-> & -> & ->).
Qed.

Lemma sim_frame {A} (m : M A) : emit_frame m -> sim m m.
Proof.
  intros Hm w1 w2 Hw.
  assert (w2 = set_emitted (emitted w2) w1) as ->.
  { apply same_but_emitted_fields in Hw as (Hc & Hr & Hf).
    destruct w1, w2; simpl in *. by subst. }
  rewrite Hm. done.
Qed.

Lemma sim_bind {A B} (m1 m2 : M A) (k1 k2 : A -> M B) :
  sim m1 m2 -> (forall a, sim (k1 a) (k2 a)) -> sim (bind m1 k1) (bind m2 k2).
Proof.
  intros Hm Hk w1 w2 Hw. unfold bind.
  destruct (Hm w1 w2 Hw) as [Hfst Hsnd].
  destruct (m1 w1) as [c1 w1'], (m2 w2) as [c2 w2']; simpl in *. subst c2.
  destruct c1 as [a|err|code|]; [by apply Hk | done | done | done].
Qed.

Lemma sim_emit_if (s : Socket) event payload :
  sim (emit_if None event payload) (emit_if (Some s) event payload).
Proof.
  intros w1 w2 Hw. split; [done|].
  apply same_but_emitted_fields. by apply same_but_emitted_fields in Hw.
Qed.

Lemma sim_onEpochEnd (s : Socket) epoch logs :
  sim (onEpochEnd None epoch logs) (onEpochEnd (Some s) epoch logs).
Proof.
  unfold onEpochEnd. apply sim_bind.
  - apply sim_frame, emit_frame_console_log.
  - intros _. apply sim_emit_if.
Qed.

Lemma sim_fit_loop E (s : Socket) remaining epoch m x y history :
  sim (fit_loop E remaining epoch m x y (onEpochEnd None) history)
      (fit_loop E remaining epoch m x y (onEpochEnd (Some s)) history).
Proof.
  revert epoch m history.
  induction remaining as [|n IH]; intros epoch m history; cbn [fit_loop].
  - apply sim_frame, emit_frame_ret.
  - apply sim_bind; [apply sim_frame, emit_frame_lift|]. intros [m' logs].
    apply sim_bind; [apply sim_onEpochEnd|]. intros _. apply IH.
Qed.

Lemma emit_frame_onEpochEnd_none epoch logs : emit_frame (onEpochEnd None epoch logs).
Proof. unfold onEpochEnd. apply emit_frame_bind; [apply emit_frame_console_log | done]. Qed.

Lemma emit_frame_learn_detached E folderPath :
  emit_frame (learnTransferModel E folderPath None).
Proof.
  unfold learnTransferModel, model_fit. cbn [emit_if].
  repeat first
    [ apply emit_frame_bind;
      [ first [ apply emit_frame_await_folder
              | apply emit_frame_fit_loop; intros; apply emit_frame_onEpochEnd_none
              | solve [frame] ]
      | intros ? ]
    | match goal with
      | |- emit_frame (let '(_, _) := ?x in _) => destruct x
      end ].
  frame.
Qed.

Lemma sim_learn E folderPath (s : Socket) :
  sim (learnTransferModel E folderPath None)
      (learnTransferModel E folderPath (Some s)).
Proof.
  unfold learnTransferModel, model_fit.
  apply sim_bind; [apply sim_frame; frame | intros _].
  apply sim_bind; [apply sim_emit_if | intros _].
  apply sim_bind; [apply sim_frame, emit_frame_await_folder | intros [[X Y] dirs]].
  apply sim_bind; [apply sim_frame; frame | intros _].
  apply sim_bind; [apply sim_emit_if | intros _].
  apply sim_bind; [apply sim_frame; frame | intros featureModel].
  apply sim_bind; [apply sim_frame; frame | intros _].
  apply sim_bind; [apply sim_emit_if | intros _].
  apply sim_bind; [apply sim_frame; frame | intros featureX].
  apply sim_bind; [apply sim_frame; frame | intros _].
  apply sim_bind; [apply sim_emit_if | intros _].
  apply sim_bind; [apply sim_frame; frame | intros [loss0 acc0]].
  apply sim_bind; [apply sim_frame; frame | intros _].
  apply sim_bind; [apply sim_fit_loop | intros [trained history]].
  apply sim_bind; [apply sim_frame; frame | intros _].
  apply sim_bind; [| intros _; apply sim_frame; frame].
  intros w1 w2 Hw. split; [done|].
  apply same_but_emitted_fields. by apply same_but_emitted_fields in Hw.
Qed.

(** C10.  Two runs of learnTransferModel from the same world, one without
    an observer and one with an observer attached, complete in the same way
    with the same result (the dataset, the features, the trained model and
    its history, or the same error or exit code), print the same lines,
    make the same draws and read the same files; a run without observer
    sends nothing. *)
Theorem observer_noninterference (E : Env) (folderPath : string) (s : Socket)
  (w : World) :
  fst (learnTransferModel E folderPath None w)
    = fst (learnTransferModel E folderPath (Some s) w)
  /\ console (snd (learnTransferModel E folderPath None w))
     = console (snd (learnTransferModel E folderPath (Some s) w))
  /\ random_calls (snd (learnTransferModel E folderPath None w))
     = random_calls (snd (learnTransferModel E folderPath (Some s) w))
  /\ reads (snd (learnTransferModel E folderPath None w))
     = reads (snd (learnTransferModel E folderPath (Some s) w))
  /\ emitted (snd (learnTransferModel E folderPath None w)) = emitted w.
Proof.
  destruct (sim_learn E folderPath s w w eq_refl) as [Hfst Hsnd].
  apply same_but_emitted_fields in Hsnd as (Hc & Hr & Hf).
  repeat split; try done.
  apply emit_frame_emitted, emit_frame_learn_detached.
Qed.

(** ** The shuffle of the code and the Fisher-Yates shuffle *)

Lemma fisher_yates_from_split {A B} counter draws (images : list A) (labels : list B) :
  fisher_yates_from counter draws images labels
  = (permute_by counter draws images, permute_by counter draws labels).
Proof.
  revert draws images labels.
  induction counter as [|c IH]; intros draws images labels; [done|].
  destruct draws as [|j draws]; [done|]. apply IH.
Qed.

Lemma permute_by_zip {X Y} counter draws (l1 : list X) (l2 : list Y) :
  length l1 = length l2 ->
  permute_by counter draws (zip l1 l2)
  = zip (permute_by counter draws l1) (permute_by counter draws l2).
Proof.
  revert draws l1 l2. induction counter as [|c IH]; intros draws l1 l2 Hlen; [done|].
  destruct draws as [|j draws]; [done|]. cbn [permute_by].
  rewrite list_swap_zip by done. apply IH. by rewrite !list_swap_length.
Qed.

Lemma permute_by_perm {X} counter draws (l : list X) : permute_by counter draws l ≡ₚ l.
Proof.
  revert draws l. induction counter as [|c IH]; intros draws l; [done|].
  destruct draws as [|j draws]; [done|]. cbn [permute_by].
  by rewrite IH, list_swap_perm.
Qed.

Lemma permute_by_length {X} counter draws (l : list X) :
  length (permute_by counter draws l) = length l.
Proof. apply Permutation_length, permute_by_perm. Qed.

Lemma draw_index_one r :
  is_double r = true -> (0 <= r)%Q -> (r < 1)%Q -> draw_index r 1 = 0%nat.
Proof.
  intros Hd H0 H1. pose proof (draw_index_lt r 1 Hd H0 H1 ltac:(lia)). lia.
Qed.

(** The loop of the code, entered with counter n+1, makes the swaps of the
    counters n, ..., 1 and ends with a swap of slot 0 with itself. *)
Lemma shuffled_permute_by {X} E n k (l : list X) :
  random_in_unit E ->
  shuffled E (S n) k l = permute_by n (indices_drawn E n k) l.
Proof.
  intros Hrand. revert k l. induction n as [|n IH]; intros k l.
  - cbn [shuffled indices_drawn permute_by].
    destruct (Hrand k) as (Hd & H0 & H1).
    by rewrite draw_index_one, list_swap_same.
  - change (shuffled E (S (S n)) k l)
      with (shuffled E (S n) (S k)
              (list_swap l (S n) (draw_index (random_source E k) (S (S n))))).
    rewrite IH. reflexivity.
Qed.

(** ** Counting the draws *)

Lemma all_draws_cons counter index draws :
  index :: draws ∈ all_draws (S counter)
  <-> (index <= S counter)%nat /\ draws ∈ all_draws counter.
Proof.
  cbn [all_draws]. rewrite list_elem_of_In, in_flat_map. split.
  - intros (j & Hj & Hin). apply in_seq in Hj. apply in_map_iff in Hin
      as (d & [= -> ->] & Hd). split; [lia | by apply list_elem_of_In].
  - intros [Hle Hin]. exists index. split; [apply in_seq; lia|].
    apply in_map. by apply list_elem_of_In.
Qed.

Lemma all_draws_nil_inv counter : [] ∈ all_draws counter -> counter = 0%nat.
Proof.
  destruct counter as [|c]; [done|]. cbn [all_draws].
  rewrite list_elem_of_In, in_flat_map. intros (j & _ & Hin).
  apply in_map_iff in Hin as (d & Heq & _). discriminate.
Qed.

Lemma all_draws_zero draws : draws ∈ all_draws 0 <-> draws = [].
Proof. cbn [all_draws]. apply list_elem_of_singleton. Qed.

Lemma all_draws_succ_inv counter draws :
  draws ∈ all_draws (S counter) ->
  exists index draws', draws = index :: draws'
    /\ (index <= S counter)%nat /\ draws' ∈ all_draws counter.
Proof.
  intros Hin. destruct draws as [|j d].
  - by apply all_draws_nil_inv in Hin.
  - exists j, d. split; [done|]. by apply all_draws_cons.
Qed.

Lemma flat_map_length_const {X Y} (f : X -> list Y) (l : list X) (n : nat) :
  (forall x, length (f x) = n) -> length (flat_map f l) = (length l * n)%nat.
Proof.
  intros Hf. induction l as [|x l IH]; simpl; [done|].
  by rewrite length_app, Hf, IH.
Qed.

Lemma all_draws_length counter : length (all_draws counter) = fact (S counter).
Proof.
  induction counter as [|c IH]; [done|].
  cbn [all_draws].
  rewrite (flat_map_length_const _ _ (fact (S c)))
    by (intros; by rewrite length_map).
  rewrite length_seq. change (fact (S (S c))) with (S (S c) * fact (S c))%nat. done.
Qed.

Lemma all_draws_count N : length (all_draws (N - 1)) = fact N.
Proof.
  destruct N as [|N]; [done|].
  replace (S N - 1)%nat with N by lia. apply all_draws_length.
Qed.

Lemma all_draws_NoDup counter : NoDup (all_draws counter).
Proof.
  induction counter as [|c IH]; [apply NoDup_singleton|].
  cbn [all_draws]. generalize (S (S c)). generalize 0%nat at 1.
  intros start len. revert start.
  induction len as [|len IHlen]; intros start; cbn [seq flat_map]; [constructor|].
  apply NoDup_app. repeat split.
  - change (map ?f ?l) with (f <$> l). apply NoDup_fmap_2; [|done].
    by intros d1 d2 [= ->].
  - intros d Hd Hd'. apply list_elem_of_In, in_map_iff in Hd as (d0 & <- & _).
    apply list_elem_of_In, in_flat_map in Hd' as (j & Hj & Hin).
    apply in_seq in Hj. apply in_map_iff in Hin as (d1 & [= -> _] & _). lia.
  - apply IHlen.
Qed.

Lemma indices_drawn_valid E counter k :
  random_in_unit E -> indices_drawn E counter k ∈ all_draws counter.
Proof.
  intros Hrand. revert k. induction counter as [|c IH]; intros k.
  - by apply all_draws_zero.
  - cbn [indices_drawn]. apply all_draws_cons. split; [|apply IH].
    destruct (Hrand k) as (Hd & H0 & H1).
    pose proof (draw_index_lt _ (S (S c)) Hd H0 H1 ltac:(lia)). lia.
Qed.

(** ** Every ordering comes from exactly one sequence of draws *)

Lemma list_swap_app_l {X} (l1 l2 : list X) i j :
  (i < length l1)%nat -> (j < length l1)%nat ->
  list_swap (l1 ++ l2) i j = list_swap l1 i j ++ l2.
Proof.
  intros Hi Hj. unfold list_swap.
  rewrite !lookup_app_l by done.
  destruct (l1 !! i) as [x|]; [|done]. destruct (l1 !! j) as [y|]; [|done].
  rewrite insert_app_l by done.
  rewrite insert_app_l by (by rewrite length_insert). done.
Qed.

Lemma permute_by_app {X} counter draws (l1 l2 : list X) :
  (counter < length l1)%nat -> draws ∈ all_draws counter ->
  permute_by counter draws (l1 ++ l2) = permute_by counter draws l1 ++ l2.
Proof.
  revert draws l1. induction counter as [|c IH]; intros draws l1 Hlen Hin; [done|].
  apply all_draws_succ_inv in Hin as (j & d & -> & Hj & Hd).
  cbn [permute_by]. rewrite list_swap_app_l by lia.
  apply IH; [rewrite list_swap_length; lia | done].
Qed.

(** After the swap of the last slot with slot [j], the last slot holds what
    slot [j] held, for good. *)
Lemma list_swap_last {X} (l : list X) (c j : nat) (z : X) :
  length l = S c -> l !! j = Some z ->
  list_swap l c j = take c (list_swap l c j) ++ [z].
Proof.
  intros Hlen Hj.
  assert (j < length l)%nat as Hjlt by (by eapply lookup_lt_Some).
  assert (list_swap l c j !! c = Some z) as Hlast.
  { rewrite list_swap_lookup by lia.
    destruct (decide (c = j)) as [->|Hne]; [done|]. by rewrite decide_True. }
  rewrite <- (take_drop c (list_swap l c j)) at 1. f_equal.
  apply list_eq. intros i. rewrite lookup_drop.
  destruct i as [|i]; simpl.
  - by rewrite Nat.add_0_r.
  - apply lookup_ge_None. rewrite list_swap_length. lia.
Qed.

Lemma permute_by_step {X} (l : list X) (c j : nat) (draws : list nat) (z : X) :
  length l = S (S c) -> l !! j = Some z -> draws ∈ all_draws c ->
  permute_by (S c) (j :: draws) l
  = permute_by c draws (take (S c) (list_swap l (S c) j)) ++ [z].
Proof.
  intros Hlen Hj Hd. cbn [permute_by].
  rewrite (list_swap_last l (S c) j z Hlen Hj) at 1.
  apply permute_by_app; [|done].
  rewrite length_take, list_swap_length. lia.
Qed.

Lemma orderings_one_draw {X} (c : nat) (l p : list X) :
  length l = S c -> NoDup l -> p ≡ₚ l ->
  exists draws,
    draws ∈ all_draws c
    /\ permute_by c draws l = p
    /\ forall draws', draws' ∈ all_draws c -> permute_by c draws' l = p ->
         draws' = draws.
Proof.
  revert l p. induction c as [|c IH]; intros l p Hlen Hnd Hperm.
  - exists []. split; [by apply all_draws_zero|].
    destruct l as [|x [|? ?]]; try done.
    apply Permutation_singleton_r in Hperm as ->.
    split; [done|]. intros d Hd _. by apply all_draws_zero.
  - assert (length p = S (S c)) as Hplen
      by (by rewrite (Permutation_length Hperm)).
    destruct (decide (p = [])) as [->|Hne]; [done|].
    destruct (exists_last Hne) as (p0 & z & ->).
    assert (z ∈ l) as Hz.
    { rewrite <- Hperm. apply elem_of_app. right. by apply list_elem_of_singleton. }
    apply list_elem_of_lookup in Hz as [j Hj].
    pose proof (lookup_lt_Some _ _ _ Hj) as Hjlt.
    pose proof (list_swap_last l (S c) j z Hlen Hj) as Hsplit.
    set (init := take (S c) (list_swap l (S c) j)) in *.
    assert (init ++ [z] ≡ₚ l) as Hinit by (rewrite <- Hsplit; apply list_swap_perm).
    assert (length init = S c) as Hinitlen.
    { subst init. rewrite length_take, list_swap_length. lia. }
    assert (NoDup init) as Hndinit.
    { rewrite <- Hinit in Hnd. by apply NoDup_app in Hnd as (? & _ & _). }
    assert (p0 ≡ₚ init) as Hp0.
    { apply (Permutation_app_inv_r [z]). by rewrite Hperm, Hinit. }
    destruct (IH init p0 Hinitlen Hndinit Hp0) as (d0 & Hd0 & Hrun & Huniq).
    exists (j :: d0). split; [apply all_draws_cons; split; [lia | done]|].
    split.
    + rewrite (permute_by_step l c j d0 z) by done. fold init. by rewrite Hrun.
    + intros d' Hd' Hrun'.
      apply all_draws_succ_inv in Hd' as (j' & d0' & -> & Hj' & Hd0').
      destruct (lookup_lt_is_Some_2 l j') as [z' Hz']; [lia|].
      rewrite (permute_by_step l c j' d0' z') in Hrun' by done.
      apply app_inj_tail in Hrun' as [Hrun' Hzz]. subst z'.
      assert (j' = j) as -> by exact (NoDup_lookup l j' j z Hnd Hz' Hj).
      f_equal. by apply Huniq.
Qed.

(** ** The drawn index is uniform up to the rounding of the product *)

Lemma Qfloor_eq_iff (x : Q) (z : Z) :
  Qfloor x = z <-> (inject_Z z <= x)%Q /\ (x < inject_Z (z + 1))%Q.
Proof.
  split.
  - intros <-. split; [apply Qfloor_le | apply Qlt_floor].
  - intros [Hlo Hhi].
    assert (z <= Qfloor x).
    { rewrite <- (Qfloor_Z z). by apply Qfloor_resp_le. }
    assert (Qfloor x < z + 1).
    { rewrite Zlt_Qlt. eapply Qle_lt_trans; [apply Qfloor_le | done]. }
    lia.
Qed.

Lemma Qdiv_le_iff (a b r : Q) : (0 < b)%Q -> (a / b <= r)%Q <-> (a <= r * b)%Q.
Proof.
  intros Hb. rewrite <- (Qmult_le_r (a / b) r b Hb).
  assert (a / b * b == a)%Q as -> by (field; lra). reflexivity.
Qed.

Lemma Qlt_div_iff (a b r : Q) : (0 < b)%Q -> (r < a / b)%Q <-> (r * b < a)%Q.
Proof.
  intros Hb. rewrite <- (Qmult_lt_r r (a / b) b Hb).
  assert (a / b * b == a)%Q as -> by (field; lra). reflexivity.
Qed.

Lemma Qdiv_lt_iff (a b r : Q) : (0 < b)%Q -> (a / b < r)%Q <-> (a < r * b)%Q.
Proof.
  intros Hb. rewrite <- (Qmult_lt_r (a / b) r b Hb).
  assert (a / b * b == a)%Q as -> by (field; lra). reflexivity.
Qed.

(** The rounding of a product of a draw and a count moves it by less than
    the count times 2^-53. *)
Lemma js_mul_error (r c : Q) :
  (0 <= r)%Q -> (r <= 1 - Qpow2 (-53))%Q -> (1 <= c)%Q ->
  (r * c - c * Qpow2 (-53) < js_mul r c)%Q
  /\ (js_mul r c < r * c + c * Qpow2 (-53))%Q.
Proof.
  intros H0 H1 Hc. unfold js_mul.
  pose proof (Qpow2_pos (-53)) as Hp.
  assert (Qpow2 (-53) < 1)%Q as Hp1 by reflexivity.
  assert (0 < c * Qpow2 (-53))%Q as Hcp by (apply Qmult_lt_0_compat; lra).
  assert (0 <= r * c)%Q as Hq0 by (apply Qmult_le_0_compat; lra).
  destruct (Qlt_le_dec 0 (r * c)) as [Hpos|Hle].
  2:{ rewrite to_double_0 by lra.
      assert (r * c == 0)%Q as -> by lra. lra. }
  assert (r * c <= c - c * Qpow2 (-53))%Q as Hq.
  { assert (r * c <= (1 - Qpow2 (-53)) * c)%Q as Hrc
      by (apply Qmult_le_compat_r; lra).
    assert ((1 - Qpow2 (-53)) * c == c - c * Qpow2 (-53))%Q as E by ring.
    by rewrite E in Hrc. }
  destruct (to_double_near (r * c) Hpos) as [Hlo Hhi].
  set (q := (r * c)%Q) in *. clearbody q.
  set (y := to_double q) in *. clearbody y.
  assert (ulp q * (1 # 2) < c * Qpow2 (-53))%Q as Hu.
  { destruct (ulp_small q Hpos) as [Hu|Hu].
    - assert (Qpow2 (-52) == 2 * Qpow2 (-53))%Q as H52 by reflexivity.
      rewrite H52 in Hu.
      set (u := ulp q) in *. clearbody u.
      set (p := Qpow2 (-53)) in *. clearbody p.
      assert (q * p <= (c - c * p) * p)%Q as H by (apply Qmult_le_compat_r; lra).
      assert (0 < c * p * p)%Q by (apply Qmult_lt_0_compat; lra).
      assert (q * (2 * p) == 2 * (q * p))%Q as A by ring. rewrite A in Hu.
      assert ((c - c * p) * p == c * p - c * p * p)%Q as E by ring. rewrite E in H.
      set (qp := (q * p)%Q) in *. set (cpp := (c * p * p)%Q) in *.
      set (cp := (c * p)%Q) in *. clearbody qp cpp cp. lra.
    - assert (Qpow2 (-1074) <= Qpow2 (-53))%Q as Hs by (apply Qpow2_le; lia).
      rewrite Hu.
      set (p := Qpow2 (-53)) in *. set (s := Qpow2 (-1074)) in *. clearbody p s.
      assert (1 * p <= c * p)%Q as Hcp' by (apply Qmult_le_compat_r; lra).
      set (cp := (c * p)%Q) in *. clearbody cp. clear Hu. lra. }
  set (u := ulp q) in *. clearbody u.
  set (cp := (c * Qpow2 (-53))%Q) in *. clearbody cp. lra.
Qed.

Section DrawInterval.

Variables (r : Q) (counter : nat).
Hypothesis Hr0 : (0 <= r)%Q.
Hypothesis Hr1 : (r <= 1 - Qpow2 (-53))%Q.
Hypothesis Hcounter : (0 < counter)%nat.
Hypothesis Hmax : Z.of_nat counter <= 2 ^ 31.

Let c : Q := inject_Z (Z.of_nat counter).

Lemma count_ge_1 : (1 <= c)%Q.
Proof. subst c. change 1%Q with (inject_Z 1). rewrite <- Zle_Qle. lia. Qed.

Lemma product_below_2_53 : (r * c < Qpow2 53)%Q.
Proof.
  pose proof count_ge_1 as Hc.
  assert (c <= inject_Z (2 ^ 31))%Q as Hc31 by (subst c; by rewrite <- Zle_Qle).
  assert (inject_Z (2 ^ 31) < Qpow2 53)%Q as H53 by reflexivity.
  pose proof (Qpow2_pos (-53)) as Hp.
  assert (r * c <= 1 * c)%Q as Hrc by (apply Qmult_le_compat_r; lra).
  set (p := Qpow2 (-53)) in *. set (q := (r * c)%Q) in *. clearbody p q. lra.
Qed.

Lemma draw_index_floor (index : nat) :
  draw_index r counter = index
  <-> (inject_Z (Z.of_nat index) <= js_mul r c)%Q
      /\ (js_mul r c < inject_Z (Z.of_nat index) + 1)%Q.
Proof.
  pose proof count_ge_1 as Hc.
  destruct (js_mul_below r c Hr0 Hr1 Hc) as [Hlo _].
  assert (0 <= Qfloor (js_mul r c)) as Hfloor.
  { change 0 with (Qfloor 0). by apply Qfloor_resp_le. }
  unfold draw_index. fold c.
  assert (Z.to_nat (Qfloor (js_mul r c)) = index
          <-> Qfloor (js_mul r c) = Z.of_nat index) as -> by lia.
  rewrite Qfloor_eq_iff, inject_Z_plus. reflexivity.
Qed.

(** A draw well inside the interval of an index gives that index. *)
Lemma draw_index_inside (index : nat) :
  (inject_Z (Z.of_nat index) <= r * c)%Q ->
  (r * c < inject_Z (Z.of_nat index) + 1 - c * Qpow2 (-53))%Q ->
  draw_index r counter = index.
Proof.
  intros Hlo Hhi. apply draw_index_floor.
  pose proof count_ge_1 as Hc.
  destruct (js_mul_error r c Hr0 Hr1 Hc) as [_ He].
  split.
  - unfold js_mul. apply to_double_ge_int; [lia | done | apply product_below_2_53].
  - set (y := js_mul r c) in *. set (q := (r * c)%Q) in *.
    set (cp := (c * Qpow2 (-53))%Q) in *. clearbody y q cp. lra.
Qed.

(** The draws that give an index lie in its interval, widened downwards
    by the rounding. *)
Lemma draw_index_within (index : nat) :
  draw_index r counter = index ->
  (inject_Z (Z.of_nat index) - c * Qpow2 (-53) < r * c)%Q
  /\ (r * c < inject_Z (Z.of_nat index) + 1)%Q.
Proof.
  intros Hdraw. apply draw_index_floor in Hdraw as [Hlo Hhi].
  pose proof count_ge_1 as Hc.
  destruct (js_mul_error r c Hr0 Hr1 Hc) as [_ He].
  split.
  - set (y := js_mul r c) in *. set (q := (r * c)%Q) in *.
    set (cp := (c * Qpow2 (-53))%Q) in *. clearbody y q cp. lra.
  - destruct (Qlt_le_dec (r * c) (inject_Z (Z.of_nat index) + 1)) as [|Hge]; [done|].
    exfalso.
    assert (inject_Z (Z.of_nat index + 1) <= js_mul r c)%Q as Hup.
    { unfold js_mul. apply to_double_ge_int; [lia | | apply product_below_2_53].
      by rewrite inject_Z_plus. }
    rewrite inject_Z_plus in Hup. change (inject_Z 1) with 1%Q in Hup.
    set (y := js_mul r c) in *. clearbody y. lra.
Qed.

End DrawInterval.

(** The draws that give the index [index] for the counter [counter] form
    the interval [index/(counter+1), (index+1)/(counter+1)), up to 2^-53
    at its ends: one interval of length 1/(counter+1) for each index, up
    to the rounding of the product. *)
Lemma draw_index_interval (r : Q) (counter index : nat) :
  is_double r = true -> (0 <= r)%Q -> (r < 1)%Q ->
  Z.of_nat (S counter) <= 2 ^ 31 ->
  ((inject_Z (Z.of_nat index) / inject_Z (Z.of_nat (S counter)) <= r)%Q ->
   (r < inject_Z (Z.of_nat (S index)) / inject_Z (Z.of_nat (S counter))
        - Qpow2 (-53))%Q ->
   draw_index r (S counter) = index)
  /\ (draw_index r (S counter) = index ->
      (inject_Z (Z.of_nat index) / inject_Z (Z.of_nat (S counter)) - Qpow2 (-53) < r)%Q
      /\ (r < inject_Z (Z.of_nat (S index)) / inject_Z (Z.of_nat (S counter)))%Q).
Proof.
  intros Hd H0 H1 Hmax.
  assert (0 < inject_Z (Z.of_nat (S counter)))%Q as Hpos.
  { change 0%Q with (inject_Z 0). rewrite <- Zlt_Qlt. lia. }
  assert (inject_Z (Z.of_nat (S index)) == inject_Z (Z.of_nat index) + 1)%Q as HS.
  { rewrite <- (inject_Z_plus _ 1). by replace (Z.of_nat index + 1) with (Z.of_nat (S index)) by lia. }
  set (c := inject_Z (Z.of_nat (S counter))) in *.
  split.
  - intros Hlo Hhi.
    apply (draw_index_inside r (S counter) H0 (double_below_one r Hd H0 H1)
             ltac:(lia) Hmax); fold c.
    + by apply Qdiv_le_iff.
    + assert (r + Qpow2 (-53) < inject_Z (Z.of_nat (S index)) / c)%Q as Hhi' by lra.
      apply Qlt_div_iff in Hhi'; [|done]. rewrite HS in Hhi'.
      assert ((r + Qpow2 (-53)) * c == r * c + c * Qpow2 (-53))%Q as E by ring.
      rewrite E in Hhi'.
      set (q := (r * c)%Q) in *. set (cp := (c * Qpow2 (-53))%Q) in *.
      clearbody q cp. lra.
  - intros Hdraw.
    destruct (draw_index_within r (S counter) H0 (double_below_one r Hd H0 H1)
                ltac:(lia) Hmax index Hdraw)
      as [Hlo Hhi]. fold c in Hlo, Hhi.
    split.
    + assert (inject_Z (Z.of_nat index) / c < r + Qpow2 (-53))%Q; [|lra].
      apply Qdiv_lt_iff; [done|].
      assert ((r + Qpow2 (-53)) * c == r * c + c * Qpow2 (-53))%Q as -> by ring.
      set (q := (r * c)%Q) in *. set (cp := (c * Qpow2 (-53))%Q) in *.
      clearbody q cp. lra.
    + apply Qlt_div_iff; [done|]. rewrite HS. done.
Qed.

(** ** The index under a source of finitely many equally likely draws *)

Lemma source_grid_length bits :
  length (source_grid bits) = Z.to_nat (2 ^ Z.of_nat bits).
Proof. unfold source_grid. by rewrite length_fmap, length_seqZ. Qed.

Lemma source_grid_elem bits r :
  r ∈ source_grid bits ->
  exists k, 0 <= k < 2 ^ Z.of_nat bits
    /\ r = (inject_Z k / inject_Z (2 ^ Z.of_nat bits))%Q.
Proof.
  unfold source_grid. intros Hr.
  apply list_elem_of_fmap in Hr as (k & -> & Hk).
  apply elem_of_seqZ in Hk. exists k. split; [lia | done].
Qed.

(** The draws of such a source are below 1 by 2^-53 at least. *)
Lemma source_grid_below bits r :
  (bits <= 53)%nat -> r ∈ source_grid bits ->
  (0 <= r)%Q /\ (r <= 1 - Qpow2 (-53))%Q.
Proof.
  intros Hbits Hr. apply source_grid_elem in Hr as (k & Hk & ->).
  set (b := Z.of_nat bits) in *.
  assert (0 < inject_Z (2 ^ b))%Q as HG.
  { change 0%Q with (inject_Z 0). rewrite <- Zlt_Qlt. lia. }
  assert (0 <= inject_Z k)%Q as Hk0.
  { change 0%Q with (inject_Z 0). rewrite <- Zle_Qle. lia. }
  assert (inject_Z k <= inject_Z (2 ^ b) - 1)%Q as Hk1.
  { assert (k <= 2 ^ b + - (1)) as Hk2 by lia.
    rewrite Zle_Qle, inject_Z_plus, inject_Z_opp in Hk2. exact Hk2. }
  assert (Qpow2 (-53) * inject_Z (2 ^ b) <= 1)%Q as Hp.
  { rewrite <- Qpow2_Z by lia. rewrite <- Qpow2_plus.
    change 1%Q with (Qpow2 0). apply Qpow2_le. lia. }
  split.
  - apply Qle_shift_div_l; [done|]. lra.
  - apply Qle_shift_div_r; [done|].
    assert ((1 - Qpow2 (-53)) * inject_Z (2 ^ b)
            == inject_Z (2 ^ b) - Qpow2 (-53) * inject_Z (2 ^ b))%Q as -> by ring.
    set (G := inject_Z (2 ^ b)) in *. set (pG := (Qpow2 (-53) * G)%Q) in *.
    clearbody G pG. lra.
Qed.

Lemma source_grid_index_lt bits counter r :
  (bits <= 53)%nat -> (0 < counter)%nat -> r ∈ source_grid bits ->
  (draw_index r counter < counter)%nat.
Proof.
  intros Hbits Hc Hr. destruct (source_grid_below bits r Hbits Hr) as [H0 H1].
  unfold draw_index. pose proof (draw_in_range_below r counter H0 H1 Hc). lia.
Qed.

Lemma index_count_eq bits counter index :
  index_count bits counter index
  = length (filter (fun r => draw_index r counter = index) (source_grid bits)).
Proof. reflexivity. Qed.

(** The draws split among the indices. *)
Lemma three_classes {X} (f : X -> nat) (l : list X) :
  (forall x, x ∈ l -> (f x < 3)%nat) ->
  length l
  = (length (filter (fun x => f x = 0%nat) l)
     + length (filter (fun x => f x = 1%nat) l)
     + length (filter (fun x => f x = 2%nat) l))%nat.
Proof.
  induction l as [|x l IH]; intros Hf; [done|].
  assert (f x < 3)%nat as Hx by (apply Hf; apply elem_of_cons; by left).
  rewrite !filter_cons. cbn [length].
  rewrite IH by (intros y Hy; apply Hf; apply elem_of_cons; by right).
  repeat case_decide; simpl; lia.
Qed.

Section GridDraw.

Variables (bits counter : nat) (k : Z).
Hypothesis Hbits : (bits <= 53)%nat.
Hypothesis Hk : 0 <= k < 2 ^ Z.of_nat bits.
Hypothesis Hcounter : (0 < counter)%nat.
Hypothesis Hmax : Z.of_nat counter <= 2 ^ 31.

Let G : Z := 2 ^ Z.of_nat bits.
Let r : Q := (inject_Z k / inject_Z G)%Q.

Lemma grid_draw_in_source : r ∈ source_grid bits.
Proof.
  unfold source_grid. apply list_elem_of_fmap. exists k. split; [done|].
  apply elem_of_seqZ. lia.
Qed.

Lemma grid_size_pos : (0 < inject_Z G)%Q.
Proof. change 0%Q with (inject_Z 0). rewrite <- Zlt_Qlt. subst G. lia. Qed.

Lemma grid_step : (Qpow2 (-53) * inject_Z G <= 1)%Q.
Proof.
  subst G. rewrite <- Qpow2_Z by lia. rewrite <- Qpow2_plus.
  change 1%Q with (Qpow2 0). apply Qpow2_le. lia.
Qed.

Lemma grid_product :
  (r * inject_Z (Z.of_nat counter) * inject_Z G
   == inject_Z (k * Z.of_nat counter))%Q.
Proof.
  pose proof grid_size_pos. subst r. rewrite inject_Z_mult. field. lra.
Qed.

(** A draw k / 2^bits for which the exact products of k and of k+1 with
    the count have the same integer part gives that index. *)
Lemma grid_draw_inside (index : nat) :
  Z.of_nat index * G <= k * Z.of_nat counter ->
  (k + 1) * Z.of_nat counter < (Z.of_nat index + 1) * G ->
  draw_index r counter = index.
Proof.
  intros Hlo Hhi.
  destruct (source_grid_below bits r Hbits grid_draw_in_source) as [H0 H1].
  pose proof grid_size_pos as HG. pose proof grid_step as Hstep.
  pose proof grid_product as Hprod.
  assert (1 <= inject_Z (Z.of_nat counter))%Q as Hc.
  { change 1%Q with (inject_Z 1). rewrite <- Zle_Qle. lia. }
  rewrite Zle_Qle, !inject_Z_mult in Hlo.
  rewrite Zlt_Qlt, !inject_Z_mult, !inject_Z_plus in Hhi.
  rewrite inject_Z_mult in Hprod. change (inject_Z 1) with 1%Q in Hhi.
  apply (draw_index_inside r counter H0 H1 Hcounter Hmax).
  - apply (Qmult_le_r _ _ (inject_Z G)); [done|]. by rewrite Hprod.
  - apply (Qmult_lt_r _ _ (inject_Z G)); [done|]. rewrite Hprod.
    assert (inject_Z (Z.of_nat counter) * (Qpow2 (-53) * inject_Z G)
            <= inject_Z (Z.of_nat counter) * 1)%Q as Hcp
      by (apply Qmult_le_l; [lra | done]).
    assert ((inject_Z (Z.of_nat index) + 1
             - inject_Z (Z.of_nat counter) * Qpow2 (-53)) * inject_Z G
            == (inject_Z (Z.of_nat index) + 1) * inject_Z G
               - inject_Z (Z.of_nat counter) * (Qpow2 (-53) * inject_Z G))%Q
      as -> by ring.
    assert ((inject_Z k + 1) * inject_Z (Z.of_nat counter)
            == inject_Z k * inject_Z (Z.of_nat counter)
               + inject_Z (Z.of_nat counter))%Q as E by ring.
    rewrite E in Hhi.
    set (kc := (inject_Z k * inject_Z (Z.of_nat counter))%Q) in *.
    set (jG := ((inject_Z (Z.of_nat index) + 1) * inject_Z G)%Q) in *.
    set (cpG := (inject_Z (Z.of_nat counter) * (Qpow2 (-53) * inject_Z G))%Q) in *.
    set (c := inject_Z (Z.of_nat counter)) in *.
    clearbody kc jG cpG c. clear Hprod Hstep H1. lra.
Qed.

(** The index of a draw k / 2^bits lies between the integer parts of the
    exact products of k and of k+1 with the count. *)
Lemma grid_draw_within (index : nat) :
  draw_index r counter = index ->
  Z.of_nat index * G < (k + 1) * Z.of_nat counter
  /\ k * Z.of_nat counter < (Z.of_nat index + 1) * G.
Proof.
  intros Hdraw.
  destruct (source_grid_below bits r Hbits grid_draw_in_source) as [H0 H1].
  pose proof grid_size_pos as HG. pose proof grid_step as Hstep.
  pose proof grid_product as Hprod.
  assert (1 <= inject_Z (Z.of_nat counter))%Q as Hc.
  { change 1%Q with (inject_Z 1). rewrite <- Zle_Qle. lia. }
  destruct (draw_index_within r counter H0 H1 Hcounter Hmax index Hdraw) as [Hlo Hhi].
  apply (Qmult_lt_r _ _ (inject_Z G)) in Hlo; [|done].
  apply (Qmult_lt_r _ _ (inject_Z G)) in Hhi; [|done].
  rewrite Hprod in Hlo, Hhi. rewrite inject_Z_mult in Hlo, Hhi.
  rewrite !Zlt_Qlt, !inject_Z_mult, !inject_Z_plus. change (inject_Z 1) with 1%Q.
  assert (inject_Z (Z.of_nat counter) * (Qpow2 (-53) * inject_Z G)
          <= inject_Z (Z.of_nat counter) * 1)%Q as Hcp
    by (apply Qmult_le_l; [lra | done]).
  assert ((inject_Z (Z.of_nat index)
           - inject_Z (Z.of_nat counter) * Qpow2 (-53)) * inject_Z G
          == inject_Z (Z.of_nat index) * inject_Z G
             - inject_Z (Z.of_nat counter) * (Qpow2 (-53) * inject_Z G))%Q
    as E by ring.
  rewrite E in Hlo.
  assert ((inject_Z k + 1) * inject_Z (Z.of_nat counter)
          == inject_Z k * inject_Z (Z.of_nat counter)
             + inject_Z (Z.of_nat counter))%Q as -> by ring.
  set (kc := (inject_Z k * inject_Z (Z.of_nat counter))%Q) in *.
  set (jG := (inject_Z (Z.of_nat index) * inject_Z G)%Q) in *.
  set (j1G := ((inject_Z (Z.of_nat index) + 1) * inject_Z G)%Q) in *.
  set (cpG := (inject_Z (Z.of_nat counter) * (Qpow2 (-53) * inject_Z G))%Q) in *.
  set (c := inject_Z (Z.of_nat counter)) in *.
  clearbody kc jG j1G cpG c. clear Hprod Hstep H1 E. split; lra.
Qed.

End GridDraw.

Lemma length_filter_fmap {X Y} (f : X -> Y) (P : Y -> Prop)
    `{!forall y, Decision (P y)} (l : list X) :
  length (filter P (f <$> l)) = length (filter (fun x => P (f x)) l).
Proof.
  induction l as [|x l IH]; [done|].
  csimpl. rewrite !filter_cons. destruct (decide (P (f x))); simpl; by rewrite IH.
Qed.

Lemma index_count_grid bits counter index :
  index_count bits counter index
  = length (filter
      (fun k => draw_index (inject_Z k / inject_Z (2 ^ Z.of_nat bits)) counter = index)
      (seqZ 0 (2 ^ Z.of_nat bits))).
Proof. rewrite index_count_eq. unfold source_grid. apply length_filter_fmap. Qed.

(** Among 2^bits equally likely draws, each index is computed for a
    2^bits/counter-th of them, up to two draws: the distribution of the
    index is uniform up to 2/2^bits. *)
Lemma index_count_near (bits counter index : nat) :
  (bits <= 53)%nat -> (0 < counter)%nat -> Z.of_nat counter <= 2 ^ 31 ->
  (index < counter)%nat ->
  2 ^ Z.of_nat bits - 2 * Z.of_nat counter
    < Z.of_nat counter * Z.of_nat (index_count bits counter index)
  /\ Z.of_nat counter * Z.of_nat (index_count bits counter index)
    < 2 ^ Z.of_nat bits + 2 * Z.of_nat counter.
Proof.
  intros Hbits Hcounter Hmax Hindex. rewrite index_count_grid.
  set (G := 2 ^ Z.of_nat bits). set (c := Z.of_nat counter). set (j := Z.of_nat index).
  assert (0 < G) as HG by (subst G; lia).
  assert (0 < c) as Hc by lia. assert (0 <= j < c) as Hj by lia.
  set (S := filter _ (seqZ 0 G)).
  assert (forall k, k ∈ S <->
            draw_index (inject_Z k / inject_Z G) counter = index /\ 0 <= k < G) as HS.
  { intros k. subst S. rewrite list_elem_of_filter, elem_of_seqZ.
    split; intros [? ?]; (split; [done | lia]). }
  split.
  - set (a := (j * G + c - 1) / c). set (e := ((j + 1) * G - 1) / c).
    pose proof (Z.mul_div_le (j * G + c - 1) c Hc) as Ha1.
    pose proof (Z.mul_succ_div_gt (j * G + c - 1) c Hc) as Ha2.
    pose proof (Z.mul_div_le ((j + 1) * G - 1) c Hc) as He1.
    pose proof (Z.mul_succ_div_gt ((j + 1) * G - 1) c Hc) as He2.
    fold a in Ha1, Ha2. fold e in He1, He2.
    assert (0 <= a) as Ha0 by (subst a; apply Z.div_pos; nia).
    assert (length (seqZ a (e - a)) <= length S)%nat as Hlen.
    { apply submseteq_length, NoDup_submseteq; [apply NoDup_seqZ|].
      intros k Hk. apply elem_of_seqZ in Hk. apply HS.
      assert (j * G <= k * c) by nia.
      assert ((k + 1) * c < (j + 1) * G) by nia.
      split; [|nia].
      apply (grid_draw_inside bits counter k Hbits); try done.
      fold G. nia. }
    rewrite length_seqZ in Hlen. clearbody a e S. nia.
  - set (lo := (j * G) / c). set (hi := ((j + 1) * G - 1) / c + 1).
    pose proof (Z.mul_div_le (j * G) c Hc) as Hl1.
    pose proof (Z.mul_succ_div_gt (j * G) c Hc) as Hl2.
    pose proof (Z.mul_div_le ((j + 1) * G - 1) c Hc) as Hh1.
    pose proof (Z.mul_succ_div_gt ((j + 1) * G - 1) c Hc) as Hh2.
    fold lo in Hl1, Hl2.
    assert (length S <= length (seqZ lo (hi - lo)))%nat as Hlen.
    { apply submseteq_length, NoDup_submseteq.
      { subst S. apply NoDup_filter, NoDup_seqZ. }
      intros k Hk. apply HS in Hk as [Hdraw Hk].
      apply (grid_draw_within bits counter k Hbits Hk Hcounter Hmax) in Hdraw
        as [Hlo Hhi].
      fold G c j in Hlo, Hhi.
      apply elem_of_seqZ. subst hi.
      set (q := ((j + 1) * G - 1) / c) in *. clearbody q lo. nia. }
    rewrite length_seqZ in Hlen. subst hi.
    set (q := ((j + 1) * G - 1) / c) in *. clearbody q lo S. nia.
Qed.

(** ** C4: shuffleCombo is the paired Fisher-Yates shuffle *)

Lemma paired_fisher_yates_zip {A B} draws (images : list A) (labels : list B) :
  length images = length labels ->
  zip (fst (paired_fisher_yates draws images labels))
      (snd (paired_fisher_yates draws images labels))
  = permute_by (length images - 1) draws (zip images labels).
Proof.
  intros Hlen. unfold paired_fisher_yates.
  rewrite fisher_yates_from_split; simpl. by rewrite permute_by_zip.
Qed.

Lemma shuffled_paired_fisher_yates {A B} E k (images : list A) (labels : list B) :
  random_in_unit E ->
  length images = length labels ->
  (shuffled E (length images) k images, shuffled E (length images) k labels)
  = paired_fisher_yates (indices_drawn E (length images - 1) k) images labels.
Proof.
  intros Hrand Hlen. unfold paired_fisher_yates.
  rewrite fisher_yates_from_split.
  destruct (length images) as [|n] eqn:HN; [done|].
  replace (S n - 1)%nat with n by lia.
  by rewrite !shuffled_permute_by.
Qed.

Lemma pow2_not_triple (bits : nat) (n : Z) : 3 * n <> 2 ^ Z.of_nat bits.
Proof.
  revert n. induction bits as [|bits IH]; intros n Hn.
  - change (2 ^ Z.of_nat 0) with 1 in Hn. lia.
  - rewrite Nat2Z.inj_succ, Z.pow_succ_r in Hn by lia.
    apply (IH (2 ^ Z.of_nat bits - n)). lia.
Qed.

(** No source of 2^bits equally likely draws makes the three indices of a
    counter 3 equally likely. *)
Lemma three_indices_not_uniform (bits : nat) :
  (bits <= 53)%nat -> ~ uniform_index bits 3.
Proof.
  intros Hbits Huni.
  pose proof (three_classes (fun r => draw_index r 3) (source_grid bits)
                (fun r Hr => source_grid_index_lt bits 3 r Hbits ltac:(lia) Hr))
    as Hsum.
  rewrite source_grid_length in Hsum.
  pose proof (Huni 0%nat 1%nat ltac:(lia) ltac:(lia)) as H01.
  pose proof (Huni 0%nat 2%nat ltac:(lia) ltac:(lia)) as H02.
  rewrite !index_count_eq in H01, H02. rewrite <- H01, <- H02 in Hsum.
  set (n := length _) in Hsum. clearbody n.
  apply (f_equal Z.of_nat) in Hsum.
  rewrite Z2Nat.id, !Nat2Z.inj_add in Hsum by (apply Z.pow_nonneg; lia).
  apply (pow2_not_triple bits (Z.of_nat n)). lia.
Qed.




(** * Further properties of the loader *)

(** ** Folders that cannot be trained on *)

Lemma stack_and_encode_two_labels XS YS dirs w v w' :
  stack_and_encode XS YS dirs w = (Normal v, w') -> (2 <= length dirs)%nat.
Proof.
  unfold stack_and_encode, bind, console_log; simpl.
  rewrite tf_stack_pure. destruct (fst (tf_stack XS _)) as [X|e|code|]; try done.
  unfold tf_oneHot. destruct (Nat.ltb (length dirs) 2) eqn:Hdepth; [done|].
  intros _. by apply Nat.ltb_ge in Hdepth.
Qed.

Lemma on_files_two_labels E size files w v w' :
  on_files E size files w = (Normal v, w') ->
  (2 <= length (labels_after [] files))%nat.
Proof.
  destruct (first_failure E size files)
    as [[tensors Hall] | (pre & bad & post & e & tensors & Hfiles & Hpre & Hbad)].
  - rewrite (on_files_loaded E size files tensors) by done.
    unfold bind at 1.
    destruct (shuffleCombo_total E (arr_of tensors) (arr_of (answers [] files))
                (add_reads (add_console w (found_logs files)) files))
      as (XS & YS & ->).
    apply stack_and_encode_two_labels.
  - by rewrite (on_files_fail E size files pre bad post tensors e).
Qed.

Lemma same_label_one_class files :
  (forall f g, f ∈ files -> g ∈ files -> label_of f = label_of g) ->
  (length (labels_after [] files) <= 1)%nat.
Proof.
  intros Hsame.
  pose proof (labels_after_NoDup [] files (NoDup_nil_2)) as Hnd.
  assert (forall x y, x ∈ labels_after [] files -> y ∈ labels_after [] files -> x = y)
    as Hall.
  { intros x y Hx Hy.
    apply labels_after_elem_of in Hx as [Hx|Hx]; [by apply elem_of_nil in Hx|].
    apply labels_after_elem_of in Hy as [Hy|Hy]; [by apply elem_of_nil in Hy|].
    apply list_elem_of_fmap in Hx as (f & -> & Hf).
    apply list_elem_of_fmap in Hy as (g & -> & Hg). by apply Hsame. }
  destruct (labels_after [] files) as [|x [|y rest]]; simpl; try lia.
  exfalso. apply NoDup_cons in Hnd as [Hx _]. apply Hx.
  rewrite (Hall x y); [by left | by left | right; by left].
Qed.

(** X1.  A folder whose images all lie under one label never gives a
    dataset: tf.oneHot refuses a depth below 2, so the promise is rejected
    with undefined and the process is ended with code 1. *)
Theorem one_class_never_fulfilled (E : Env) (dirPath : string) (size : list nat)
  (files : list string) (w : World) :
  glob E (image_pattern dirPath) = inr files ->
  (forall f g, f ∈ files -> g ∈ files -> label_of f = label_of g) ->
  fst (folderToTensors E dirPath size w) = mkSettlement (Rejected None) (Some 1).
Proof.
  intros Hglob Hsame.
  destruct (folderToTensors_settles E size dirPath w) as [[result Hres]|Hres]; [|done].
  exfalso. rewrite folderToTensors_unfold, Hglob in Hres.
  destruct (on_files E size files _) as [[v|err|code|] w'] eqn:Hrun; try done.
  apply on_files_two_labels in Hrun.
  pose proof (same_label_one_class files Hsame). lia.
Qed.

Lemma one_class_never_fulfilled_witness :
  fst (folderToTensors one_class_env "root" [224; 224]%nat initial_world)
  = mkSettlement (Rejected None) (Some 1).
Proof.
  apply (one_class_never_fulfilled one_class_env "root" [224; 224]%nat
           ["root/cat/1.png"; "root/cat/2.png"]%string initial_world).
  - reflexivity.
  - intros f g Hf Hg.
    repeat (apply elem_of_cons in Hf as [->|Hf]);
      repeat (apply elem_of_cons in Hg as [->|Hg]);
      try reflexivity; try (by apply elem_of_nil in Hf); by apply elem_of_nil in Hg.
Defined.

(** X2.  When the pattern matches no file, the loader logs "0 Files
    Found", converts and shuffles nothing, logs "Stacking" and fails in
    tf.stack: the failure is logged, the promise is rejected with undefined
    and the process is ended with code 1; no file was read and no random
    number drawn. *)
Theorem empty_folder_ends_process (E : Env) (dirPath : string) (size : list nat)
  (w : World) :
  glob E (image_pattern dirPath) = inr [] ->
  exists error,
    folderToTensors E dirPath size w
    = (mkSettlement (Rejected None) (Some 1),
       mkWorld (console w ++ [identifying;
                              ConsoleLog [PStr "0 Files Found"];
                              ConsoleLog [PStr "Now converting to tensors"];
                              ConsoleLog [PStr "Stacking"];
                              failure_logged (Some error)])
               (random_calls w) (reads w) (emitted w)).
Proof.
  intros Hglob. rewrite folderToTensors_unfold, Hglob.
  eexists. unfold on_files, bind, console_log, shuffleCombo, console_assert, tf_stack;
    simpl. unfold add_console; simpl. rewrite <- !app_assoc. reflexivity.
Qed.

Lemma empty_folder_ends_process_witness :
  exists error,
    folderToTensors empty_env "root" [224; 224]%nat initial_world
    = (mkSettlement (Rejected None) (Some 1),
       mkWorld (console initial_world
                  ++ [identifying;
                      ConsoleLog [PStr "0 Files Found"];
                      ConsoleLog [PStr "Now converting to tensors"];
                      ConsoleLog [PStr "Stacking"];
                      failure_logged (Some error)])
               (random_calls initial_world) (reads initial_world)
               (emitted initial_world)).
Proof.
  apply (empty_folder_ends_process empty_env "root" [224; 224]%nat initial_world).
  reflexivity.
Defined.

(** ** What a fulfilled load has done *)

Lemma stack_and_encode_logs XS YS dirs w XNORM Y dirs' w' :
  stack_and_encode XS YS dirs w = (Normal (XNORM, Y, dirs'), w') ->
  w' = add_console w (stacked_logs XNORM Y).
Proof.
  unfold stack_and_encode, bind, console_log; simpl.
  rewrite tf_stack_pure. destruct (fst (tf_stack XS _)) as [X|e|code|]; try done.
  rewrite tf_oneHot_pure. destruct (fst (tf_oneHot YS _ _)) as [Y1|e|code|]; try done.
  unfold ret. intros [= <- <- <- <-].
  unfold add_console, stacked_logs; simpl. by rewrite <- !app_assoc.
Qed.

(** X3.  What a load that fulfils its promise has done: it has read every
    matched file once, in the order of the enumeration, drawn one random
    number per file, sent nothing to a socket, and logged the file count,
    the two progress lines and the shapes of the two tensors. *)
Theorem fulfilled_load_effects (E : Env) (dirPath : string) (size : list nat)
  (files : list string) (w w' : World) (XNORM Y : Tensor) (dirs : list string) :
  glob E (image_pattern dirPath) = inr files ->
  folderToTensors E dirPath size w
    = (mkSettlement (Fulfilled (XNORM, Y, dirs)) None, w') ->
  reads w' = reads w ++ files
  /\ random_calls w' = (random_calls w + length files)%nat
  /\ emitted w' = emitted w
  /\ console w' = console w ++ identifying :: found_logs files ++ stacked_logs XNORM Y.
Proof.
  intros Hglob. rewrite folderToTensors_unfold, Hglob.
  destruct (first_failure E size files)
    as [[tensors Hall] | (pre & bad & post & e & tensors & Hfiles & Hpre & Hbad)].
  - rewrite (on_files_loaded E size files tensors) by done.
    unfold bind at 1.
    destruct (shuffleCombo_total E (arr_of tensors) (arr_of (answers [] files))
                (add_reads (add_console (add_console w [identifying])
                                        (found_logs files)) files))
      as (XS & YS & ->).
    assert (arr_length (arr_of tensors) = arr_length (arr_of (answers [] files))) as Hlen.
    { unfold arr_length, arr_of; simpl. rewrite !length_fmap, answers_length.
      symmetry. by eapply Forall2_length. }
    rewrite Hlen, Nat.eqb_refl.
    destruct (stack_and_encode _ _ _ _) as [[[[X1 Y1] d1]|err|code|] w1] eqn:Hrun;
      try done.
    intros [= -> -> -> ->].
    apply stack_and_encode_logs in Hrun as ->.
    unfold arr_length, arr_of; cbn. rewrite length_fmap, answers_length.
    repeat split; try done.
    by rewrite <- !app_assoc.
  - by rewrite (on_files_fail E size files pre bad post tensors e).
Qed.

Lemma fulfilled_load_effects_witness :
  exists XNORM Y dirs w',
    folderToTensors sample_env "root" [224; 224]%nat initial_world
      = (mkSettlement (Fulfilled (XNORM, Y, dirs)) None, w')
    /\ reads w' = reads initial_world ++ sample_files
    /\ random_calls w' = (random_calls initial_world + length sample_files)%nat
    /\ emitted w' = emitted initial_world
    /\ console w' = console initial_world
                    ++ identifying :: found_logs sample_files ++ stacked_logs XNORM Y.
Proof.
  eexists _, _, _, _. split; [vm_compute; reflexivity|].
  eapply (fulfilled_load_effects sample_env "root" [224; 224]%nat sample_files
            initial_world).
  - reflexivity.
  - vm_compute. reflexivity.
Defined.

(** ** The dimensions of the dataset *)

Lemma stack_and_encode_same_shape (ts : list Tensor) (ys : list Z) dirs w v w' :
  stack_and_encode (arr_of ts) (arr_of ys) dirs w = (Normal v, w') ->
  exists s, Forall (fun t => shape t = s) ts.
Proof.
  unfold stack_and_encode, bind, console_log, tf_stack, arr_of; simpl.
  rewrite all_defined_Some.
  destruct ts as [|t0 rest]; [done|].
  destruct (forallb _ rest) eqn:Hshapes; [|done]. intros _.
  exists (shape t0). constructor; [done|].
  apply Forall_forall. intros t Ht.
  rewrite forallb_forall in Hshapes. apply list_elem_of_In in Ht.
  specialize (Hshapes t Ht). unfold shape_eqb in Hshapes.
  by apply bool_decide_eq_true in Hshapes.
Qed.

Lemma labels_after_le files : (length (labels_after [] files) <= length files)%nat.
Proof.
  rewrite <- (length_fmap label_of files).
  apply submseteq_length, NoDup_submseteq.
  - apply labels_after_NoDup, NoDup_nil_2.
  - intros name Hname. apply labels_after_elem_of in Hname as [H|H]; [|done].
    by apply elem_of_nil in H.
Qed.

Lemma concat_rows_length {X} (rows : list (list X)) (width : nat) :
  Forall (fun r => length r = width) rows ->
  length (concat rows) = (length rows * width)%nat.
Proof.
  induction 1 as [|r rows Hr _ IH]; simpl; [done|].
  by rewrite length_app, Hr, IH.
Qed.

Lemma loads_functional E size files ts1 ts2 :
  Forall2 (loads E size) files ts1 -> Forall2 (loads E size) files ts2 -> ts1 = ts2.
Proof.
  intros H1. revert ts2. induction H1 as [|f t fs ts Hf _ IH]; intros ts2 H2.
  - by inversion H2.
  - inversion H2 as [|? t2 ? ts2' Hf2 H2']; subst.
    unfold loads in Hf, Hf2. f_equal; [congruence | by apply IH].
Qed.

Section Dimensions.
Variable E : Env.
Variable size : list nat.

Lemma folderToTensors_fulfilled_shapes dirPath files w XNORM Y dirs w' :
  random_in_unit E ->
  glob E (image_pattern dirPath) = inr files ->
  Z.of_nat (length files) <= 2 ^ 31 ->
  folderToTensors E dirPath size w
    = (mkSettlement (Fulfilled (XNORM, Y, dirs)) None, w') ->
  exists s,
    shape XNORM = length files :: s
    /\ forall file t, file ∈ files -> file_tensor E file size = inr t -> shape t = s.
Proof.
  intros Hrand Hglob Hmax Hrun.
  destruct (folderToTensors_fulfilled_inv E size dirPath files w XNORM Y dirs w'
              Hrand Hglob Hmax Hrun)
    as (order & ts & t0 & rest & Horder & Hts & Hcons & _ & HX & _ & _).
  rewrite folderToTensors_unfold, Hglob in Hrun.
  destruct (first_failure E size files)
    as [[tensors Hall] | (pre & bad & post & e & tensors & Hfiles & Hpre & Hbad)].
  - rewrite (on_files_loaded E size files tensors) in Hrun by done.
    pose proof (Forall2_length _ _ _ Hall) as Hlen.
    unfold bind at 1 in Hrun.
    rewrite shuffleCombo_pure in Hrun;
      [| done | by rewrite answers_length | by rewrite <- Hlen].
    destruct (stack_and_encode _ _ _ _) as [[v|err|code|] w1] eqn:Hstack; try done.
    apply stack_and_encode_same_shape in Hstack as [s Hs].
    rewrite shuffled_perm in Hs.
    exists s. split.
    + rewrite HX. simpl. f_equal.
      assert (t0 ∈ tensors) as Ht0.
      { assert (ts ≡ₚ tensors) as <-.
        { rewrite (loads_functional E size order ts
                     (shuffled E (length files) (random_calls w) tensors) Hts).
          - apply shuffled_perm.
          - subst order. by apply shuffled_Forall2. }
        rewrite Hcons. by left. }
      rewrite Forall_forall in Hs. by apply Hs.
    + intros file t Hin Hload.
      apply list_elem_of_lookup in Hin as [i Hi].
      destruct (Forall2_lookup_l _ _ _ _ _ Hall Hi) as (t' & Ht' & Hload').
      unfold loads in Hload'. assert (t = t') as -> by congruence.
      rewrite Forall_forall in Hs. apply Hs. by eapply list_elem_of_lookup_2.
  - by rewrite (on_files_fail E size files pre bad post tensors e) in Hrun.
Qed.

End Dimensions.

Lemma fulfilled_rows (E : Env) (dirPath : string) (size : list nat)
  (files : list string) (w w' : World) (XNORM Y : Tensor) (dirs : list string) :
  random_in_unit E ->
  glob E (image_pattern dirPath) = inr files ->
  Z.of_nat (length files) <= 2 ^ 31 ->
  folderToTensors E dirPath size w
    = (mkSettlement (Fulfilled (XNORM, Y, dirs)) None, w') ->
  dirs = labels_after [] files
  /\ length (values Y) = (length files * length dirs)%nat
  /\ exists order,
       order ≡ₚ files
       /\ forall i file, order !! i = Some file ->
            row Y i = oneHot_row (length dirs) (indexOf dirs (label_of file)).
Proof.
  intros Hrand Hglob Hmax Hrun.
  destruct (folderToTensors_fulfilled_inv E size dirPath files w XNORM Y dirs w'
              Hrand Hglob Hmax Hrun)
    as (order & tensors & t0 & rest & Horder & Hall & Hts & Hdirs & -> & -> & Hdepth).
  assert (order ≡ₚ files) as Hperm by (subst order; apply shuffled_perm).
  split; [done|]. split.
  { simpl. rewrite (concat_rows_length _ (length dirs)).
    - by rewrite !length_fmap, (Permutation_length Hperm).
    - apply Forall_fmap, Forall_forall. intros y _. apply oneHot_row_length. }
  exists order. split; [done|].
  intros i file Hi. unfold row; simpl. apply concat_row.
  - apply Forall_fmap, Forall_forall. intros y _. apply oneHot_row_length.
  - by rewrite !list_lookup_fmap, Hi.
Qed.

(** X4.  A dataset that folderToTensors hands to [resolve] has at least two
    classes and at least as many samples as classes; all its images have
    one shape s, the image tensor has shape N :: s and the label tensor
    shape [N, numClasses] with N * numClasses entries. *)
Theorem dataset_dimensions (E : Env) (dirPath : string) (size : list nat)
  (files : list string) (w w' : World) (XNORM Y : Tensor) (dirs : list string) :
  random_in_unit E ->
  glob E (image_pattern dirPath) = inr files ->
  Z.of_nat (length files) <= 2 ^ 31 ->
  folderToTensors E dirPath size w
    = (mkSettlement (Fulfilled (XNORM, Y, dirs)) None, w') ->
  (2 <= length dirs <= length files)%nat
  /\ (exists s,
        shape XNORM = length files :: s
        /\ forall file t, file ∈ files -> file_tensor E file size = inr t ->
             shape t = s)
  /\ shape Y = [length files; length dirs]
  /\ length (values Y) = (length files * length dirs)%nat.
Proof.
  intros Hrand Hglob Hmax Hrun.
  destruct (folderToTensors_fulfilled_inv E size dirPath files w XNORM Y dirs w'
              Hrand Hglob Hmax Hrun)
    as (order & tensors & t0 & rest & _ & _ & _ & Hdirs & _ & HY & Hdepth).
  destruct (fulfilled_rows E dirPath size files w w' XNORM Y dirs
              Hrand Hglob Hmax Hrun) as (_ & Hvalues & _).
  split.
  { split; [done|]. rewrite Hdirs. apply labels_after_le. }
  split; [by eapply folderToTensors_fulfilled_shapes|].
  split; [by rewrite HY | done].
Qed.

Lemma dataset_dimensions_witness :
  exists XNORM Y dirs w',
    folderToTensors sample_env "root" [224; 224]%nat initial_world
      = (mkSettlement (Fulfilled (XNORM, Y, dirs)) None, w')
    /\ (2 <= length dirs <= length sample_files)%nat
    /\ (exists s,
          shape XNORM = length sample_files :: s
          /\ forall file t, file ∈ sample_files ->
               file_tensor sample_env file [224; 224]%nat = inr t -> shape t = s)
    /\ shape Y = [length sample_files; length dirs]
    /\ length (values Y) = (length sample_files * length dirs)%nat.
Proof.
  eexists _, _, _, _. split; [vm_compute; reflexivity|].
  eapply (dataset_dimensions sample_env "root" [224; 224]%nat sample_files
            initial_world).
  - exact sample_random_in_unit.
  - reflexivity.
  - simpl. lia.
  - vm_compute. reflexivity.
Defined.

(** X5.  No class of a fulfilled dataset is empty: for every column of the
    label tensor there is a row whose 1 is in that column. *)
Theorem every_class_has_a_sample (E : Env) (dirPath : string) (size : list nat)
  (files : list string) (w w' : World) (XNORM Y : Tensor) (dirs : list string) :
  random_in_unit E ->
  glob E (image_pattern dirPath) = inr files ->
  Z.of_nat (length files) <= 2 ^ 31 ->
  folderToTensors E dirPath size w
    = (mkSettlement (Fulfilled (XNORM, Y, dirs)) None, w') ->
  forall k, (k < length dirs)%nat ->
    exists i, (i < length files)%nat /\ row Y i !! k = Some 1%Q.
Proof.
  intros Hrand Hglob Hmax Hrun k Hk.
  destruct (fulfilled_rows E dirPath size files w w' XNORM Y dirs
              Hrand Hglob Hmax Hrun) as (Hdirs & _ & order & Hperm & Hrows).
  destruct (lookup_lt_is_Some_2 dirs k Hk) as [name Hname].
  assert (name ∈ label_of <$> files) as Hin.
  { assert (name ∈ labels_after [] files) as Hin
      by (rewrite <- Hdirs; by eapply list_elem_of_lookup_2).
    apply labels_after_elem_of in Hin as [Hin|Hin]; [|done].
    by apply elem_of_nil in Hin. }
  apply list_elem_of_fmap in Hin as (file & -> & Hfile).
  rewrite <- Hperm in Hfile. apply list_elem_of_lookup in Hfile as [i Hi].
  exists i. split.
  - rewrite <- (Permutation_length Hperm). by eapply lookup_lt_Some.
  - rewrite (Hrows i file Hi), oneHot_row_lookup by done.
    rewrite (indexOf_lookup dirs (label_of file) k); [by rewrite Z.eqb_refl| |done].
    rewrite Hdirs. apply labels_after_NoDup, NoDup_nil_2.
Qed.

Lemma every_class_has_a_sample_witness :
  exists XNORM Y dirs w',
    folderToTensors sample_env "root" [224; 224]%nat initial_world
      = (mkSettlement (Fulfilled (XNORM, Y, dirs)) None, w')
    /\ forall k, (k < length dirs)%nat ->
         exists i, (i < length sample_files)%nat /\ row Y i !! k = Some 1%Q.
Proof.
  eexists _, _, _, _. split; [vm_compute; reflexivity|].
  eapply (every_class_has_a_sample sample_env "root" [224; 224]%nat sample_files
            initial_world).
  - exact sample_random_in_unit.
  - reflexivity.
  - simpl. lia.
  - vm_compute. reflexivity.
Defined.

(** X6.  The label list returned with the dataset decodes the label
    tensor: in the row of a file, the column that holds the 1 is the index,
    in the returned list, of the name of the folder the file lies in. *)
Theorem hot_column_names_the_folder (E : Env) (dirPath : string) (size : list nat)
  (files : list string) (w w' : World) (XNORM Y : Tensor) (dirs : list string) :
  random_in_unit E ->
  glob E (image_pattern dirPath) = inr files ->
  Z.of_nat (length files) <= 2 ^ 31 ->
  folderToTensors E dirPath size w
    = (mkSettlement (Fulfilled (XNORM, Y, dirs)) None, w') ->
  exists order,
    order ≡ₚ files
    /\ forall i file k, order !! i = Some file ->
         (row Y i !! k = Some 1%Q <-> dirs !! k = Some (label_of file)).
Proof.
  intros Hrand Hglob Hmax Hrun.
  destruct (fulfilled_rows E dirPath size files w w' XNORM Y dirs
              Hrand Hglob Hmax Hrun) as (Hdirs & _ & order & Hperm & Hrows).
  exists order. split; [done|]. intros i file k Hi.
  assert (NoDup dirs) as Hnd by (rewrite Hdirs; apply labels_after_NoDup, NoDup_nil_2).
  assert (label_of file ∈ dirs) as Hin.
  { rewrite Hdirs. apply labels_after_elem_of. right.
    apply list_elem_of_fmap. exists file. split; [done|].
    rewrite <- Hperm. by eapply list_elem_of_lookup_2. }
  apply list_elem_of_lookup in Hin as [j Hj].
  rewrite (Hrows i file Hi), (indexOf_lookup dirs (label_of file) j Hnd Hj).
  split.
  - intros Hk.
    assert (k < length dirs)%nat as Hlt.
    { apply lookup_lt_Some in Hk. by rewrite oneHot_row_length in Hk. }
    rewrite oneHot_row_lookup in Hk by done.
    destruct (Z.eqb_spec (Z.of_nat k) (Z.of_nat j)) as [Heq|Hne]; [|done].
    apply Nat2Z.inj in Heq. by subst.
  - intros Hk. assert (k = j) as -> by (by eapply NoDup_lookup).
    rewrite oneHot_row_lookup by (by eapply lookup_lt_Some).
    by rewrite Z.eqb_refl.
Qed.

Lemma hot_column_names_the_folder_witness :
  exists XNORM Y dirs w' order,
    folderToTensors sample_env "root" [224; 224]%nat initial_world
      = (mkSettlement (Fulfilled (XNORM, Y, dirs)) None, w')
    /\ order ≡ₚ sample_files
    /\ forall i file k, order !! i = Some file ->
         (row Y i !! k = Some 1%Q <-> dirs !! k = Some (label_of file)).
Proof.
  edestruct (hot_column_names_the_folder sample_env "root" [224; 224]%nat
               sample_files initial_world) as (order & Hperm & Hrows);
    [exact sample_random_in_unit | reflexivity | simpl; lia
    | vm_compute; reflexivity |].
  eexists _, _, _, _, order. split; [vm_compute; reflexivity|]. by split.
Defined.

(** ** The numbering of the labels and the enumeration order *)

Lemma answers_app dirs files1 files2 :
  answers dirs (files1 ++ files2)
  = answers dirs files1 ++ answers (labels_after dirs files1) files2.
Proof.
  revert dirs. induction files1 as [|f files1 IH]; intros dirs; simpl; [done|].
  by rewrite IH.
Qed.

Lemma loads_all_of_perm E size files1 files2 tensors1 :
  files1 ≡ₚ files2 ->
  Forall2 (loads E size) files1 tensors1 ->
  exists tensors2, Forall2 (loads E size) files2 tensors2.
Proof.
  intros Hperm Hall.
  destruct (first_failure E size files2)
    as [[tensors2 H2] | (pre & bad & post & e & tensors & Hfiles & Hpre & Hbad)].
  - by exists tensors2.
  - exfalso.
    assert (bad ∈ files1) as Hin.
    { rewrite Hperm, Hfiles. apply elem_of_app. right. by left. }
    apply list_elem_of_lookup in Hin as [i Hi].
    destruct (Forall2_lookup_l _ _ _ _ _ Hall Hi) as (t & _ & Ht).
    unfold loads in Ht. congruence.
Qed.

(** X7.  The set of classes does not depend on the order in which the files
    are enumerated, only their numbering does: if the loop succeeds on one
    enumeration it succeeds on every reordering of it, with a label list
    that is a reordering of the first one and as many samples. *)
Theorem classes_independent_of_order (E : Env) (size : list nat)
  (files1 files2 : list string) (XS1 : JsArray Tensor) (YS1 : JsArray Z)
  (dirs1 : list string) (w1 w1' w2 : World) :
  files1 ≡ₚ files2 ->
  forEach (load_file E size) files1 (arr_of [], arr_of [], []) w1
    = (Normal (XS1, YS1, dirs1), w1') ->
  exists XS2 YS2 dirs2 w2',
    forEach (load_file E size) files2 (arr_of [], arr_of [], []) w2
      = (Normal (XS2, YS2, dirs2), w2')
    /\ dirs1 ≡ₚ dirs2
    /\ length dirs1 = length dirs2
    /\ arr_length XS1 = arr_length XS2
    /\ arr_length YS1 = arr_length YS2.
Proof.
  intros Hperm Hrun.
  destruct (forEach_load_inv E size files1 XS1 YS1 dirs1 w1 w1' Hrun)
    as (tensors1 & Hall1 & -> & -> & -> & ->).
  destruct (loads_all_of_perm E size files1 files2 tensors1 Hperm Hall1)
    as [tensors2 Hall2].
  exists (arr_of tensors2), (arr_of (answers [] files2)), (labels_after [] files2),
    (add_reads w2 files2).
  split.
  { unfold arr_of; simpl. by erewrite forEach_load_ok. }
  assert (labels_after [] files1 ≡ₚ labels_after [] files2) as Hdirs.
  { apply NoDup_Permutation; try apply labels_after_NoDup, NoDup_nil_2.
    intros name. rewrite !labels_after_elem_of. by rewrite Hperm. }
  split; [done|]. split; [by rewrite Hdirs|].
  unfold arr_length, arr_of; simpl. rewrite !length_fmap, !answers_length.
  rewrite <- (Forall2_length _ _ _ Hall1), <- (Forall2_length _ _ _ Hall2).
  by rewrite Hperm.
Qed.

Lemma classes_independent_of_order_witness :
  exists XS2 YS2 dirs2 w2',
    forEach (load_file sample_env [224; 224]%nat)
      ["root/dog/2.png"; "root/cat/3.png"; "root/cat/1.png"]%string
      (arr_of [], arr_of [], []) initial_world
      = (Normal (XS2, YS2, dirs2), w2')
    /\ ["cat"; "dog"]%string ≡ₚ dirs2
    /\ length ["cat"; "dog"]%string = length dirs2
    /\ 3%nat = arr_length XS2
    /\ 3%nat = arr_length YS2.
Proof.
  assert (sample_files
          ≡ₚ ["root/dog/2.png"; "root/cat/3.png"; "root/cat/1.png"]%string) as Hperm.
  { unfold sample_files.
    change ["root/cat/1.png"; "root/dog/2.png"; "root/cat/3.png"]%string
      with (["root/cat/1.png"]%string
              ++ ["root/dog/2.png"; "root/cat/3.png"]%string).
    apply Permutation_app_comm. }
  destruct (classes_independent_of_order sample_env [224; 224]%nat sample_files
              ["root/dog/2.png"; "root/cat/3.png"; "root/cat/1.png"]%string
              _ _ _ initial_world _ initial_world Hperm eq_refl)
    as (XS2 & YS2 & dirs2 & w2' & Hrun & Hdirs & Hlen & HX & HY).
  exists XS2, YS2, dirs2, w2'. repeat split; assumption.
Defined.

(** X8.  The index given to a label does not change when more files follow:
    the loop over an enumeration that continues a shorter one returns a
    label list, label indices and images that continue those of the
    shorter one. *)
Theorem numbering_stable_under_append (E : Env) (size : list nat)
  (files more : list string) (XS' : JsArray Tensor) (YS' : JsArray Z)
  (dirs' : list string) (w w' : World) :
  forEach (load_file E size) (files ++ more) (arr_of [], arr_of [], []) w
    = (Normal (XS', YS', dirs'), w') ->
  exists XS YS dirs w1,
    forEach (load_file E size) files (arr_of [], arr_of [], []) w
      = (Normal (XS, YS, dirs), w1)
    /\ dirs `prefix_of` dirs'
    /\ elems YS `prefix_of` elems YS'
    /\ elems XS `prefix_of` elems XS'.
Proof.
  intros Hrun.
  destruct (forEach_load_inv E size (files ++ more) XS' YS' dirs' w w' Hrun)
    as (tensors & Hall & -> & -> & -> & ->).
  apply Forall2_app_inv_l in Hall as (t1 & t2 & Hall1 & Hall2 & ->).
  exists (arr_of t1), (arr_of (answers [] files)), (labels_after [] files),
    (add_reads w files).
  split.
  { unfold arr_of; simpl. by erewrite forEach_load_ok. }
  split.
  { rewrite labels_after_app.
    destruct (labels_after_extends (labels_after [] files) more) as [ext ->].
    by exists ext. }
  unfold arr_of; simpl. split.
  - rewrite answers_app, fmap_app. by eexists.
  - rewrite fmap_app. by eexists.
Qed.

Lemma numbering_stable_under_append_witness :
  exists XS YS dirs w1,
    forEach (load_file sample_env [224; 224]%nat)
      ["root/cat/1.png"; "root/dog/2.png"]%string
      (arr_of [], arr_of [], []) initial_world
      = (Normal (XS, YS, dirs), w1)
    /\ dirs `prefix_of` ["cat"; "dog"]%string
    /\ elems YS `prefix_of` [Some 0; Some 1; Some 0]
    /\ elems XS `prefix_of` (Some <$> [tf_div white_image 255; tf_div white_image 255;
                                       tf_div white_image 255]).
Proof.
  destruct (numbering_stable_under_append sample_env [224; 224]%nat
              ["root/cat/1.png"; "root/dog/2.png"]%string ["root/cat/3.png"]%string
              _ _ _ initial_world _ eq_refl)
    as (XS & YS & dirs & w1 & Hrun & Hdirs & HY & HX).
  exists XS, YS, dirs, w1. repeat split; assumption.
Defined.

(** * Further properties of learnTransferModel *)

(** ** How a run can end *)

Lemma fit_loop_step E (s : Socket) n epoch m x y history w :
  fit_loop E (S n) epoch m x y (onEpochEnd (Some s)) history w
  = match train_epoch E m x y with
    | inl e => (Throw (Some e), w)
    | inr (m1, logs) =>
        fit_loop E n (S epoch) m1 x y (onEpochEnd (Some s)) (history ++ [logs])
          (set_emitted
             (emitted w ++ [Emit "updateProgress" [PNum (Z.of_nat epoch)]])
             (add_console w
                [ConsoleLog [PStr (String.append "epoch:" (pretty epoch));
                             PStr " acc:"; PRat (logs_acc logs)]]))
    end.
Proof.
  cbn [fit_loop]. rewrite bind_lift.
  by destruct (train_epoch E m x y) as [e|[m1 logs]].
Qed.

Lemma fit_loop_ends E (s : Socket) remaining epoch m x y history w :
  (exists m' history',
     fst (fit_loop E remaining epoch m x y (onEpochEnd (Some s)) history w)
     = Normal (m', history'))
  \/ (exists e k, (k < remaining)%nat
        /\ fst (fit_loop E remaining epoch m x y (onEpochEnd (Some s)) history w)
           = Throw (Some e)
        /\ emitted (snd (fit_loop E remaining epoch m x y (onEpochEnd (Some s))
                           history w))
           = emitted w ++ progress_events epoch k).
Proof.
  revert epoch m history w.
  induction remaining as [|n IH]; intros epoch m history w.
  - left. by eexists _, _.
  - rewrite fit_loop_step.
    destruct (train_epoch E m x y) as [e|[m1 logs]].
    + right. exists e, 0%nat. split; [lia|]. split; [done|].
      simpl. by rewrite app_nil_r.
    + match goal with
      | |- context [fit_loop E n (S epoch) m1 x y _ ?h ?w1] =>
          destruct (IH (S epoch) m1 h w1) as [Hok | (e & k & Hk & Hc & Hev)]
      end.
      * by left.
      * right. exists e, (S k). split; [lia|]. split; [done|].
        rewrite Hev. cbn [emitted set_emitted]. unfold progress_events.
        cbn [seq fmap list_fmap]. by rewrite <- app_assoc.
Qed.

Lemma await_folder_ends E dirPath size w :
  (exists v, fst (await (folderToTensors E dirPath size) w) = Normal v)
  \/ fst (await (folderToTensors E dirPath size) w) = Exit 1.
Proof.
  unfold await.
  destruct (folderToTensors_settles E size dirPath w) as [[v Hv]|Hv];
    destruct (folderToTensors E dirPath size w) as [r w1]; simpl in Hv; subst r.
  - left. by exists v.
  - by right.
Qed.

Lemma learn_ends (E : Env) (folderPath : string) (s : Socket) (w : World) :
  exists tr,
    emitted (snd (learnTransferModel E folderPath (Some s) w)) = emitted w ++ tr
    /\ RunEnd E (fst (learnTransferModel E folderPath (Some s) w)) tr.
Proof.
  pose (P := fun r : Completion Trained * World =>
               exists tr, emitted (snd r) = emitted w ++ tr /\ RunEnd E (fst r) tr).
  change (P (learnTransferModel E folderPath (Some s) w)).
  unfold learnTransferModel.
  rewrite bind_console_log, bind_emit.
  unfold bind at 1.
  match goal with
  | |- context [await (folderToTensors E folderPath ?sz) ?w1] =>
      pose proof (await_folder_ends E folderPath sz w1) as Hends;
      pose proof (emit_frame_emitted (await (folderToTensors E folderPath sz)) w1
                    (emit_frame_await_folder E folderPath sz)) as H3;
      destruct (await (folderToTensors E folderPath sz) w1)
        as [[[[X Y] dirs]|e|c|] w3]
  end;
    cbn [fst snd emitted set_emitted add_console] in Hends, H3;
    try (destruct Hends as [[v Hv]|Hv]; discriminate).
  2: { destruct Hends as [[v Hv]|Hv]; [discriminate|]. injection Hv as ->.
       eexists. split; [exact H3 | constructor]. }
  clear Hends.
  rewrite bind_console_log, bind_emit, bind_lift.
  fold feature_model_url.
  destruct (loadGraphModel E feature_model_url) as [e|featureModel] eqn:Hload.
  { exists before_model. split; [|by constructor].
    cbn [snd emitted set_emitted add_console]. by rewrite H3, <- app_assoc. }
  rewrite bind_console_log, bind_emit, bind_lift.
  destruct (predict featureModel X) as [e|featureX] eqn:Hpredict.
  { exists before_features. split; [|by econstructor].
    cbn [snd emitted set_emitted add_console]. by rewrite H3, <- !app_assoc. }
  rewrite bind_console_log, bind_emit, bind_lift.
  destruct (evaluate E _ featureX Y) as [e|[loss0 acc0]].
  { exists (before_training (shape featureX)). split; [|by econstructor].
    cbn [snd emitted set_emitted add_console]. by rewrite H3, <- !app_assoc. }
  rewrite bind_console_log. unfold model_fit, bind at 1.
  match goal with
  | |- context [fit_loop E 100 0 ?m featureX Y _ [] ?w1] =>
      destruct (fit_loop_ends E s 100 0 m featureX Y [] w1)
        as [(m' & h' & Hfit) | (e & k & Hk & Hfit & Hev)];
      destruct (fit_loop E 100 0 m featureX Y (onEpochEnd (Some s)) [] w1)
        as [[[trained history]|e'|c|] w14] eqn:Hrun
  end;
    cbn [fst snd] in Hfit; try discriminate.
  - apply fit_loop_emitted in Hrun as [Hall _].
    rewrite bind_console_log. unfold bind at 1 2.
    cbn [socket_emit fst snd ret emitted add_console].
    eexists. split;
      [|by apply (EndCompleted E (mkTrained (X, Y, dirs) featureX trained history)
                    featureModel)].
    cbn [snd emitted]. rewrite Hall. cbn [emitted set_emitted add_console run_features].
    rewrite H3, <- !app_assoc. reflexivity.
  - injection Hfit as ->.
    exists (before_training (shape featureX) ++ progress_events 0 k).
    split; [|by econstructor].
    cbn [snd] in Hev. cbn [snd]. rewrite Hev. cbn [emitted set_emitted add_console].
    by rewrite H3, <- !app_assoc.
Qed.

Lemma progress_events_elem ev first count :
  ev ∈ progress_events first count ->
  exists epoch, ev = Emit "updateProgress" [PNum (Z.of_nat epoch)].
Proof.
  unfold progress_events. intros Hin.
  apply list_elem_of_fmap in Hin as (epoch & -> & _). by exists epoch.
Qed.

Lemma fit_loop_failure E (s : Socket) remaining epoch m x y history w thrown :
  fst (fit_loop E remaining epoch m x y (onEpochEnd (Some s)) history w) = Throw thrown ->
  exists e m', thrown = Some e /\ train_epoch E m' x y = inl e.
Proof.
  revert epoch m history w.
  induction remaining as [|n IH]; intros epoch m history w; [discriminate|].
  rewrite fit_loop_step.
  destruct (train_epoch E m x y) as [e|[m1 logs]] eqn:Hepoch.
  - intros [= <-]. by exists e, m.
  - apply IH.
Qed.

(** What a run throws, and when it ends the process. *)
Lemma learn_failures (E : Env) (folderPath : string) (s : Socket) (w : World) :
  (forall code,
     fst (learnTransferModel E folderPath (Some s) w) = Exit code
     <-> exit_code (fst (folderToTensors E folderPath [224; 224]%nat (loading_world w)))
         = Some code)
  /\ (forall thrown,
        fst (learnTransferModel E folderPath (Some s) w) = Throw thrown ->
        exists e, thrown = Some e /\ library_failure E e).
Proof.
  pose (P := fun (l : Settlement Dataset) (c : Completion Trained) =>
               (forall code, c = Exit code <-> exit_code l = Some code)
               /\ (forall thrown, c = Throw thrown ->
                     exists e, thrown = Some e /\ library_failure E e)).
  change (P (fst (folderToTensors E folderPath [224; 224]%nat (loading_world w)))
            (fst (learnTransferModel E folderPath (Some s) w))).
  unfold learnTransferModel.
  rewrite bind_console_log, bind_emit.
  unfold bind at 1. unfold await.
  change (set_emitted _ (add_console w _)) with (loading_world w).
  destruct (folderToTensors_settles E [224; 224]%nat folderPath (loading_world w))
    as [[[[X Y] dirs] Hv]|Hv];
    destruct (folderToTensors E folderPath [224; 224]%nat (loading_world w))
      as [loader w3]; cbn [fst] in Hv; subst loader; cbn [fst].
  2:{ split; [intros code; cbn [exit_code]; split; congruence | discriminate]. }
  assert (forall c : Completion Trained,
            (forall code, c <> Exit code) ->
            (forall thrown, c = Throw thrown ->
               exists e, thrown = Some e /\ library_failure E e) ->
            P (mkSettlement (Fulfilled (X, Y, dirs)) None) c) as Hlater.
  { intros c Hexit Hthrow. split; [|done].
    intros code. cbn [exit_code]. split; [by intros ?%Hexit | discriminate]. }
  rewrite bind_console_log, bind_emit, bind_lift.
  fold feature_model_url.
  destruct (loadGraphModel E feature_model_url) as [e|featureModel] eqn:Hload.
  { apply Hlater; [discriminate|]. intros thrown [= <-]. exists e. split; [done|]. by left. }
  rewrite bind_console_log, bind_emit, bind_lift.
  destruct (predict featureModel X) as [e|featureX] eqn:Hpredict.
  { apply Hlater; [discriminate|]. intros thrown [= <-]. exists e. split; [done|].
    right; left. by exists featureModel, X. }
  rewrite bind_console_log, bind_emit, bind_lift.
  destruct (evaluate E _ featureX Y) as [e|[loss0 acc0]] eqn:Heval.
  { apply Hlater; [discriminate|]. intros thrown [= <-]. exists e. split; [done|].
    right; right; left. by eexists _, _, _. }
  rewrite bind_console_log. unfold model_fit, bind at 1.
  match goal with
  | |- context [fit_loop E 100 0 ?m featureX Y _ [] ?w1] =>
      pose proof (fit_loop_failure E s 100 0 m featureX Y [] w1) as Hfail;
      destruct (fit_loop_ends E s 100 0 m featureX Y [] w1)
        as [(m' & h' & Hfit) | (e & k & Hk & Hfit & Hev)];
      destruct (fit_loop E 100 0 m featureX Y (onEpochEnd (Some s)) [] w1)
        as [[[trained history]|e'|c|] w14]
  end;
    cbn [fst snd] in Hfit, Hfail; try discriminate.
  - apply Hlater; [discriminate|discriminate].
  - apply Hlater; [discriminate|]. intros thrown [= <-].
    destruct (Hfail e' eq_refl) as (e0 & m' & -> & Hepoch).
    exists e0. split; [done|]. right; right; right. by eexists _, _, _.
Qed.


(** X10.  The observer receives learnCompleted, and the log "learned",
    exactly in the runs that complete: a run that fails has sent neither. *)
Theorem completion_event_iff_completed (E : Env) (folderPath : string) (s : Socket)
  (w : World) :
  exists tr,
    emitted (snd (learnTransferModel E folderPath (Some s) w)) = emitted w ++ tr
    /\ (Emit "learnCompleted" [] ∈ tr
        <-> exists t, fst (learnTransferModel E folderPath (Some s) w) = Normal t)
    /\ (Emit "log" [PStr "learned"] ∈ tr
        <-> exists t, fst (learnTransferModel E folderPath (Some s) w) = Normal t).
Proof.
  destruct (learn_ends E folderPath s w) as (tr & Htr & Hend).
  exists tr. split; [done|].
  destruct (learnTransferModel E folderPath (Some s) w) as [c w']. simpl in *.
  assert (forall ev, (ev = Emit "learnCompleted" [] \/ ev = Emit "log" [PStr "learned"]) ->
            ev ∈ tr <-> exists t, c = Normal t) as Hboth.
  { intros ev Hev. split.
    - intros Hin. inversion Hend; subst; try by eexists.
      all: exfalso.
      all: unfold before_training, before_features, before_model in Hin.
      all: repeat (apply elem_of_app in Hin as [Hin|Hin]).
      all: repeat (apply elem_of_cons in Hin as [Hin|Hin];
                   [destruct Hev; subst; discriminate|]).
      all: try (by apply elem_of_nil in Hin).
      all: apply progress_events_elem in Hin as [epoch ->].
      all: destruct Hev; discriminate.
    - intros [t ->]. inversion Hend; subst. unfold expected_events.
      apply elem_of_app. right. apply elem_of_app. right.
      destruct Hev as [->| ->]; [right; by left | by left]. }
  split; apply Hboth; auto.
Qed.

(** X11.  When the feature extractor cannot be loaded, a run does not get
    past the event "loading model": either the loader has ended the
    process, or the run throws the error of the model loader, after the
    events "loading images" and "loading model". *)
Theorem model_load_failure (E : Env) (folderPath : string) (s : Socket)
  (w : World) (e : JsError) :
  loadGraphModel E feature_model_url = inl e ->
  (fst (learnTransferModel E folderPath (Some s) w) = Exit 1
   /\ emitted (snd (learnTransferModel E folderPath (Some s) w))
      = emitted w ++ [Emit "log" [PStr "loading images"]])
  \/ (fst (learnTransferModel E folderPath (Some s) w) = Throw (Some e)
      /\ emitted (snd (learnTransferModel E folderPath (Some s) w))
         = emitted w ++ before_model).
Proof.
  intros Hload.
  destruct (learn_ends E folderPath s w) as (tr & Htr & Hend).
  destruct (learnTransferModel E folderPath (Some s) w) as [c w']. simpl in *.
  inversion Hend; subst; try congruence.
  - by left.
  - right. split; [congruence | done].
Qed.

Lemma model_load_failure_witness :
  fst (learnTransferModel offline_env "root" (Some (mkSocket "observer")) initial_world)
    = Throw (Some (mkError "TypeError" "fetch failed"))
  /\ emitted (snd (learnTransferModel offline_env "root" (Some (mkSocket "observer"))
                     initial_world))
     = emitted initial_world ++ before_model.
Proof.
  destruct (model_load_failure offline_env "root" (mkSocket "observer") initial_world
              (mkError "TypeError" "fetch failed") eq_refl) as [[Hexit _]|H].
  - vm_compute in Hexit. discriminate.
  - exact H.
Defined.

(** X12.  Without a socket a run sends nothing: every emit of
    learnTransferModel and of its epoch callback is guarded by the socket,
    however the run ends. *)
Theorem detached_run_emits_nothing (E : Env) (folderPath : string) (w : World) :
  emitted (snd (learnTransferModel E folderPath None w)) = emitted w.
Proof. apply emit_frame_emitted, emit_frame_learn_detached. Qed.

(** * The label of a file *)

Lemma list_ascii_of_string_append (a b : string) :
  list_ascii_of_string (String.append a b)
  = list_ascii_of_string a ++ list_ascii_of_string b.
Proof. induction a as [|c a IH]; simpl; [done|]. by rewrite IH. Qed.

Lemma dirname_scan_skip (g rest : list ascii) (i : nat) (ms : bool) :
  Forall (fun c => is_slash c = false) g ->
  dirname_scan (g ++ rest) i ms
  = dirname_scan rest (i - length g) (match g with [] => ms | _ => false end).
Proof.
  intros Hg. revert i ms. induction Hg as [|c g Hc _ IH]; intros i ms; simpl.
  - by rewrite Nat.sub_0_r.
  - rewrite Hc, IH. replace (i - 1 - length g)%nat with (i - S (length g))%nat by lia.
    by destruct g.
Qed.

Lemma basename_scan_skip (g rest : list ascii) (i v : nat) :
  Forall (fun c => is_slash c = false) g ->
  basename_scan (g ++ rest) i false (Some v)
  = basename_scan rest (i - length g) false (Some v).
Proof.
  intros Hg. revert i. induction Hg as [|c g Hc _ IH]; intros i; simpl.
  - by rewrite Nat.sub_0_r.
  - rewrite Hc, IH. by replace (i - 1 - length g)%nat with (i - S (length g))%nat by lia.
Qed.

Lemma dirname_of_chars (r l f : list ascii) :
  l <> [] -> f <> [] ->
  Forall (fun c => is_slash c = false) f ->
  path_dirname (string_of_list_ascii (r ++ "/"%char :: l ++ "/"%char :: f))
  = string_of_list_ascii (r ++ "/"%char :: l).
Proof.
  intros Hl Hf Hnf. unfold path_dirname.
  rewrite list_ascii_of_string_of_list_ascii.
  assert (forall pre : list ascii,
            dirname_scan (rev (pre ++ "/"%char :: f)) (length (pre ++ "/"%char :: f)) true
            = Some (S (length pre))) as Hscan.
  { intros pre. rewrite rev_app_distr. cbn [rev]. rewrite <- app_assoc. cbn [app].
    rewrite dirname_scan_skip by (by apply Forall_rev).
    destruct (rev f) as [|x g] eqn:Hrev.
    { exfalso. apply Hf. by rewrite <- (rev_involutive f), Hrev. }
    cbn [dirname_scan]. assert (is_slash "/" = true) as -> by done.
    f_equal. rewrite <- Hrev, length_rev, length_app. simpl. lia. }
  destruct r as [|c0 r'].
  - cbn [app]. rewrite (Hscan l).
    assert (is_slash "/" = true) as -> by done.
    assert (Nat.eqb (S (length l)) 1 = false) as ->.
    { apply Nat.eqb_neq. destruct l; [done | simpl; lia]. }
    cbn [andb]. f_equal. rewrite firstn_cons. f_equal.
    by rewrite take_app_length.
  - cbn [app]. change (r' ++ "/"%char :: l ++ "/"%char :: f)
      with (r' ++ ("/"%char :: l) ++ "/"%char :: f).
    rewrite app_assoc, (Hscan (r' ++ "/"%char :: l)).
    assert (Nat.eqb (S (length (r' ++ "/"%char :: l))) 1 = false) as ->.
    { apply Nat.eqb_neq. rewrite length_app. simpl. lia. }
    rewrite andb_false_r. f_equal. rewrite firstn_cons. f_equal.
    by rewrite take_app_length.
Qed.

Lemma basename_of_chars (r l : list ascii) :
  l <> [] ->
  Forall (fun c => is_slash c = false) l ->
  path_basename (string_of_list_ascii (r ++ "/"%char :: l)) = string_of_list_ascii l.
Proof.
  intros Hl Hnl. unfold path_basename.
  rewrite list_ascii_of_string_of_list_ascii.
  rewrite rev_app_distr. cbn [rev]. rewrite <- app_assoc. cbn [app].
  destruct (rev l) as [|x g] eqn:Hrev.
  { exfalso. apply Hl. by rewrite <- (rev_involutive l), Hrev. }
  assert (Forall (fun c => is_slash c = false) (x :: g)) as Hxg
    by (rewrite <- Hrev; by apply Forall_rev).
  apply Forall_cons in Hxg as [Hx Hg].
  cbn [app basename_scan]. rewrite Hx.
  rewrite basename_scan_skip by done.
  cbn [basename_scan]. assert (is_slash "/" = true) as -> by done.
  assert (length l = S (length g)) as Hlen.
  { by rewrite <- (length_rev l), Hrev. }
  rewrite length_app. cbn [length]. rewrite Hlen.
  replace (S (length r + S (S (length g)) - 1 - 1 - length g))%nat
    with (S (length r)) by lia.
  replace (S (length r + S (S (length g)) - 1))%nat
    with (length (r ++ "/"%char :: l)) by (rewrite length_app; simpl; lia).
  rewrite firstn_all.
  f_equal. change (r ++ "/"%char :: l) with (r ++ ["/"%char] ++ l).
  rewrite app_assoc. rewrite drop_app_length'; [done|].
  rewrite length_app. simpl. lia.
Qed.

(** X13.  The label of a file found as root/label/file is the name of the
    folder it lies in, whatever the root is. *)
Theorem label_is_parent_folder (root label file : string) :
  label <> ""%string -> file <> ""%string ->
  no_slash label -> no_slash file ->
  label_of (String.append root
             (String.append "/" (String.append label (String.append "/" file))))
  = label.
Proof.
  intros Hlabel Hfile Hnl Hnf. unfold label_of.
  assert (forall s : string, s <> ""%string -> list_ascii_of_string s <> []) as Hne.
  { intros s Hs Hnil. apply Hs.
    by rewrite <- (string_of_list_ascii_of_string s), Hnil. }
  rewrite <- (string_of_list_ascii_of_string
                (String.append root
                   (String.append "/" (String.append label (String.append "/" file))))).
  rewrite !list_ascii_of_string_append. cbn [list_ascii_of_string app].
  rewrite dirname_of_chars by (done || by apply Hne).
  rewrite basename_of_chars by (done || by apply Hne).
  apply string_of_list_ascii_of_string.
Qed.

Lemma label_is_parent_folder_witness :
  label_of "c:/users/kosan/images/projects/pets/cat/0001.png" = "cat"%string.
Proof.
  apply (label_is_parent_folder "c:/users/kosan/images/projects/pets" "cat" "0001.png").
  - discriminate.
  - discriminate.
  - unfold no_slash. simpl. repeat constructor.
  - unfold no_slash. simpl. repeat constructor.
Defined.

(** * The server: the folder of an upload *)

Section UploadFolder.
Variable F : FsEnv.
Variables uploadDir projectName original : string.

Lemma upload_folder_loop_spec fuel k name path :
  upload_folder_loop F uploadDir projectName original fuel
    (folder_candidate original k) (S k) (upload_candidate_path F uploadDir projectName original k)
  = Some (name, path)
  <-> exists j, (k <= j < k + fuel)%nat
        /\ name = folder_candidate original j
        /\ path = upload_candidate_path F uploadDir projectName original j
        /\ fs_existsSync F (upload_candidate_path F uploadDir projectName original j) = false
        /\ forall i, (k <= i < j)%nat -> fs_existsSync F (upload_candidate_path F uploadDir projectName original i) = true.
Proof.
  revert k. induction fuel as [|fuel IH]; intros k.
  - simpl. split; [done | intros (j & Hj & _); lia].
  - cbn [upload_folder_loop].
    destruct (fs_existsSync F (upload_candidate_path F uploadDir projectName original k)) eqn:Hk.
    + change (path_join F _) with (upload_candidate_path F uploadDir projectName original (S k)).
      change (String.append original (String.append "-" (pretty (S k))))
        with (folder_candidate original (S k)).
      rewrite IH. split.
      * intros (j & Hj & -> & -> & Hfree & Htaken).
        exists j. repeat split; try done; try lia.
        intros i Hi. destruct (decide (i = k)) as [->|Hne]; [done|].
        apply Htaken. lia.
      * intros (j & Hj & -> & -> & Hfree & Htaken).
        assert (j <> k) by congruence.
        exists j. repeat split; try done; try lia.
        intros i Hi. apply Htaken. lia.
    + split.
      * intros [= <- <-]. exists k. repeat split; try done; try lia.
      * intros (j & Hj & -> & -> & Hfree & Htaken).
        destruct (decide (j = k)) as [->|Hne]; [done|].
        rewrite Htaken in Hk by lia. done.
Qed.

End UploadFolder.

(** X14.  The uploadFolder handler never goes on with a folder that exists:
    its loop ends exactly on the first name among original, original-1,
    original-2, ... whose path does not exist (within the passes allowed). *)
Theorem upload_folder_first_free (F : FsEnv) (uploadDir projectName original : string)
    (fuel : nat) (name path : string) :
  upload_folder_name F uploadDir projectName original fuel = Some (name, path)
  <-> exists j, (j < fuel)%nat
        /\ name = folder_candidate original j
        /\ path = upload_candidate_path F uploadDir projectName original j
        /\ fs_existsSync F path = false
        /\ forall i, (i < j)%nat ->
             fs_existsSync F (upload_candidate_path F uploadDir projectName original i)
             = true.
Proof.
  unfold upload_folder_name.
  change (path_join F [uploadDir; "verification"; projectName; original])
    with (upload_candidate_path F uploadDir projectName original 0).
  change original with (folder_candidate original 0) at 2.
  rewrite upload_folder_loop_spec. split.
  - intros (j & Hj & -> & -> & Hfree & Htaken). exists j.
    repeat split; try done; try lia. intros i Hi. apply Htaken. lia.
  - intros (j & Hj & -> & -> & Hfree & Htaken). exists j.
    repeat split; try done; try lia. intros i Hi. apply Htaken. lia.
Qed.


Example upload_folder_name_busy :
  upload_folder_name busy_fs "images" "pets" "data" 10
  = Some ("data-2", "images/verification/pets/data-2")%string.
Proof. vm_compute. reflexivity. Qed.

(** ** The project page: listings and their failures *)

Lemma map_js_inr {A B} (f : A -> JsError + B) l r :
  map_js f l = inr r -> Forall2 (fun x y => f x = inr y) l r.
Proof.
  revert r. induction l as [|x l IH]; intros r; simpl.
  - intros [= <-]. constructor.
  - destruct (f x) as [e|y] eqn:Hx; [discriminate|].
    destruct (map_js f l) as [e|r'] eqn:Hl; [discriminate|].
    intros [= <-]. constructor; [done|]. by apply IH.
Qed.

Lemma filter_js_length {A} (p : A -> JsError + bool) l r :
  filter_js p l = inr r -> (length r <= length l)%nat.
Proof.
  revert r. induction l as [|x l IH]; intros r; simpl.
  - intros [= <-]. simpl. lia.
  - destruct (p x) as [e|b]; [discriminate|].
    destruct (filter_js p l) as [e|r'] eqn:Hl; [discriminate|].
    intros [= <-]. specialize (IH r' eq_refl). destruct b; simpl; lia.
Qed.

(** Filtering the names with [lstat] keeps the names of the entries that
    are directories, when both describe the same folder. *)
Lemma filter_js_dirents (q : string -> JsError + bool) (ents : list (string * bool)) :
  Forall (fun ent => q (fst ent) = inr (snd ent)) ents ->
  filter_js q (fst <$> ents) = inr (fst <$> filter (fun file => snd file = true) ents).
Proof.
  induction 1 as [|[n b] ents Hq _ IH]; [done|].
  csimpl. simpl in Hq. rewrite Hq, IH. destruct b.
  - by rewrite filter_cons_True.
  - by rewrite filter_cons_False.
Qed.

Lemma images_of_app images1 images2 label :
  images_of (images1 ++ images2) label
  = (images_of images1 label + images_of images2 label)%nat.
Proof. unfold images_of. by rewrite filter_app, length_app. Qed.

Lemma images_of_own_label (fs : list string) label :
  images_of ((fun file => mkImageInfo file label) <$> fs) label = length fs.
Proof.
  unfold images_of. induction fs as [|f fs IH]; [done|].
  csimpl. rewrite filter_cons_True by done. simpl. by rewrite IH.
Qed.

Section ProjectPageFacts.

Variable F : FsEnv.
Variable uploadDir : string.

Lemma label_entry_inr projectDir name li :
  label_entry F projectDir name = inr li ->
  label_name li = name
  /\ exists fs, fs_readdir F (path_join F [projectDir; name]) = inr fs
       /\ (label_count li <= length fs)%nat.
Proof.
  unfold label_entry.
  destruct (fs_readdir F _) as [e|fs]; [discriminate|].
  destruct (filter_js _ fs) as [e|kept] eqn:Hkept; [discriminate|].
  intros [= <-]. split; [done|]. exists fs. split; [done|].
  simpl. by eapply filter_js_length.
Qed.

(** The two ways in which [getLabelsForProject] ends. *)
Lemma getLabelsForProject_cases projectName w :
  let projectDir := path_join F [uploadDir; "projects"; projectName] in
  (exists ents labels,
      fs_readdir_types F projectDir = inr ents
      /\ map_js (label_entry F projectDir)
           (fst <$> filter (fun file => snd file = true) ents) = inr labels
      /\ getLabelsForProject F uploadDir projectName w = (Normal labels, w))
  \/ (exists e,
      getLabelsForProject F uploadDir projectName w
      = (Throw (Some e),
         add_console w [ConsoleError [PStr "ラベル情報取得エラー:"; PErr (Some e)]])).
Proof.
  intros projectDir. unfold getLabelsForProject, try_catch, bind.
  fold projectDir.
  destruct (fs_readdir_types F projectDir) as [e|ents]; simpl.
  { right. by exists e. }
  destruct (map_js _ _) as [e|labels] eqn:Hmap; simpl.
  { right. by exists e. }
  left. by exists ents, labels.
Qed.

(** The ways in which [getImagesForProject] ends when the project exists. *)
Lemma getImagesForProject_cases projectName w :
  let projectDir := path_join F [uploadDir; "projects"; projectName] in
  fs_existsSync F projectDir = true ->
  (exists names labels images,
      fs_readdir F projectDir = inr names
      /\ filter_js (fun label => fs_lstat_isDirectory F (path_join F [projectDir; label]))
           names = inr labels
      /\ flatMap_js (label_images F projectDir) labels = inr images
      /\ getImagesForProject F uploadDir projectName w = (Normal images, w))
  \/ (exists e,
      getImagesForProject F uploadDir projectName w
      = (Throw (Some e),
         add_console w [ConsoleError [PStr "画像情報取得エラー:"; PErr (Some e)]])).
Proof.
  intros projectDir Hex. unfold getImagesForProject, try_catch, bind.
  fold projectDir. rewrite Hex. simpl.
  destruct (fs_readdir F projectDir) as [e|names]; simpl.
  { right. by exists e. }
  destruct (filter_js _ names) as [e|labels] eqn:Hf; simpl.
  { right. by exists e. }
  destruct (flatMap_js _ labels) as [e|images] eqn:Hi; simpl.
  { right. by exists e. }
  left. by exists names, labels, images.
Qed.

End ProjectPageFacts.

(** X15.  The route /project/:projectName always answers and never
    throws: 404 exactly when the project folder does not exist, the page
    with nothing logged, or 500 with the message of the file-system error
    as details, that error having been logged twice: by the listing that
    failed and by the route. *)
Theorem project_route_answers (F : FsEnv) (uploadDir projectName : string) (w : World) :
  exists r logged,
    project_route F uploadDir projectName w = (Normal r, add_console w logged)
    /\ match r with
       | StatusJson status _ details =>
           if fs_existsSync F (path_join F [uploadDir; "projects"; projectName])
           then status = 500%nat
                /\ exists e listing,
                     details = Some (err_message e)
                     /\ listing ∈ ["ラベル情報取得エラー:"; "画像情報取得エラー:"]
                     /\ logged = [ ConsoleError [PStr listing; PErr (Some e)];
                                   ConsoleError [PStr "プロジェクト情報取得エラー:";
                                                 PErr (Some e)] ]
           else status = 404%nat /\ details = None /\ logged = []
       | Render view name _ _ =>
           fs_existsSync F (path_join F [uploadDir; "projects"; projectName]) = true
           /\ view = "project" /\ name = projectName /\ logged = []
       end.
Proof.
  assert (Hw : forall v : World, add_console v [] = v).
  { intros [c n r e]. unfold add_console. simpl. by rewrite app_nil_r. }
  unfold project_route.
  destruct (fs_existsSync F _) eqn:Hex; simpl.
  2:{ eexists _, []. rewrite Hw. split; [reflexivity|]. done. }
  unfold try_catch at 1. unfold bind at 1.
  destruct (getLabelsForProject_cases F uploadDir projectName w)
    as [(ents & labels & _ & _ & ->)|(e & ->)].
  - unfold bind at 1.
    destruct (getImagesForProject_cases F uploadDir projectName w Hex)
      as [(names & dirs & images & _ & _ & _ & ->)|(e & ->)].
    + eexists _, []. rewrite Hw. split; [reflexivity|]. done.
    + eexists _, _. split.
      * unfold bind, console_error, message_of, ret, add_console. simpl.
        rewrite <- app_assoc. reflexivity.
      * split; [done|]. exists e, "画像情報取得エラー:".
        split; [done|]. split; [|done]. repeat constructor.
  - eexists _, _. split.
    + unfold bind, console_error, message_of, ret, add_console. simpl.
      rewrite <- app_assoc. reflexivity.
    + split; [done|]. exists e, "ラベル情報取得エラー:".
      split; [done|]. split; [|done]. repeat constructor.
Qed.

Lemma label_images_inr F projectDir label r :
  label_images F projectDir label = inr r ->
  exists fs, fs_readdir F (path_join F [projectDir; label]) = inr fs
    /\ r = (fun file => mkImageInfo file label) <$> fs.
Proof.
  unfold label_images. destruct (fs_readdir F _) as [e|fs]; [discriminate|].
  intros [= <-]. by exists fs.
Qed.

(** Labels and images built from the same list of folders. *)
Lemma listings_agree F projectDir (folders : list string) labels rs :
  Forall2 (fun name li => label_entry F projectDir name = inr li) folders labels ->
  Forall2 (fun name r => label_images F projectDir name = inr r) folders rs ->
  (forall im, im ∈ concat rs -> image_label im ∈ label_name <$> labels)
  /\ (forall li, li ∈ labels ->
        (label_count li <= images_of (concat rs) (label_name li))%nat).
Proof.
  intros HA. revert rs.
  induction HA as [|name li folders labels Hli _ IH]; intros rs HB.
  - inversion HB; subst. split; intros ? Hin; simpl in Hin; by apply elem_of_nil in Hin.
  - inversion HB as [|? r ? rs' Hr HB']; subst.
    destruct (IH rs' HB') as [IH1 IH2].
    apply label_entry_inr in Hli as (Hname & fs & Hfs & Hcount).
    apply label_images_inr in Hr as (fs' & Hfs' & ->).
    rewrite Hfs in Hfs'. injection Hfs' as <-.
    split.
    + intros im Him. simpl in Him. apply elem_of_app in Him as [Him|Him].
      * apply list_elem_of_fmap in Him as (file & -> & _). csimpl.
        rewrite Hname. apply elem_of_cons. by left.
      * csimpl. apply elem_of_cons. right. by apply IH1.
    + intros li0 Hin. simpl. rewrite images_of_app.
      apply elem_of_cons in Hin as [->|Hin].
      * rewrite Hname, images_of_own_label. lia.
      * specialize (IH2 li0 Hin). lia.
Qed.

(** X16.  On a rendered project page the two listings fit together, when
    the directory entries and lstat describe the same state of the project
    folder: every image is listed under one of the labels, and the count of
    a label is at most the number of images listed under it (the count
    leaves out sub-folders, the image list does not). *)
Theorem page_counts_within_images (F : FsEnv) (uploadDir projectName : string)
    (w w' : World) (view name : string)
    (labels : list LabelInfo) (images : list ImageInfo) :
  dirents_consistent F (path_join F [uploadDir; "projects"; projectName]) ->
  project_route F uploadDir projectName w = (Normal (Render view name labels images), w') ->
  (forall im, im ∈ images -> image_label im ∈ label_name <$> labels)
  /\ (forall li, li ∈ labels ->
        (label_count li <= images_of images (label_name li))%nat).
Proof.
  intros Hcons Hrun. unfold project_route in Hrun.
  destruct (fs_existsSync F _) eqn:Hex; simpl in Hrun; [|discriminate].
  unfold try_catch at 1 in Hrun. unfold bind at 1 in Hrun.
  destruct (getLabelsForProject_cases F uploadDir projectName w)
    as [(ents & labels0 & Hents & Hmap & Hl)|(e & Hl)];
    rewrite Hl in Hrun; [|discriminate].
  unfold bind at 1 in Hrun.
  destruct (getImagesForProject_cases F uploadDir projectName w Hex)
    as [(names & dirs & images0 & Hnames & Hdirs & Himages & Hi)|(e & Hi)];
    rewrite Hi in Hrun; [|discriminate].
  injection Hrun as <- <- <- <- <-.
  destruct (Hcons ents Hents) as [Hnames' Hstat].
  rewrite Hnames in Hnames'. injection Hnames' as ->.
  rewrite (filter_js_dirents
             (fun label => fs_lstat_isDirectory F
                (path_join F [path_join F [uploadDir; "projects"; projectName]; label])))
    in Hdirs by done.
  injection Hdirs as <-.
  unfold flatMap_js in Himages.
  destruct (map_js (label_images F _) _) as [e|rs] eqn:Hrs; [discriminate|].
  injection Himages as <-.
  eapply listings_agree; by apply map_js_inr.
Qed.

Lemma page_counts_within_images_witness :
  exists labels images,
    project_route pets_fs "images" "pets" initial_world
    = (Normal (Render "project" "pets" labels images), initial_world)
    /\ (forall im, im ∈ images -> image_label im ∈ label_name <$> labels)
    /\ (forall li, li ∈ labels ->
          (label_count li <= images_of images (label_name li))%nat).
Proof.
  exists [mkLabelInfo "cat" "cat" 2; mkLabelInfo "dog" "dog" 1],
         [mkImageInfo "a.png" "cat"; mkImageInfo "b.png" "cat"; mkImageInfo "old" "cat";
          mkImageInfo "c.png" "dog"].
  split; [vm_compute; reflexivity|].
  apply (page_counts_within_images pets_fs "images" "pets" initial_world initial_world
           "project" "pets").
  - intros ents Hents. vm_compute in Hents. injection Hents as <-.
    split; [vm_compute; reflexivity|]. repeat constructor.
  - vm_compute. reflexivity.
Defined.
